(** * libpqxx: glyph boundary scanner and COPY text-mode row decoder

    A shallow embedding of [stream_from.cxx] and of the string-encoding
    support it is shipped with: the per-encoding [next_seq] scanners, their
    runtime dispatch, [stream_from::parse_line], [read_row], [close] and
    [complete].

    Conventions.
    - A [char] is a [Byte.byte]; [get_byte] gives its [unsigned char] value
      as an [N].
    - Offsets ([std::string::size_type]) are [nat]; every offset the code
      computes is at most [buffer_len + 4], so 64-bit wrap-around never
      happens.  [std::string::npos] is [None].
    - The scanners run in a small monad that records every offset of the
      buffer that is read and the exception that is thrown, if any.
    - Reading [buffer] at an offset that the list does not have yields the
      byte [x00]: libpq hands out NUL-terminated COPY lines. *)

From Stdlib Require Import NArith Arith Bool Lia.
From Stdlib.Strings Require Import Byte.
From stdpp Require Import base list strings gmap.

Local Open Scope nat_scope.

(** ** Exceptions *)

Inductive exn : Type :=
| argument_error (encoding_name : string) (start : nat) (bytes : list N)
    (* pqxx::argument_error, built by throw_for_encoding_error *)
| failure (what : string)
    (* pqxx::failure, thrown by parse_line *)
| broken_connection
    (* pqxx::broken_connection, from the line source *)
| std_exception (what : string).
    (* any other std::exception from the line source *)

Inductive result (A : Type) : Type :=
| Ret (a : A)
| Throw (e : exn).
Arguments Ret {A} a.
Arguments Throw {A} e.

(** ** The scanner monad: a result and the offsets read to get it *)

Record scan (A : Type) : Type := Scan { reads : list nat; outcome : result A }.
Arguments Scan {A} reads outcome.
Arguments reads {A} s.
Arguments outcome {A} s.

Definition ret {A} (a : A) : scan A := Scan [] (Ret a).

Definition raise {A} (e : exn) : scan A := Scan [] (Throw e).

Definition bind {A B} (m : scan A) (k : A -> scan B) : scan B :=
  match outcome m with
  | Ret a => Scan (reads m ++ reads (k a)) (outcome (k a))
  | Throw e => Scan (reads m) (Throw e)
  end.

Notation "'let*' x := m 'in' k" := (bind m (fun x => k))
  (at level 10, x name, m at level 100, k at level 200, only parsing).

(** [a and b] of C++ where [b] reads the buffer: [b] runs only when [a]
    holds. *)
Definition and_then (a : bool) (b : scan bool) : scan bool :=
  if a then b else ret false.

Infix "&&&" := and_then (at level 40, left associativity).

Module Encodings.

Inductive encoding_group : Type :=
| MONOBYTE | BIG5 | EUC_CN | EUC_JP | EUC_JIS_2004 | EUC_KR | EUC_TW
| GB18030 | GBK | JOHAB | MULE_INTERNAL | SJIS | SHIFT_JIS_2004 | UHC | UTF8.

(** The name under which the server announces each multi-byte group (the
    keys of [encoding_map] in [enc_group]); MONOBYTE has many names and no
    scanner error. *)
Definition group_name (enc : encoding_group) : string :=
  match enc with
  | MONOBYTE => "MONOBYTE"
  | BIG5 => "BIG5"
  | EUC_CN => "EUC_CN"
  | EUC_JP => "EUC_JP"
  | EUC_JIS_2004 => "EUC_JIS_2004"
  | EUC_KR => "EUC_KR"
  | EUC_TW => "EUC_TW"
  | GB18030 => "GB18030"
  | GBK => "GBK"
  | JOHAB => "JOHAB"
  | MULE_INTERNAL => "MULE_INTERNAL"
  | SJIS => "SJIS"
  | SHIFT_JIS_2004 => "SHIFT_JIS_2004"
  | UHC => "UHC"
  | UTF8 => "UTF8"
  end.

Section Scanner.

Local Open Scope N_scope.

(** Extract byte from buffer, return as unsigned char. *)
Definition get_byte (buffer : list byte) (offset : nat) : scan N :=
  Scan [offset] (Ret (Byte.to_N (nth offset buffer x00))).

(** The bytes the message of [throw_for_encoding_error] prints: the loop
    [for (i = 0; i < count; ++i) ... get_byte(buffer, start + i)]. *)
Fixpoint offending_bytes (buffer : list byte) (start : nat) (count : nat)
  : scan (list N) :=
  match count with
  | O => ret []
  | S n =>
      let* b := get_byte buffer start in
      let* bs := offending_bytes buffer (S start) n in
      ret (b :: bs)
  end.

Definition throw_for_encoding_error {A} (encoding_name : string)
    (buffer : list byte) (start : nat) (count : nat) : scan A :=
  let* bs := offending_bytes buffer start count in
  raise (argument_error encoding_name start bs).

(** Does value lie between bottom and top, inclusive? *)
Definition between_inc (value bottom top : N) : bool :=
  (bottom <=? value) && (value <=? top).

Definition size_type := option nat.
Definition npos : size_type := None.
Definition pos (n : nat) : size_type := Some n.

Definition next_seq_for_euc_jplike (buffer : list byte) (buffer_len start : nat)
    (encoding_name : string) : scan size_type :=
  if (buffer_len <=? start)%nat then ret npos else
  let* first_byte := get_byte buffer start in
  if first_byte <? 0x80 then ret (pos (start + 1)) else
  if (buffer_len <? start + 2)%nat then
    throw_for_encoding_error encoding_name buffer start 1 else
  let* second_byte := get_byte buffer (start + 1) in
  if first_byte =? 0x8e then
    if negb (between_inc second_byte 0xa1 0xfe) then
      throw_for_encoding_error encoding_name buffer start 2
    else ret (pos (start + 2))
  else
  if between_inc first_byte 0xa1 0xfe then
    if negb (between_inc second_byte 0xa1 0xfe) then
      throw_for_encoding_error encoding_name buffer start 2
    else ret (pos (start + 2))
  else
  if (first_byte =? 0x8f) && (start + 3 <=? buffer_len)%nat then
    let* third_byte := get_byte buffer (start + 2) in
    if negb (between_inc second_byte 0xa1 0xfe)
       || negb (between_inc third_byte 0xa1 0xfe) then
      throw_for_encoding_error encoding_name buffer start 3
    else ret (pos (start + 3))
  else
  throw_for_encoding_error encoding_name buffer start 1.

Definition next_seq_for_sjislike (buffer : list byte) (buffer_len start : nat)
    (encoding_name : string) : scan size_type :=
  if (buffer_len <=? start)%nat then ret npos else
  let* first_byte := get_byte buffer start in
  if (first_byte <? 0x80) || between_inc first_byte 0xa1 0xdf then
    ret (pos (start + 1)) else
  if negb (between_inc first_byte 0x81 0x9f)
     && negb (between_inc first_byte 0xe0 0xfc) then
    throw_for_encoding_error encoding_name buffer start 1 else
  if (buffer_len <? start + 2)%nat then
    throw_for_encoding_error encoding_name buffer start (buffer_len - start)
  else
  let* second_byte := get_byte buffer (start + 1) in
  if second_byte =? 0x7f then
    throw_for_encoding_error encoding_name buffer start 2 else
  if between_inc second_byte 0x40 0x9e || between_inc second_byte 0x9f 0xfc
  then ret (pos (start + 2)) else
  throw_for_encoding_error encoding_name buffer start 2.

Definition next_seq_MONOBYTE (buffer : list byte) (buffer_len start : nat)
  : scan size_type :=
  if (buffer_len <=? start)%nat then ret npos else ret (pos (start + 1)).

Definition next_seq_BIG5 (buffer : list byte) (buffer_len start : nat)
  : scan size_type :=
  if (buffer_len <=? start)%nat then ret npos else
  let* first_byte := get_byte buffer start in
  if first_byte <? 0x80 then ret (pos (start + 1)) else
  if negb (between_inc first_byte 0x81 0xfe) || (buffer_len <? start + 2)%nat
  then throw_for_encoding_error "BIG5" buffer start 1 else
  let* second_byte := get_byte buffer (start + 1) in
  if negb (between_inc second_byte 0x40 0x7e)
     && negb (between_inc second_byte 0xa1 0xfe) then
    throw_for_encoding_error "BIG5" buffer start 2 else
  ret (pos (start + 2)).

Definition next_seq_EUC_CN (buffer : list byte) (buffer_len start : nat)
  : scan size_type :=
  if (buffer_len <=? start)%nat then ret npos else
  let* first_byte := get_byte buffer start in
  if first_byte <? 0x80 then ret (pos (start + 1)) else
  if negb (between_inc first_byte 0xa1 0xf7) || (buffer_len <? start + 2)%nat
  then throw_for_encoding_error "EUC_CN" buffer start 1 else
  let* second_byte := get_byte buffer (start + 1) in
  if negb (between_inc second_byte 0xa1 0xfe) then
    throw_for_encoding_error "EUC_CN" buffer start 2 else
  ret (pos (start + 2)).

Definition next_seq_EUC_JP (buffer : list byte) (buffer_len start : nat)
  : scan size_type :=
  next_seq_for_euc_jplike buffer buffer_len start "EUC_JP".

Definition next_seq_EUC_JIS_2004 (buffer : list byte) (buffer_len start : nat)
  : scan size_type :=
  next_seq_for_euc_jplike buffer buffer_len start "EUC_JIS_2004".

Definition next_seq_EUC_KR (buffer : list byte) (buffer_len start : nat)
  : scan size_type :=
  if (buffer_len <=? start)%nat then ret npos else
  let* first_byte := get_byte buffer start in
  if first_byte <? 0x80 then ret (pos (start + 1)) else
  if negb (between_inc first_byte 0xa1 0xfe) || (buffer_len <? start + 2)%nat
  then throw_for_encoding_error "EUC_KR" buffer start 1 else
  let* second_byte := get_byte buffer (start + 1) in
  if negb (between_inc second_byte 0xa1 0xfe) then
    throw_for_encoding_error "EUC_KR" buffer start 1 else
  ret (pos (start + 2)).

Definition next_seq_EUC_TW (buffer : list byte) (buffer_len start : nat)
  : scan size_type :=
  if (buffer_len <=? start)%nat then ret npos else
  let* first_byte := get_byte buffer start in
  if first_byte <? 0x80 then ret (pos (start + 1)) else
  if (buffer_len <? start + 2)%nat then
    throw_for_encoding_error "EUC_KR" buffer start 1 else
  let* second_byte := get_byte buffer (start + 1) in
  if between_inc first_byte 0xa1 0xfe then
    if negb (between_inc second_byte 0xa1 0xfe) then
      throw_for_encoding_error "EUC_KR" buffer start 2
    else ret (pos (start + 2))
  else
  if negb (first_byte =? 0x8e) || (buffer_len <? start + 4)%nat then
    throw_for_encoding_error "EUC_KR" buffer start 1 else
  let* ok := between_inc second_byte 0xa1 0xb0
        &&& (let* b2 := get_byte buffer (start + 2) in
             between_inc b2 0xa1 0xfe
             &&& (let* b3 := get_byte buffer (start + 3) in
                  ret (between_inc b3 0xa1 0xfe))) in
  if ok then ret (pos (start + 4)) else
  throw_for_encoding_error "EUC_KR" buffer start 4.

Definition next_seq_GB18030 (buffer : list byte) (buffer_len start : nat)
  : scan size_type :=
  if (buffer_len <=? start)%nat then ret npos else
  let* first_byte := get_byte buffer start in
  if between_inc first_byte 0x80 0xff then ret (pos (start + 1)) else
  if (buffer_len <? start + 2)%nat then
    throw_for_encoding_error "GB18030" buffer start (buffer_len - start) else
  let* second_byte := get_byte buffer (start + 1) in
  if between_inc second_byte 0x40 0xfe then
    if second_byte =? 0x7f then
      throw_for_encoding_error "GB18030" buffer start 2
    else ret (pos (start + 2))
  else
  if (buffer_len <? start + 4)%nat then
    throw_for_encoding_error "GB18030" buffer start (buffer_len - start) else
  let* ok := between_inc second_byte 0x30 0x39
        &&& (let* b2 := get_byte buffer (start + 2) in
             between_inc b2 0x81 0xfe
             &&& (let* b3 := get_byte buffer (start + 3) in
                  ret (between_inc b3 0x30 0x39))) in
  if ok then ret (pos (start + 4)) else
  throw_for_encoding_error "GB18030" buffer start 4.

Definition next_seq_GBK (buffer : list byte) (buffer_len start : nat)
  : scan size_type :=
  if (buffer_len <=? start)%nat then ret npos else
  let* b0 := get_byte buffer start in
  if b0 <? 0x80 then ret (pos (start + 1)) else
  if (buffer_len <? start + 2)%nat then
    throw_for_encoding_error "GBK" buffer start 1 else
  let* first_byte := get_byte buffer start in
  let* second_byte := get_byte buffer (start + 1) in
  if (between_inc first_byte 0xa1 0xa9 && between_inc second_byte 0xa1 0xfe)
     || (between_inc first_byte 0xb0 0xf7 && between_inc second_byte 0xa1 0xfe)
     || (between_inc first_byte 0x81 0xa0 && between_inc second_byte 0x40 0xfe
         && negb (second_byte =? 0x7f))
     || (between_inc first_byte 0xaa 0xfe && between_inc second_byte 0x40 0xa0
         && negb (second_byte =? 0x7f))
     || (between_inc first_byte 0xa8 0xa9 && between_inc second_byte 0x40 0xa0
         && negb (second_byte =? 0x7f))
     || (between_inc first_byte 0xaa 0xaf && between_inc second_byte 0xa1 0xfe)
     || (between_inc first_byte 0xf8 0xfe && between_inc second_byte 0xa1 0xfe)
     || (between_inc first_byte 0xa1 0xa7 && between_inc second_byte 0x40 0xa0
         && negb (second_byte =? 0x7f))
  then ret (pos (start + 2)) else
  throw_for_encoding_error "GBK" buffer start 2.

(** [second_byte] is read at [start], as the source has it. *)
Definition next_seq_JOHAB (buffer : list byte) (buffer_len start : nat)
  : scan size_type :=
  if (buffer_len <=? start)%nat then ret npos else
  let* first_byte := get_byte buffer start in
  if first_byte <? 0x80 then ret (pos (start + 1)) else
  if (buffer_len <? start + 2)%nat then
    throw_for_encoding_error "JOHAB" buffer start 1 else
  let* second_byte := get_byte buffer start in
  if (between_inc first_byte 0x84 0xd3
      && (between_inc second_byte 0x41 0x7e
          || between_inc second_byte 0x81 0xfe))
     || ((between_inc first_byte 0xd8 0xde || between_inc first_byte 0xe0 0xf9)
         && (between_inc second_byte 0x31 0x7e
             || between_inc second_byte 0x91 0xfe))
  then ret (pos (start + 2)) else
  throw_for_encoding_error "JOHAB" buffer start 2.

(** The four-byte test reads [start + 2] and [start + 4], as the source has
    it. *)
Definition next_seq_MULE_INTERNAL (buffer : list byte) (buffer_len start : nat)
  : scan size_type :=
  if (buffer_len <=? start)%nat then ret npos else
  let* first_byte := get_byte buffer start in
  if first_byte <? 0x80 then ret (pos (start + 1)) else
  if (buffer_len <? start + 2)%nat then
    throw_for_encoding_error "MULE_INTERNAL" buffer start 1 else
  let* second_byte := get_byte buffer (start + 1) in
  if between_inc first_byte 0x81 0x8d && (0xa0 <=? second_byte) then
    ret (pos (start + 2)) else
  if (buffer_len <? start + 3)%nat then
    throw_for_encoding_error "MULE_INTERNAL" buffer start 2 else
  if (((first_byte =? 0x9a) && between_inc second_byte 0xa0 0xdf)
      || ((first_byte =? 0x9b) && between_inc second_byte 0xe0 0xef)
      || (between_inc first_byte 0x90 0x99 && (0xa0 <=? second_byte)))
     && (0xa0 <=? second_byte)
  then ret (pos (start + 3)) else
  if (buffer_len <? start + 4)%nat then
    throw_for_encoding_error "MULE_INTERNAL" buffer start 3 else
  let* ok := (((first_byte =? 0x9c) && between_inc second_byte 0xf0 0xf4)
         || ((first_byte =? 0x9d) && between_inc second_byte 0xf5 0xfe))
        &&& (let* b2 := get_byte buffer (start + 2) in
             (0xa0 <=? b2)
             &&& (let* b4 := get_byte buffer (start + 4) in
                  ret (0xa0 <=? b4))) in
  if ok then ret (pos (start + 4)) else
  throw_for_encoding_error "MULE_INTERNAL" buffer start 4.

Definition next_seq_SJIS (buffer : list byte) (buffer_len start : nat)
  : scan size_type :=
  next_seq_for_sjislike buffer buffer_len start "SJIS".

Definition next_seq_SHIFT_JIS_2004 (buffer : list byte)
    (buffer_len start : nat) : scan size_type :=
  next_seq_for_sjislike buffer buffer_len start "SHIFT_JIS_2004".

Definition next_seq_UHC (buffer : list byte) (buffer_len start : nat)
  : scan size_type :=
  if (buffer_len <=? start)%nat then ret npos else
  let* first_byte := get_byte buffer start in
  if first_byte <? 0x80 then ret (pos (start + 1)) else
  if (buffer_len <? start + 2)%nat then
    throw_for_encoding_error "UHC" buffer start (buffer_len - start) else
  let* second_byte := get_byte buffer (start + 1) in
  if between_inc first_byte 0x80 0xc6 then
    if between_inc second_byte 0x41 0x5a
       || between_inc second_byte 0x61 0x7a
       || between_inc second_byte 0x80 0xfe
    then ret (pos (start + 2))
    else throw_for_encoding_error "UHC" buffer start 2
  else
  if between_inc first_byte 0xa1 0xfe then
    if negb (between_inc second_byte 0xa1 0xfe) then
      throw_for_encoding_error "UHC" buffer start 2
    else ret (pos (start + 2))
  else
  throw_for_encoding_error "UHC" buffer start 1.

Definition next_seq_UTF8 (buffer : list byte) (buffer_len start : nat)
  : scan size_type :=
  if (buffer_len <=? start)%nat then ret npos else
  let* first_byte := get_byte buffer start in
  if first_byte <? 0x80 then ret (pos (start + 1)) else
  if (buffer_len <? start + 2)%nat then
    throw_for_encoding_error "UTF8" buffer start (buffer_len - start) else
  let* second_byte := get_byte buffer (start + 1) in
  if between_inc first_byte 0xc0 0xdf then
    if negb (between_inc second_byte 0x80 0xbf) then
      throw_for_encoding_error "UTF8" buffer start 2
    else ret (pos (start + 2))
  else
  if (buffer_len <? start + 3)%nat then
    throw_for_encoding_error "UTF8" buffer start (buffer_len - start) else
  let* third_byte := get_byte buffer (start + 2) in
  if between_inc first_byte 0xe0 0xef then
    if between_inc second_byte 0x80 0xbf && between_inc third_byte 0x80 0xbf
    then ret (pos (start + 3))
    else throw_for_encoding_error "UTF8" buffer start 3
  else
  if (buffer_len <? start + 4)%nat then
    throw_for_encoding_error "UTF8" buffer start (buffer_len - start) else
  if between_inc first_byte 0xf0 0xf7 then
    let* ok := (between_inc second_byte 0x80 0xbf && between_inc third_byte 0x80 0xbf)
          &&& (let* b3 := get_byte buffer (start + 3) in
               ret (between_inc b3 0x80 0xbf)) in
    if ok then ret (pos (start + 4))
    else throw_for_encoding_error "UTF8" buffer start 4
  else
  throw_for_encoding_error "UTF8" buffer start 1.

(** DISPATCH_ENCODING_OPERATION(enc, next_seq, buffer, buffer_len, start).
    The switch covers every enumerator, so the trailing
    [throw usage_error] is never reached for a value of the enumeration. *)
Definition next_seq (enc : encoding_group) (buffer : list byte)
    (buffer_len start : nat) : scan size_type :=
  match enc with
  | MONOBYTE => next_seq_MONOBYTE buffer buffer_len start
  | BIG5 => next_seq_BIG5 buffer buffer_len start
  | EUC_CN => next_seq_EUC_CN buffer buffer_len start
  | EUC_JP => next_seq_EUC_JP buffer buffer_len start
  | EUC_JIS_2004 => next_seq_EUC_JIS_2004 buffer buffer_len start
  | EUC_KR => next_seq_EUC_KR buffer buffer_len start
  | EUC_TW => next_seq_EUC_TW buffer buffer_len start
  | GB18030 => next_seq_GB18030 buffer buffer_len start
  | GBK => next_seq_GBK buffer buffer_len start
  | JOHAB => next_seq_JOHAB buffer buffer_len start
  | MULE_INTERNAL => next_seq_MULE_INTERNAL buffer buffer_len start
  | SJIS => next_seq_SJIS buffer buffer_len start
  | SHIFT_JIS_2004 => next_seq_SHIFT_JIS_2004 buffer buffer_len start
  | UHC => next_seq_UHC buffer buffer_len start
  | UTF8 => next_seq_UTF8 buffer buffer_len start
  end.

End Scanner.

End Encodings.

(** ** stream_from: the row decoder *)

Module StreamFrom.

Import Encodings.

(** A [zview] into [m_row]: the offset of its first byte and its length.
    A default-constructed [zview] has a null data pointer: the SQL NULL
    field. *)
Inductive zview : Type :=
| zview_null
| zview_at (begin_ : nat) (size : nat).

(** The bytes a view denotes in a row buffer. *)
Definition view_bytes (m_row : list byte) (v : zview) : option (list byte) :=
  match v with
  | zview_null => None
  | zview_at b n => Some (take n (drop b m_row))
  end.

(** *** parse_line: the local variables and the loop *)

(** [row] and [fields] are the members [m_row] and [m_fields] while the line
    is parsed.  [read] is the offset of the read pointer from [line_begin];
    [write] and [field_begin] are offsets from [m_row.data()]; a null
    [field_begin] is [None]. *)
Record locals : Type := Locals {
  row : list byte;
  fields : list zview;
  read : nat;
  write : nat;
  field_begin : option nat
}.

Definition set_read (r : nat) (st : locals) : locals :=
  Locals (row st) (fields st) r (write st) (field_begin st).

Definition set_field_begin (fb : option nat) (st : locals) : locals :=
  Locals (row st) (fields st) (read st) (write st) fb.

Definition push_back (v : zview) (st : locals) : locals :=
  Locals (row st) (fields st ++ [v]) (read st) (write st) (field_begin st).

(** How a piece of [parse_line] ends: it falls through with new locals, an
    exception leaves it, it writes outside [m_row] (undefined behaviour), or
    it stops advancing. *)
Inductive run : Type :=
| Next (st : locals)
| Raised (e : exn) (st : locals)
| OutOfBounds (st : locals)
| Stuck (st : locals).

(** [*write++ = c] *)
Definition emit (c : byte) (st : locals) : run :=
  if write st <? length (row st) then
    Next (Locals (<[write st := c]> (row st)) (fields st) (read st)
                 (S (write st)) (field_begin st))
  else OutOfBounds st.

(** The [if (field_begin == nullptr) ... else ...] that ends a field, at a
    tab and after the loop. *)
Definition end_field (st : locals) : run :=
  match field_begin st with
  | None => Next (push_back zview_null st)
  | Some fb => emit x00 (push_back (zview_at fb (write st - fb)) st)
  end.

(** The inner [switch (c)] after a backslash.  [write] is never null, so
    [write != field_begin] holds whenever [field_begin] is null. *)
Definition escape (c : byte) (st : locals) : run :=
  match c with
  | x4e (* N *) =>
      match field_begin st with
      | Some fb =>
          if fb =? write st then Next (set_field_begin None st)
          else Raised (failure "Null sequence found in nonempty field") st
      | None => Raised (failure "Null sequence found in nonempty field") st
      end
  | x62 (* b *) => emit x08 st
  | x66 (* f *) => emit x0c st
  | x6e (* n *) => emit x0a st
  | x72 (* r *) => emit x0d st
  | x74 (* t *) => emit x09 st
  | x76 (* v *) => emit x0b st
  | _ => emit c st
  end.

(** The branch [glyph_end == read + 1]. *)
Definition single_byte (line : list byte) (st : locals) : run :=
  let c := nth (read st) line x00 in
  let st := set_read (S (read st)) st in
  match c with
  | x09 =>
      match end_field st with
      | Next st' => Next (set_field_begin (Some (write st')) st')
      | r => r
      end
  | x5c =>
      if length line <=? read st then
        Raised (failure "Row ends in backslash") st
      else
        escape (nth (read st) line x00) (set_read (S (read st)) st)
  | _ => emit c st
  end.

(** [while (read < glyph_end) *write++ = *read++;] with [n] the distance
    from [read] to [glyph_end]. *)
Fixpoint copy_glyph (line : list byte) (n : nat) (st : locals) : run :=
  match n with
  | O => Next st
  | S k =>
      match emit (nth (read st) line x00) st with
      | Next st' => copy_glyph line k (set_read (S (read st')) st')
      | r => r
      end
  end.

(** One iteration of [while (read < line_end)].  Should the scanner answer
    [npos], [line_begin + npos] is the address before [line_begin]: neither
    branch moves [read], and the iteration changes nothing. *)
Definition iteration (enc : encoding_group) (line : list byte) (st : locals)
  : run :=
  match outcome (next_seq enc line (length line) (read st)) with
  | Throw e => Raised e st
  | Ret None => Next st
  | Ret (Some glyph_end) =>
      if glyph_end =? read st + 1 then single_byte line st
      else copy_glyph line (glyph_end - read st) st
  end.

Fixpoint parse_loop (enc : encoding_group) (line : list byte) (fuel : nat)
    (st : locals) : run :=
  if length line <=? read st then Next st else
  match fuel with
  | O => Stuck st
  | S fuel' =>
      match iteration enc line st with
      | Next st' => parse_loop enc line fuel' st'
      | r => r
      end
  end.

(** [parse_line] behind its loop, "End the last field here": reached
    unless an exception left the loop. *)
Definition finish (r : run) : run :=
  match r with
  | Next st => end_field st
  | r => r
  end.

(** [parse_line] from [m_row.resize(line_size + 1)] on, for a line of
    [line_size = length line] bytes. *)
Definition parse_fields (enc : encoding_group) (line : list byte)
    (m_row : list byte) : run :=
  let st := Locals (resize (length line + 1) x00 m_row) [] 0 0 (Some 0) in
  finish (parse_loop enc line (length line) st).

(** *** The stream object and its line source *)

(** What [gate.read_copy_line()] does when called: hands over a line,
    reports the end of the data (a null pointer), or throws. *)
Inductive source_event : Type :=
| copy_line (line : list byte)
| copy_done
| copy_throws (e : exn).

(** The stream and, in [source], [pulls], [unregistered] and
    [pending_errors], its collaborators: the events the connection still
    holds (once they are used up it reports the end of the data), how often
    [read_copy_line] and [unregister_me] were called, and the errors handed
    to [reg_pending_error]. *)
Record stream_from : Type := Stream {
  m_glyph_scanner : encoding_group;
  m_finished : bool;
  m_row : list byte;
  m_fields : list zview;
  source : list source_event;
  pulls : nat;
  unregistered : nat;
  pending_errors : list exn
}.

(** How a member function ends. *)
Inductive ending (A : Type) : Type :=
| Returns (a : A)
| Throws (e : exn)
| Undefined
| Hangs.
Arguments Returns {A} a.
Arguments Throws {A} e.
Arguments Undefined {A}.
Arguments Hangs {A}.

(** Modelled from the spec: [operator bool] of the class declaration, which
    is not part of the source file; a stream is usable until it is
    finished. *)
Definition operator_bool (s : stream_from) : bool := negb (m_finished s).

Definition close (s : stream_from) : stream_from :=
  if negb (m_finished s) then
    Stream (m_glyph_scanner s) true (m_row s) (m_fields s) (source s)
           (pulls s) (S (unregistered s)) (pending_errors s)
  else s.

(** [gate.read_copy_line()] *)
Definition read_copy_line (s : stream_from) : stream_from * source_event :=
  let pulled rest :=
    Stream (m_glyph_scanner s) (m_finished s) (m_row s) (m_fields s) rest
           (S (pulls s)) (unregistered s) (pending_errors s) in
  match source s with
  | [] => (pulled [], copy_done)
  | ev :: rest => (pulled rest, ev)
  end.

(** A [raw_line]: [None] is the null pointer (with size zero). *)
Definition raw_line := option (list byte).

Definition get_raw_line (s : stream_from) : stream_from * result raw_line :=
  if operator_bool s then
    match read_copy_line s with
    | (s1, copy_line l) => (s1, Ret (Some l))
    | (s1, copy_done) => (close s1, Ret None)
    | (s1, copy_throws e) => (close s1, Throw e)
    end
  else (s, Ret None).

Definition set_parsed (finished : bool) (st : locals) (s : stream_from)
  : stream_from :=
  Stream (m_glyph_scanner s) finished (row st) (fields st) (source s)
         (pulls s) (unregistered s) (pending_errors s).

Definition clear_fields (s : stream_from) : stream_from :=
  Stream (m_glyph_scanner s) (m_finished s) (m_row s) [] (source s)
         (pulls s) (unregistered s) (pending_errors s).

Definition parse_line (s : stream_from) : stream_from * ending unit :=
  if m_finished s then (s, Returns tt) else
  match get_raw_line (clear_fields s) with
  | (s1, Throw e) => (s1, Throws e)
  | (s1, Ret line) =>
      let finished :=
        match line with None => true | Some _ => m_finished s1 end in
      match parse_fields (m_glyph_scanner s1) (default [] line) (m_row s1) with
      | Next st => (set_parsed finished st s1, Returns tt)
      | Raised e st => (set_parsed finished st s1, Throws e)
      | OutOfBounds st => (set_parsed finished st s1, Undefined)
      | Stuck st => (set_parsed finished st s1, Hangs)
      end
  end.

(** [read_row]: a null pointer ([None]) when finished, else [&m_fields]. *)
Definition read_row (s : stream_from)
  : stream_from * ending (option (list zview)) :=
  match parse_line s with
  | (s1, Returns _) =>
      (s1, Returns (if m_finished s1 then None else Some (m_fields s1)))
  | (s1, Throws e) => (s1, Throws e)
  | (s1, Undefined) => (s1, Undefined)
  | (s1, Hangs) => (s1, Hangs)
  end.

Definition reg_pending_error (e : exn) (s : stream_from) : stream_from :=
  Stream (m_glyph_scanner s) (m_finished s) (m_row s) (m_fields s) (source s)
         (pulls s) (unregistered s) (pending_errors s ++ [e]).

(** The loop [while (not done)] of [complete]; the connection holds finitely
    many events, so [fuel] beyond their number is never used up. *)
Fixpoint flush_lines (fuel : nat) (s : stream_from)
  : stream_from * ending unit :=
  match fuel with
  | O => (s, Hangs)
  | S fuel' =>
      match get_raw_line s with
      | (s1, Throw e) => (s1, Throws e)
      | (s1, Ret None) => (s1, Returns tt)
      | (s1, Ret (Some _)) => flush_lines fuel' s1
      end
  end.

Definition complete (s : stream_from) : stream_from * ending unit :=
  if m_finished s then (s, Returns tt) else
  match flush_lines (S (length (source s))) s with
  | (s1, Throws broken_connection) => (close s1, Throws broken_connection)
  | (s1, Throws e) => (close (reg_pending_error e s1), Returns tt)
  | (s1, Returns _) => (close s1, Returns tt)
  | (s1, r) => (s1, r)
  end.

(** The values of the row just parsed, read through the views. *)
Definition row_values (s : stream_from) (row : list zview)
  : list (option (list byte)) :=
  map (view_bytes (m_row s)) row.

(** A stream freshly opened in encoding group [enc] on a connection that
    will deliver [events]. *)
Definition open (enc : encoding_group) (events : list source_event)
  : stream_from :=
  Stream enc false [] [] events 0 0 [].

End StreamFrom.

(** ** The COPY text format, as the specification words it

    These definitions follow the wording of the format rather than the
    code: a line is cut into runs at its unescaped tabs, and each run is
    unescaped on its own.  They are compared with [read_row] below. *)

Module CopyText.

Definition tab : byte := x09.
Definition backslash : byte := x5c.
Definition letter_N : byte := x4e.

(** The byte an escape [backslash c] stands for, [c] not being [N]:
    b, f, n, r, t, v give backspace, form feed, line feed, carriage return,
    horizontal tab, vertical tab; any other byte gives itself. *)
Definition control (c : byte) : byte :=
  match c with
  | x62 => x08
  | x66 => x0c
  | x6e => x0a
  | x72 => x0d
  | x74 => x09
  | x76 => x0b
  | _ => c
  end.

(** Prepend [p] to the first run. *)
Definition add_head (p : list byte) (runs : list (list byte))
  : list (list byte) :=
  match runs with
  | [] => [p]
  | r :: rs => (p ++ r) :: rs
  end.

(** The runs between unescaped tabs; a backslash escapes the byte after
    it, which therefore never separates. *)
Fixpoint split_runs (l : list byte) : list (list byte) :=
  match l with
  | [] => [[]]
  | c :: t =>
      if Byte.eqb c tab then [] :: split_runs t
      else if Byte.eqb c backslash then
        match t with
        | [] => [[c]]
        | c' :: t' => add_head [c; c'] (split_runs t')
        end
      else add_head [c] (split_runs t)
  end.

(** The runs between tabs of a line that has no escapes. *)
Fixpoint split_on_tab (l : list byte) : list (list byte) :=
  match l with
  | [] => [[]]
  | c :: t =>
      if Byte.eqb c tab then [] :: split_on_tab t
      else add_head [c] (split_on_tab t)
  end.

(** The bytes of a run with every escape replaced by what it stands for;
    the null marker stands for no byte. *)
Fixpoint unescape (run : list byte) : list byte :=
  match run with
  | [] => []
  | c :: t =>
      if Byte.eqb c backslash then
        match t with
        | [] => []
        | c' :: t' =>
            if Byte.eqb c' letter_N then unescape t'
            else control c' :: unescape t'
        end
      else c :: unescape t
  end.

(** A run that starts with the null marker. *)
Definition null_run (run : list byte) : bool :=
  match run with
  | c :: c' :: _ => Byte.eqb c backslash && Byte.eqb c' letter_N
  | _ => false
  end.

(** The value of a field given by its run: SQL NULL ([None]) or bytes. *)
Definition field_of_run (run : list byte) : option (list byte) :=
  if null_run run then None else Some (unescape run).

(** The line ends inside an escape: its last byte is a backslash that is
    not itself escaped. *)
Fixpoint dangling (l : list byte) : bool :=
  match l with
  | [] => false
  | c :: t =>
      if Byte.eqb c backslash then
        match t with
        | [] => true
        | _ :: t' => dangling t'
        end
      else dangling t
  end.

(** Some escape of the line is the null marker. *)
Fixpoint has_null_marker (l : list byte) : bool :=
  match l with
  | [] => false
  | c :: t =>
      if Byte.eqb c backslash then
        match t with
        | [] => false
        | c' :: t' => Byte.eqb c' letter_N || has_null_marker t'
        end
      else has_null_marker t
  end.

(** A run the decoder accepts: a null marker stands at its start or
    nowhere, and the run does not end inside an escape. *)
Definition acceptable_run (run : list byte) : bool :=
  let body := if null_run run then drop 2 run else run in
  negb (dangling body) && negb (has_null_marker body).

Definition well_formed (l : list byte) : bool :=
  forallb acceptable_run (split_runs l).

(** The terminator a field gets in the row buffer: a NUL, unless it is
    null. *)
Definition terminator (field : option (list byte)) : list byte :=
  match field with
  | None => []
  | Some _ => [x00]
  end.

(** What a run leaves in the row buffer: its unescaped bytes, those behind
    a null marker too, and the terminator. *)
Definition stored (run : list byte) : list byte :=
  unescape run ++ terminator (field_of_run run).

Definition ascii (c : byte) : Prop := (Byte.to_N c < 0x80)%N.

(** A run without null marker that does not end inside an escape. *)
Definition clean (run : list byte) : bool :=
  negb (dangling run) && negb (has_null_marker run).

(** The field that results when the run [r] continues an open field
    [cur]. *)
Definition merge (cur : option (list byte)) (r : list byte)
  : option (list byte) :=
  match cur with
  | None => None
  | Some bs => if null_run r then None else Some (bs ++ unescape r)
  end.

(** The decoder on lines of one-byte glyphs, on values instead of views:
    [done] are the closed fields, [cur] the open one ([None] once the null
    marker was seen), [out] the bytes written so far.  Used to relate
    [read_row] to the runs. *)
Fixpoint decode (done : list (option (list byte))) (cur : option (list byte))
    (out : list byte) (l : list byte)
  : result (list (option (list byte)) * list byte) :=
  match l with
  | [] => Ret (done ++ [cur], out ++ terminator cur)
  | c :: t =>
      if Byte.eqb c tab then
        decode (done ++ [cur]) (Some []) (out ++ terminator cur) t
      else if Byte.eqb c backslash then
        match t with
        | [] => Throw (failure "Row ends in backslash")
        | c' :: t' =>
            if Byte.eqb c' letter_N then
              match cur with
              | Some [] => decode done None out t'
              | _ => Throw (failure "Null sequence found in nonempty field")
              end
            else
              decode done (option_map (fun bs => bs ++ [control c']) cur)
                     (out ++ [control c']) t'
        end
      else decode done (option_map (fun bs => bs ++ [c]) cur) (out ++ [c]) t
  end.

End CopyText.

(** ** Operations on a stream, for statements about call sequences *)

Module Calls.

Import StreamFrom.

Inductive call : Type := call_read_row | call_close | call_complete.

(** What a call answered: for [read_row] whether it handed out a row. *)
Inductive answer : Type :=
| answered_row (row : list zview)
| answered_end_of_data
| answered_nothing
| answered_throw (e : exn)
| answered_undefined
| answered_hang.

Definition perform (c : call) (s : stream_from) : stream_from * answer :=
  match c with
  | call_read_row =>
      match read_row s with
      | (s1, Returns (Some row)) => (s1, answered_row row)
      | (s1, Returns None) => (s1, answered_end_of_data)
      | (s1, Throws e) => (s1, answered_throw e)
      | (s1, Undefined) => (s1, answered_undefined)
      | (s1, Hangs) => (s1, answered_hang)
      end
  | call_close => (close s, answered_nothing)
  | call_complete =>
      match complete s with
      | (s1, Returns _) => (s1, answered_nothing)
      | (s1, Throws e) => (s1, answered_throw e)
      | (s1, Undefined) => (s1, answered_undefined)
      | (s1, Hangs) => (s1, answered_hang)
      end
  end.

(** What a call answers on a finished stream. *)
Definition idle_answer (c : call) : answer :=
  match c with
  | call_read_row => answered_end_of_data
  | call_close | call_complete => answered_nothing
  end.

(** A caller that goes on whatever the calls answer (it catches what is
    thrown). *)
Fixpoint perform_all (cs : list call) (s : stream_from)
  : stream_from * list answer :=
  match cs with
  | [] => (s, [])
  | c :: cs' =>
      let '(s1, a) := perform c s in
      let '(s2, answers) := perform_all cs' s1 in
      (s2, a :: answers)
  end.

End Calls.

(** ** Invariants of [parse_line] *)

Module Invariants.

Import StreamFrom.

(** For a line of [L] bytes: the row buffer has [L + 1] bytes, no more bytes
    were written than were read, and [read] is within the line. *)
Definition bounded (L : nat) (st : locals) : Prop :=
  length (row st) = L + 1 /\ write st <= read st /\ read st <= L.

(** A piece of [parse_line] neither writes outside the buffer nor stalls,
    keeps the invariant, and when it falls through [read] is at least
    [from]. *)
Definition run_bounded (L from : nat) (r : run) : Prop :=
  match r with
  | Next st => bounded L st /\ from <= read st
  | Raised _ st => bounded L st
  | OutOfBounds _ | Stuck _ => False
  end.

(** What holds of the row buffer when [parse_line] is left. *)
Definition within_buffer (L : nat) (r : run) : Prop :=
  match r with
  | Next st | Raised _ st => length (row st) = L + 1 /\ write st <= L + 1
  | OutOfBounds _ | Stuck _ => False
  end.

(** A view lies within the first [w] bytes of the row buffer. *)
Definition view_below (w : nat) (v : zview) : Prop :=
  match v with
  | zview_null => True
  | zview_at b n => b + n <= w
  end.

(** The open field: null, or the bytes from [field_begin] to [write]. *)
Definition open_field (st : locals) (cur : option (list byte)) : Prop :=
  match cur with
  | None => field_begin st = None
  | Some bs =>
      exists fb, field_begin st = Some fb /\ fb + length bs = write st
                 /\ take (length bs) (drop fb (row st)) = bs
  end.

(** The locals hold the closed fields [done], the open field [cur] and the
    output [out]. *)
Definition represents (st : locals) (done : list (option (list byte)))
    (cur : option (list byte)) (out : list byte) : Prop :=
  map (view_bytes (row st)) (fields st) = done
  /\ Forall (view_below (write st)) (fields st)
  /\ open_field st cur
  /\ take (write st) (row st) = out.

(** The states in which the loop of [parse_line] tests its condition, for
    a line and the row buffer found. *)
Inductive arrives (enc : Encodings.encoding_group) (line m_row : list byte)
  : locals -> Prop :=
| arrives_first :
    arrives enc line m_row
      (Locals (resize (length line + 1) x00 m_row) [] 0 0 (Some 0))
| arrives_next st st' :
    arrives enc line m_row st ->
    read st < length line ->
    iteration enc line st = Next st' ->
    arrives enc line m_row st'.

(** The stream is usable and the next thing its connection delivers is
    [line]. *)
Definition delivers (s : stream_from) (line : list byte) : Prop :=
  m_finished s = false /\ head (source s) = Some (copy_line line).

(** The stream after [parse_line] took a line from the connection and
    left its loop with the locals [st]. *)
Definition after (s : stream_from) (st : locals) : stream_from :=
  Stream (m_glyph_scanner s) false (row st) (fields st) (tail (source s))
         (S (pulls s)) (unregistered s) (pending_errors s).

(** The row a call of [read_row] handed out, read through its views. *)
Definition row_of (r : stream_from * ending (option (list zview)))
  : option (list (option (list byte))) :=
  match r with
  | (s, Returns (Some row)) => Some (row_values s row)
  | _ => None
  end.

(** A call ended with a protocol error ([pqxx::failure]) and no row. *)
Definition protocol_error {A} (r : stream_from * ending A) : Prop :=
  exists what, snd r = Throws (failure what).

End Invariants.

(** ** enc_group: from the name of an encoding to its group *)

Module EncodingNames.

Import Encodings.

(** The rows of [encoding_map], in the order of the source. *)
Definition encoding_rows : list (string * encoding_group) :=
  [("BIG5", BIG5); ("EUC_CN", EUC_CN); ("EUC_JP", EUC_JP);
   ("EUC_JIS_2004", EUC_JIS_2004); ("EUC_KR", EUC_KR); ("EUC_TW", EUC_TW);
   ("GB18030", GB18030); ("GBK", GBK);
   ("ISO_8859_5", MONOBYTE); ("ISO_8859_6", MONOBYTE);
   ("ISO_8859_7", MONOBYTE); ("ISO_8859_8", MONOBYTE);
   ("JOHAB", JOHAB);
   ("KOI8R", MONOBYTE); ("KOI8U", MONOBYTE);
   ("LATIN1", MONOBYTE); ("LATIN2", MONOBYTE); ("LATIN3", MONOBYTE);
   ("LATIN4", MONOBYTE); ("LATIN5", MONOBYTE); ("LATIN6", MONOBYTE);
   ("LATIN7", MONOBYTE); ("LATIN8", MONOBYTE); ("LATIN9", MONOBYTE);
   ("LATIN10", MONOBYTE);
   ("MULE_INTERNAL", MULE_INTERNAL); ("SJIS", SJIS);
   ("SHIFT_JIS_2004", SHIFT_JIS_2004); ("SQL_ASCII", MONOBYTE);
   ("UHC", UHC); ("UTF8", UTF8);
   ("WIN866", MONOBYTE); ("WIN874", MONOBYTE); ("WIN1250", MONOBYTE);
   ("WIN1251", MONOBYTE); ("WIN1252", MONOBYTE); ("WIN1253", MONOBYTE);
   ("WIN1254", MONOBYTE); ("WIN1255", MONOBYTE); ("WIN1256", MONOBYTE);
   ("WIN1257", MONOBYTE); ("WIN1258", MONOBYTE)].

(** The [std::map] built from them. *)
Definition encoding_map : gmap string encoding_group :=
  list_to_map encoding_rows.

(** [enc_group(const std::string&)]: the group, or the message of the
    [std::invalid_argument] it throws. *)
Definition enc_group (encoding_name : string) : encoding_group + string :=
  match encoding_map !! encoding_name with
  | Some group => inl group
  | None =>
      inr (String.append "unrecognized encoding '"
             (String.append encoding_name "'"))
  end.

End EncodingNames.

(** ** The COPY commands *)

Module Commands.

(** [compose_query]; [quote_name] is the transaction's, and the first
    component is the size handed to [command.reserve]. *)
Definition compose_query (quote_name : string -> string)
    (table columns : string) : nat * string :=
  let copy := "COPY " in
  let to_stdout := " TO STDOUT" in
  let escaped_table := quote_name table in
  let reserved :=
    String.length copy + String.length escaped_table
    + String.length columns + 2 + String.length to_stdout in
  let command := String.append copy escaped_table in
  let command :=
    if String.eqb columns "" then command
    else String.append (String.append (String.append command "(") columns) ")"
  in
  (reserved, String.append command to_stdout).

(** The command of the constructor that takes a query, with the size it
    reserves. *)
Definition from_query_command (query : string) : nat * string :=
  let copy := "COPY (" in
  let to_stdout := ") TO STDOUT" in
  (String.length copy + String.length query + String.length to_stdout,
   String.append (String.append copy query) to_stdout).

End Commands.

(** ** Further invariants of [parse_line] and of the stream *)

Module Layout.

Import StreamFrom.

(** The views [fs] lie in the row buffer one behind the other between
    [lo] and [hi]: each starts at or behind the end of the one before, and
    the byte behind each is a NUL that still lies before [hi]. *)
Fixpoint laid_out (m_row : list byte) (lo hi : nat) (fs : list zview)
  : Prop :=
  match fs with
  | [] => lo <= hi
  | zview_null :: fs' => laid_out m_row lo hi fs'
  | zview_at b n :: fs' =>
      lo <= b /\ nth (b + n) m_row x01 = x00
      /\ laid_out m_row (b + n + 1) hi fs'
  end.

(** The views closed so far are laid out before [write], and the open
    field begins behind them. *)
Definition orderly (st : locals) : Prop :=
  exists hi,
    laid_out (row st) 0 hi (fields st) /\ hi <= write st
    /\ (forall fb, field_begin st = Some fb -> hi <= fb <= write st).

(** Two sets of locals that differ at most in the bytes of the row buffer
    that were not written yet. *)
Definition alike (a b : locals) : Prop :=
  fields a = fields b /\ read a = read b /\ write a = write b
  /\ field_begin a = field_begin b
  /\ length (row a) = length (row b)
  /\ take (write a) (row a) = take (write b) (row b).

Definition alike_run (ra rb : run) : Prop :=
  match ra, rb with
  | Next a, Next b => alike a b
  | Raised e a, Raised e' b => e = e' /\ alike a b
  | OutOfBounds _, OutOfBounds _ => True
  | Stuck _, Stuck _ => True
  | _, _ => False
  end.

(** The stream with another content of its row buffer. *)
Definition with_row (m_row : list byte) (s : stream_from) : stream_from :=
  Stream (m_glyph_scanner s) (m_finished s) m_row (m_fields s) (source s)
         (pulls s) (unregistered s) (pending_errors s).

(** The events behind the lines at the head of the source. *)
Fixpoint skip_lines (events : list source_event) : list source_event :=
  match events with
  | copy_line _ :: rest => skip_lines rest
  | _ => events
  end.

(** The line scanned glyph by glyph from [start], the way [parse_line]
    calls the scanner: the exception of the first glyph the scanner
    rejects, [None] if it rejects none.  A glyph has at least one byte, so
    [fuel] beyond the bytes left is never used up. *)
Fixpoint first_rejected (enc : Encodings.encoding_group) (line : list byte)
    (fuel start : nat) : option exn :=
  if length line <=? start then None else
  match fuel with
  | O => None
  | S fuel' =>
      match outcome (Encodings.next_seq enc line (length line) start) with
      | Throw e => Some e
      | Ret None => None
      | Ret (Some glyph_end) => first_rejected enc line fuel' glyph_end
      end
  end.

(** *** Behind a null marker *)

(** The glyph at [read] is a tab: the byte there is a tab and the scanner
    finds it to be a glyph of its own. *)
Definition at_tab (enc : Encodings.encoding_group) (line : list byte)
    (st : locals) : Prop :=
  nth (read st) line x00 = CopyText.tab
  /\ outcome (Encodings.next_seq enc line (length line) (read st))
     = Ret (Some (read st + 1)).

(** The states in which the loop of [parse_line] tests its condition
    behind a null marker that began a field, as long as no tab has closed
    that field.  [behind_marker]: the loop arrived at the start of a field
    (nothing of it is written: [field_begin] is [write]), the line goes on
    with backslash N, and the iteration fell through.  [behind_glyph]: one
    more glyph that is not a tab was consumed.  [marker] is where [write]
    stood at the marker. *)
Inductive behind_null_marker (enc : Encodings.encoding_group)
    (line m_row : list byte) (marker : nat) : locals -> Prop :=
| behind_marker st st' :
    Invariants.arrives enc line m_row st ->
    field_begin st = Some (write st) ->
    marker = write st ->
    S (read st) < length line ->
    nth (read st) line x00 = CopyText.backslash ->
    nth (S (read st)) line x00 = CopyText.letter_N ->
    iteration enc line st = Next st' ->
    behind_null_marker enc line m_row marker st'
| behind_glyph st st' :
    behind_null_marker enc line m_row marker st ->
    read st < length line ->
    ~ at_tab enc line st ->
    iteration enc line st = Next st' ->
    behind_null_marker enc line m_row marker st'.

(** What a glyph leaves in the row buffer: an escape, the byte it stands
    for; any other glyph, its bytes. *)
Definition stands_for (glyph : list byte) : list byte :=
  match glyph with
  | [c; c'] =>
      if Byte.eqb c CopyText.backslash then [CopyText.control c'] else glyph
  | _ => glyph
  end.

(** The byte at offset [w] of the row buffer belongs to the view [v]
    neither as one of its bytes nor as its terminator. *)
Definition outside (w : nat) (v : zview) : Prop :=
  match v with
  | zview_null => True
  | zview_at b n => b + n < w \/ w < b
  end.

(** The view [v] begins at offset [w] of the row buffer or behind it. *)
Definition begins_from (w : nat) (v : zview) : Prop :=
  match v with
  | zview_null => True
  | zview_at b _ => w <= b
  end.

(** The locals [st'] later in the line than the locals [st] of a null open
    field: what was written is still there, and either the field is still
    open and null, or it was closed with a null view and every view behind
    it, and the open field, begin where [st] wrote or behind. *)
Definition null_since (st st' : locals) : Prop :=
  write st <= write st'
  /\ take (write st) (row st') = take (write st) (row st)
  /\ ((fields st' = fields st /\ field_begin st' = None)
      \/ exists later,
           fields st' = fields st ++ zview_null :: later
           /\ Forall (begins_from (write st)) later
           /\ forall fb, field_begin st' = Some fb -> write st <= fb).

(** The exceptions [parse_line] itself throws. *)
Definition parse_exception (e : exn) : Prop :=
  e = failure "Row ends in backslash"
  \/ e = failure "Null sequence found in nonempty field"
  \/ exists name at_byte bytes, e = argument_error name at_byte bytes.

End Layout.

(** * Properties of the glyph scanners *)

Module ScannerFacts.

Import Encodings.

Lemma bind_ret {A B} (m : scan A) (k : A -> scan B) a :
  outcome m = Ret a ->
  bind m k = Scan (reads m ++ reads (k a)) (outcome (k a)).
Proof. intros H. unfold bind. rewrite H. reflexivity. Qed.

Lemma offending_bytes_spec buffer count : forall start,
  offending_bytes buffer start count
  = Scan (seq start count)
         (Ret (map (fun i => Byte.to_N (nth i buffer x00)) (seq start count))).
Proof.
  induction count as [|n IH]; intros start; [reflexivity|].
  cbn [offending_bytes]. rewrite (bind_ret (get_byte buffer start) _ _ eq_refl).
  rewrite IH. unfold bind. cbn. rewrite app_nil_r. reflexivity.
Qed.

(** [throw_for_encoding_error] reads the [count] bytes from [start] on and
    throws an [argument_error] that carries the name it was given, [start]
    and those bytes. *)
Lemma throw_spec {A} name buffer start count :
  @throw_for_encoding_error A name buffer start count
  = Scan (seq start count)
      (Throw (argument_error name start
         (map (fun i => Byte.to_N (nth i buffer x00)) (seq start count)))).
Proof.
  unfold throw_for_encoding_error. rewrite offending_bytes_spec.
  unfold bind. cbn. rewrite app_nil_r. reflexivity.
Qed.

#[local] Opaque throw_for_encoding_error.

Ltac unfold_scanners :=
  unfold next_seq, next_seq_MONOBYTE, next_seq_BIG5, next_seq_EUC_CN,
    next_seq_EUC_JP, next_seq_EUC_JIS_2004, next_seq_EUC_KR, next_seq_EUC_TW,
    next_seq_GB18030, next_seq_GBK, next_seq_JOHAB, next_seq_MULE_INTERNAL,
    next_seq_SJIS, next_seq_SHIFT_JIS_2004, next_seq_UHC, next_seq_UTF8,
    next_seq_for_euc_jplike, next_seq_for_sjislike in *.

Ltac split_nat_tests :=
  repeat match goal with
  | |- context [(?a <=? ?b)%nat] => destruct (Nat.leb_spec a b)
  | |- context [(?a <? ?b)%nat] => destruct (Nat.ltb_spec a b)
  | H : context [(?a <=? ?b)%nat] |- _ => destruct (Nat.leb_spec a b)
  | H : context [(?a <? ?b)%nat] |- _ => destruct (Nat.ltb_spec a b)
  end.

Ltac scan_simpl :=
  unfold and_then in *;
  cbn [bind outcome reads ret raise get_byte pos npos app] in *;
  rewrite ?orb_true_r, ?orb_false_r, ?andb_true_r, ?andb_false_r in *.

Ltac scan_step :=
  scan_simpl;
  match goal with
  | |- context [if ?c then _ else _] => destruct c eqn:?
  | H : context [if ?c then _ else _] |- _ => destruct c eqn:?
  end.

(** Every path of every scanner, one goal each. *)
Ltac scan_cases :=
  unfold_scanners; split_nat_tests; repeat scan_step; scan_simpl;
  rewrite ?throw_spec in *; scan_simpl; unfold pos, npos in *.

Ltac reads_bound :=
  repeat first
    [ exact I
    | apply Forall_nil
    | constructor; [lia|]
    | apply Forall_app; split
    | apply Forall_forall; intros ? ?Hseq; apply elem_of_seq in Hseq; lia ].

(** Postcondition of a successful scan: the glyph ends after [start] and
    within the buffer. *)
Lemma next_seq_end enc buffer buffer_len start e :
  outcome (next_seq enc buffer buffer_len start) = Ret (Some e) ->
  start < e <= buffer_len.
Proof.
  intros H. destruct enc; scan_cases; try discriminate;
    injection H as <-; lia.
Qed.

(** [npos] is answered at the end of the buffer only. *)
Lemma next_seq_npos enc buffer buffer_len start :
  outcome (next_seq enc buffer buffer_len start) = Ret None ->
  buffer_len <= start.
Proof.
  intros H. destruct enc; scan_cases; try discriminate; lia.
Qed.

Lemma next_seq_at_end enc buffer buffer_len start :
  buffer_len <= start ->
  next_seq enc buffer buffer_len start = Scan [] (Ret None).
Proof.
  intros H. destruct enc; unfold_scanners;
    destruct (Nat.leb_spec buffer_len start); try lia; reflexivity.
Qed.

(** In every group but GB18030 a byte below 0x80 is a glyph of its own. *)
Lemma next_seq_ascii enc buffer buffer_len start :
  enc <> GB18030 ->
  start < buffer_len ->
  (Byte.to_N (nth start buffer x00) < 0x80)%N ->
  outcome (next_seq enc buffer buffer_len start) = Ret (Some (start + 1)).
Proof.
  intros Henc Hlt Hb. apply N.ltb_lt in Hb.
  destruct enc; try congruence; unfold_scanners;
    destruct (Nat.leb_spec buffer_len start); try lia;
    scan_simpl; rewrite ?Hb; reflexivity.
Qed.

(** In every group but MULE_INTERNAL the scanner reads the buffer below
    [buffer_len] only, on the paths that throw too. *)
Lemma next_seq_reads_below enc buffer buffer_len start :
  enc <> MULE_INTERNAL ->
  Forall (fun i => i < buffer_len) (reads (next_seq enc buffer buffer_len start)).
Proof.
  intros Henc.
  destruct enc; try congruence; scan_cases; reads_bound.
Qed.

(** MULE_INTERNAL reads at most one byte beyond the buffer. *)
Lemma next_seq_MULE_INTERNAL_reads buffer buffer_len start :
  Forall (fun i => i <= buffer_len)
         (reads (next_seq MULE_INTERNAL buffer buffer_len start)).
Proof.
  scan_cases; reads_bound.
Qed.

(** In every group but EUC_TW a decoding error names the group scanned and
    the offset the scan started at. *)
Lemma next_seq_error_names_group enc buffer buffer_len start name at_byte bs :
  enc <> EUC_TW ->
  outcome (next_seq enc buffer buffer_len start)
  = Throw (argument_error name at_byte bs) ->
  name = group_name enc /\ at_byte = start.
Proof.
  intros Henc H.
  destruct enc; try congruence; scan_cases; try discriminate;
    injection H as <- <- _; split; reflexivity.
Qed.

(** Whatever EUC_TW rejects, the error it throws names EUC_KR. *)
Lemma next_seq_EUC_TW_error_name buffer buffer_len start name at_byte bs :
  outcome (next_seq EUC_TW buffer buffer_len start)
  = Throw (argument_error name at_byte bs) ->
  name = "EUC_KR" /\ at_byte = start.
Proof.
  intros H. scan_cases; try discriminate;
    injection H as <- <- _; split; reflexivity.
Qed.

(** In GB18030 a byte below 0x80 is never a glyph of its own. *)
Lemma next_seq_GB18030_ascii buffer buffer_len start :
  (Byte.to_N (nth start buffer x00) < 0x80)%N ->
  outcome (next_seq GB18030 buffer buffer_len start) <> Ret (Some (start + 1)).
Proof.
  intros Hb H. unfold next_seq, next_seq_GB18030 in H.
  assert (Hf : between_inc (Byte.to_N (nth start buffer x00)) 0x80 0xff = false).
  { unfold between_inc. apply andb_false_iff. left. apply N.leb_gt. exact Hb. }
  destruct (Nat.leb_spec buffer_len start); [discriminate|].
  scan_simpl. rewrite Hf in H.
  scan_cases; try discriminate; injection H; lia.
Qed.

(** A JOHAB scan that returns has read the byte at [start] only: the byte
    at [start + 1] decides nothing. *)
Lemma next_seq_JOHAB_reads buffer buffer_len start r :
  outcome (next_seq JOHAB buffer buffer_len start) = Ret r ->
  Forall (fun i => i = start) (reads (next_seq JOHAB buffer buffer_len start)).
Proof.
  intros H. scan_cases; try discriminate; repeat first [exact I | constructor].
Qed.

(** C1 (the code fails it for GB18030): scanned under GB18030, the byte "a"
    alone is not answered with offset 1 but with a decoding error, and in
    "ab" it is taken as the lead byte of a two-byte glyph. *)
Theorem gb18030_ascii_byte_not_a_glyph :
  next_seq GB18030 [x61] 1 0
  = Scan [0; 0] (Throw (argument_error "GB18030" 0 [0x61%N]))
  /\ outcome (next_seq GB18030 [x61; x62] 2 0) = Ret (Some 2).
Proof. split; reflexivity. Qed.

(** C2 (the code fails it for MULE_INTERNAL): on the four-byte buffer
    9C F0 A0 A0 with [buffer_len = 4], whatever lies behind it, the scanner
    reads offset 4; and what it answers depends on that byte. *)
Theorem mule_internal_reads_at_buffer_len :
  (forall beyond, exists more,
     reads (next_seq MULE_INTERNAL ([x9c; xf0; xa0; xa0] ++ beyond) 4 0)
     = [0; 1; 2; 4] ++ more)
  /\ outcome (next_seq MULE_INTERNAL [x9c; xf0; xa0; xa0; xa0] 4 0)
     = Ret (Some 4)
  /\ outcome (next_seq MULE_INTERNAL [x9c; xf0; xa0; xa0; x00] 4 0)
     = Throw (argument_error "MULE_INTERNAL" 0
                [0x9c%N; 0xf0%N; 0xa0%N; 0xa0%N]).
Proof.
  split; [|split; reflexivity].
  intros beyond. unfold next_seq, next_seq_MULE_INTERNAL. cbn.
  destruct (160 <=? Byte.to_N (nth 0 beyond x00))%N; cbn; eauto.
Qed.

(** C3 (the code fails it for JOHAB): after the lead byte 84 every second
    byte is accepted, 20 among them, which lies outside the trailing ranges
    41..7E and 81..FE; the byte at offset 1 is not even read. *)
Theorem johab_trailing_byte_not_validated : forall second,
  next_seq JOHAB [x84; second] 2 0 = Scan [0; 0] (Ret (Some 2)).
Proof. intros second. reflexivity. Qed.

(** Trailing bytes that decide nothing in other groups: in MULE_INTERNAL
    the fourth byte of a four-byte sequence (here 00) is not looked at, and
    in GB18030 a lead byte from 0x80 on is answered as a glyph of its own
    whatever follows. *)
Lemma trailing_bytes_not_validated_elsewhere :
  next_seq MULE_INTERNAL [x9c; xf0; xa0; x00; xa0] 5 0
  = Scan [0; 1; 2; 4] (Ret (Some 4))
  /\ forall second, next_seq GB18030 [x81; second] 2 0 = Scan [0] (Ret (Some 1)).
Proof. split; [reflexivity|intros second; reflexivity]. Qed.

(** C4 (the code fails it for EUC_TW): a truncated sequence and an illegal
    trailing byte, scanned under EUC_TW, raise errors that name EUC_KR. *)
Theorem euc_tw_error_names_euc_kr :
  outcome (next_seq EUC_TW [xa1] 1 0)
  = Throw (argument_error "EUC_KR" 0 [0xa1%N])
  /\ outcome (next_seq EUC_TW [xa1; x20] 2 0)
     = Throw (argument_error "EUC_KR" 0 [0xa1%N; 0x20%N]).
Proof. split; reflexivity. Qed.

End ScannerFacts.

(** * Properties of the row decoder *)

Module ParseFacts.

Import Encodings StreamFrom CopyText Invariants.

(** ** The cases of the two switches *)

Lemma single_byte_tab line st :
  nth (read st) line x00 = tab ->
  single_byte line st
  = match end_field (set_read (S (read st)) st) with
    | Next st' => Next (set_field_begin (Some (write st')) st')
    | r => r
    end.
Proof. intros H. unfold single_byte. rewrite H. reflexivity. Qed.

Lemma single_byte_backslash line st :
  nth (read st) line x00 = backslash ->
  single_byte line st
  = if length line <=? S (read st) then
      Raised (failure "Row ends in backslash") (set_read (S (read st)) st)
    else escape (nth (S (read st)) line x00) (set_read (S (S (read st))) st).
Proof. intros H. unfold single_byte. rewrite H. reflexivity. Qed.

Lemma single_byte_other line st :
  nth (read st) line x00 <> tab ->
  nth (read st) line x00 <> backslash ->
  single_byte line st
  = emit (nth (read st) line x00) (set_read (S (read st)) st).
Proof.
  unfold single_byte, tab, backslash.
  destruct (nth (read st) line x00); intros H1 H2;
    solve [reflexivity | contradiction H1; reflexivity
          | contradiction H2; reflexivity].
Qed.

Lemma escape_N st :
  escape letter_N st
  = match field_begin st with
    | Some fb =>
        if fb =? write st then Next (set_field_begin None st)
        else Raised (failure "Null sequence found in nonempty field") st
    | None => Raised (failure "Null sequence found in nonempty field") st
    end.
Proof. reflexivity. Qed.

Lemma escape_other c st :
  c <> letter_N -> escape c st = emit (control c) st.
Proof.
  unfold letter_N. destruct c; intros H;
    solve [reflexivity | contradiction H; reflexivity].
Qed.

(** ** Writes stay inside the row buffer *)

Ltac unfold_locals :=
  unfold run_bounded, within_buffer, emit, end_field, set_read,
    set_field_begin, push_back in *;
  cbn [row fields read write field_begin] in *;
  unfold bounded in *;
  cbn [row fields read write field_begin] in *.

Lemma emit_bounded L c st :
  length (row st) = L + 1 -> write st < read st -> read st <= L ->
  run_bounded L (read st) (emit c st).
Proof.
  intros Hrow Hw Hr. unfold emit.
  destruct (Nat.ltb_spec (write st) (length (row st))); [|lia].
  unfold_locals. rewrite length_insert. lia.
Qed.

Lemma end_field_bounded L st :
  length (row st) = L + 1 -> write st < read st -> read st <= L ->
  run_bounded L (read st) (end_field st).
Proof.
  intros Hrow Hw Hr. unfold end_field.
  destruct (field_begin st) as [fb|].
  - apply (emit_bounded L x00 (push_back (zview_at fb (write st - fb)) st));
      assumption.
  - unfold_locals. lia.
Qed.

Lemma escape_bounded L c st :
  length (row st) = L + 1 -> write st < read st -> read st <= L ->
  run_bounded L (read st) (escape c st).
Proof.
  intros Hrow Hw Hr.
  destruct (Byte.byte_eq_dec c letter_N) as [->|Hc].
  - rewrite escape_N. destruct (field_begin st) as [fb|].
    + destruct (fb =? write st); unfold_locals; lia.
    + unfold_locals; lia.
  - rewrite escape_other by assumption. apply emit_bounded; lia.
Qed.

Lemma single_byte_bounded line st :
  bounded (length line) st -> read st < length line ->
  run_bounded (length line) (S (read st)) (single_byte line st).
Proof.
  intros (Hrow & Hw & Hr) Hlt.
  destruct (Byte.byte_eq_dec (nth (read st) line x00) tab) as [Ht|Ht].
  - rewrite single_byte_tab by assumption.
    pose proof (end_field_bounded (length line) (set_read (S (read st)) st))
      as Hb.
    cbn [set_read row fields read write field_begin] in Hb.
    specialize (Hb Hrow ltac:(lia) ltac:(lia)).
    destruct (end_field (set_read (S (read st)) st)); unfold_locals; lia.
  - destruct (Byte.byte_eq_dec (nth (read st) line x00) backslash) as [Hb|Hb].
    + rewrite single_byte_backslash by assumption.
      destruct (Nat.leb_spec (length line) (S (read st))).
      * unfold_locals. lia.
      * pose proof (escape_bounded (length line) (nth (S (read st)) line x00)
                      (set_read (S (S (read st))) st)) as He.
        cbn [set_read row fields read write field_begin] in He.
        specialize (He Hrow ltac:(lia) ltac:(lia)).
        destruct (escape _ _); unfold_locals; lia.
    + rewrite single_byte_other by assumption.
      apply (emit_bounded (length line) _ (set_read (S (read st)) st));
        unfold_locals; lia.
Qed.

Lemma copy_glyph_spec line L : forall n st,
  length (row st) = L + 1 -> write st <= read st -> read st + n <= L ->
  exists st', copy_glyph line n st = Next st'
    /\ read st' = read st + n /\ write st' = write st + n
    /\ length (row st') = L + 1
    /\ fields st' = fields st /\ field_begin st' = field_begin st.
Proof.
  induction n as [|n IH]; intros st Hrow Hw Hr; cbn [copy_glyph].
  - exists st. repeat split; lia.
  - unfold emit. destruct (Nat.ltb_spec (write st) (length (row st))); [|lia].
    edestruct (IH (set_read (S (read st))
      (Locals (<[write st:=nth (read st) line x00]> (row st)) (fields st)
              (read st) (S (write st)) (field_begin st))))
      as (st' & Hc & Hrd & Hwr & Hlen & Hf & Hfb);
      try (cbn [set_read row fields read write field_begin];
           rewrite ?length_insert; lia).
    cbn [set_read row fields read write field_begin] in *.
    exists st'. rewrite Hc. repeat split; try lia; assumption.
Qed.

(** One iteration keeps the invariant and moves [read] forward. *)
Lemma iteration_bounded enc line st :
  bounded (length line) st -> read st < length line ->
  run_bounded (length line) (S (read st)) (iteration enc line st).
Proof.
  intros Hb Hlt. unfold iteration.
  destruct (outcome (next_seq enc line (length line) (read st)))
    as [[glyph_end|]|e] eqn:Hscan.
  - apply ScannerFacts.next_seq_end in Hscan.
    destruct (Nat.eqb_spec glyph_end (read st + 1)) as [->|Hne].
    + apply single_byte_bounded; assumption.
    + destruct Hb as (Hrow & Hw & Hr).
      destruct (copy_glyph_spec line (length line) (glyph_end - read st) st)
        as (st' & Hc & Hrd & Hwr & Hlen & _); try lia.
      rewrite Hc. unfold_locals. lia.
  - apply ScannerFacts.next_seq_npos in Hscan. lia.
  - exact Hb.
Qed.

(** The loop ends, with [read] at the end of the line or by an
    exception. *)
Lemma parse_loop_bounded enc line : forall fuel st,
  bounded (length line) st -> length line - read st <= fuel ->
  run_bounded (length line) (length line) (parse_loop enc line fuel st).
Proof.
  induction fuel as [|fuel IH]; intros st Hb Hfuel; cbn [parse_loop];
    destruct (Nat.leb_spec (length line) (read st)) as [Hend|Hlt].
  - split; [exact Hb|exact Hend].
  - lia.
  - split; [exact Hb|exact Hend].
  - pose proof (iteration_bounded enc line st Hb Hlt) as Hi.
    destruct (iteration enc line st) as [st'| | |]; try exact Hi.
    destruct Hi as [Hb' Hrd]. apply IH; [exact Hb'|lia].
Qed.

Lemma parse_fields_within_buffer enc line m_row :
  within_buffer (length line) (parse_fields enc line m_row).
Proof.
  unfold parse_fields.
  set (st := Locals _ _ _ _ _).
  assert (Hb : bounded (length line) st).
  { subst st. unfold bounded. cbn. rewrite length_resize. lia. }
  pose proof (parse_loop_bounded enc line (length line) st Hb ltac:(lia)) as Hl.
  destruct (parse_loop enc line (length line) st) as [st'| | |];
    cbn [finish]; try exact Hl; [|unfold_locals; lia].
  destruct Hl as [(Hrow & Hw & Hr) _].
  unfold end_field. destruct (field_begin st') as [fb|].
  - unfold emit. cbn [push_back row fields read write field_begin].
    destruct (Nat.ltb_spec (write st') (length (row st'))); [|lia].
    unfold_locals. rewrite length_insert. lia.
  - unfold_locals. lia.
Qed.

(** ** Lines of one-byte glyphs: the loop computes [decode] *)

Lemma drop_nth (line : list byte) i :
  i < length line -> drop i line = nth i line x00 :: drop (S i) line.
Proof.
  intros Hi. destruct (lookup_lt_is_Some_2 line i Hi) as [x Hx].
  rewrite (nth_lookup_Some _ _ x00 _ Hx). apply drop_S. exact Hx.
Qed.

Lemma ascii_nth (line : list byte) i :
  Forall ascii line -> i < length line -> ascii (nth i line x00).
Proof.
  intros Hall Hi. destruct (lookup_lt_is_Some_2 line i Hi) as [x Hx].
  rewrite (nth_lookup_Some _ _ x00 _ Hx).
  exact (Forall_lookup_1 _ _ _ _ Hall Hx).
Qed.

Lemma iteration_ascii enc line st :
  enc <> GB18030 -> read st < length line -> ascii (nth (read st) line x00) ->
  iteration enc line st = single_byte line st.
Proof.
  intros Henc Hlt Hb. unfold iteration.
  rewrite (ScannerFacts.next_seq_ascii enc line (length line) (read st))
    by assumption.
  rewrite Nat.eqb_refl. reflexivity.
Qed.

Lemma views_insert (m_row : list byte) fs w i c :
  Forall (view_below w) fs -> w <= i ->
  map (view_bytes (<[i:=c]> m_row)) fs = map (view_bytes m_row) fs.
Proof.
  intros Hall Hw. induction Hall as [|v fs Hv _ IH]; [reflexivity|].
  cbn [map]. rewrite IH. f_equal.
  destruct v as [|b n]; [reflexivity|]. cbn in Hv |- *.
  rewrite drop_insert_ge by lia. rewrite take_insert_ge by lia. reflexivity.
Qed.

Lemma views_below_mono w w' fs :
  Forall (view_below w) fs -> w <= w' -> Forall (view_below w') fs.
Proof.
  intros Hall Hw. eapply Forall_impl; [exact Hall|].
  intros [|b n]; cbn; [trivial|lia].
Qed.

Lemma take_insert_end (l : list byte) w c :
  w < length l -> take (S w) (<[w:=c]> l) = take w l ++ [c].
Proof.
  intros Hw. rewrite (take_S_r _ _ c).
  - rewrite take_insert_ge by lia. reflexivity.
  - apply list_lookup_insert_eq. exact Hw.
Qed.

Lemma emit_represents c st done cur out :
  write st < length (row st) -> represents st done cur out ->
  exists st', emit c st = Next st'
    /\ represents st' done (option_map (fun bs => bs ++ [c]) cur) (out ++ [c])
    /\ read st' = read st /\ write st' = S (write st)
    /\ length (row st') = length (row st).
Proof.
  intros Hw (Hdone & Hbelow & Hopen & Hout). unfold emit.
  destruct (Nat.ltb_spec (write st) (length (row st))); [|lia].
  eexists. split; [reflexivity|].
  cbn [row fields read write field_begin]. rewrite length_insert.
  repeat split; try reflexivity.
  - cbn [row fields]. rewrite (views_insert _ _ (write st)); auto.
  - cbn [write fields]. eapply views_below_mono; [exact Hbelow|lia].
  - destruct cur as [bs|]; cbn [option_map open_field] in *;
      cbn [row fields read write field_begin]; [|exact Hopen].
    destruct Hopen as (fb & Hfb & Hlen & Htake). exists fb.
    rewrite length_app. cbn [length]. repeat split; [exact Hfb|lia|].
    rewrite drop_insert_ge by lia.
    replace (write st - fb) with (length bs) by lia.
    replace (length bs + 1) with (S (length bs)) by lia.
    rewrite take_insert_end; [rewrite Htake; reflexivity|].
    rewrite length_drop. lia.
  - cbn [row write]. rewrite take_insert_end by lia. rewrite Hout. reflexivity.
Qed.

Lemma end_field_represents st done cur out :
  write st < length (row st) -> represents st done cur out ->
  exists st', end_field st = Next st'
    /\ map (view_bytes (row st')) (fields st') = done ++ [cur]
    /\ Forall (view_below (write st')) (fields st')
    /\ take (write st') (row st') = out ++ terminator cur
    /\ read st' = read st /\ length (row st') = length (row st)
    /\ write st <= write st' <= S (write st).
Proof.
  intros Hw (Hdone & Hbelow & Hopen & Hout). unfold end_field.
  destruct cur as [bs|]; cbn [open_field] in Hopen.
  - destruct Hopen as (fb & -> & Hlen & Htake).
    unfold emit. cbn [push_back row fields read write field_begin].
    destruct (Nat.ltb_spec (write st) (length (row st))); [|lia].
    eexists. split; [reflexivity|].
    cbn [row fields read write field_begin terminator].
    rewrite length_insert, map_app, Forall_app.
    assert (Hv : view_below (write st) (zview_at fb (write st - fb)))
      by (cbn; lia).
    repeat split; try lia.
    + rewrite (views_insert _ _ (write st)) by auto. rewrite Hdone.
      f_equal. cbn [map view_bytes].
      rewrite drop_insert_ge by lia. rewrite take_insert_ge by lia.
      replace (write st - fb) with (length bs) by lia.
      rewrite Htake. reflexivity.
    + eapply views_below_mono; [exact Hbelow|lia].
    + constructor; [cbn; lia|constructor].
    + rewrite take_insert_end by lia. rewrite Hout. reflexivity.
  - rewrite Hopen. eexists. split; [reflexivity|].
    cbn [push_back row fields read write field_begin terminator].
    rewrite map_app, Forall_app, app_nil_r.
    repeat split; try lia; auto.
    + rewrite Hdone. reflexivity.
    + constructor; [exact I|constructor].
Qed.

Ltac locals_simpl :=
  cbn [set_read set_field_begin push_back row fields read write field_begin]
    in *.

Lemma parse_loop_decode enc line :
  enc <> GB18030 -> Forall ascii line ->
  forall fuel st done cur out,
  bounded (length line) st -> represents st done cur out ->
  length line - read st <= fuel ->
  match decode done cur out (drop (read st) line) with
  | Ret (vs, o) =>
      exists st', finish (parse_loop enc line fuel st) = Next st'
        /\ map (view_bytes (row st')) (fields st') = vs
        /\ take (write st') (row st') = o
        /\ length (row st') = length line + 1
  | Throw e => exists st', parse_loop enc line fuel st = Raised e st'
  end.
Proof.
  intros Henc Hascii.
  assert (Hatend : forall fuel st done cur out,
    bounded (length line) st -> represents st done cur out ->
    length line <= read st ->
    exists st', finish (parse_loop enc line fuel st) = Next st'
      /\ map (view_bytes (row st')) (fields st') = done ++ [cur]
      /\ take (write st') (row st') = out ++ terminator cur
      /\ length (row st') = length line + 1).
  { intros fuel st done cur out (Hrow & Hw & Hr) Hrep Hend.
    assert (Hl : parse_loop enc line fuel st = Next st).
    { destruct fuel; cbn [parse_loop];
        destruct (Nat.leb_spec (length line) (read st)); try lia; reflexivity. }
    rewrite Hl. cbn [finish].
    destruct (end_field_represents st done cur out)
      as (st' & He & Hvals & _ & Hout & _ & Hlen & _); [lia|exact Hrep|].
    exists st'. rewrite Hlen. auto. }
  induction fuel as [|fuel IH]; intros st done cur out Hb Hrep Hfuel;
    destruct (Nat.le_gt_cases (length line) (read st)) as [Hend|Hlt];
    try (rewrite drop_ge by lia; cbn [decode]; apply Hatend; assumption);
    try lia.
  rewrite (drop_nth line (read st)) by lia.
  pose proof (ascii_nth line (read st) Hascii Hlt) as Hc.
  cbn [parse_loop].
  destruct (Nat.leb_spec (length line) (read st)) as [?|_]; [lia|].
  rewrite iteration_ascii by assumption.
  destruct Hb as (Hrow & Hw & Hr).
  cbn [decode].
  destruct (Byte.eqb (nth (read st) line x00) tab) eqn:Et.
  { apply Byte.byte_dec_bl in Et. rewrite single_byte_tab by exact Et.
    destruct (end_field_represents (set_read (S (read st)) st) done cur out)
      as (st1 & He & Hvals & Hbelow & Hout & Hrd & Hlen & Hwr);
      [locals_simpl; lia|exact Hrep|].
    rewrite He. locals_simpl.
    specialize (IH (set_field_begin (Some (write st1)) st1) (done ++ [cur])
                   (Some []) (out ++ terminator cur)).
    locals_simpl. rewrite Hrd in IH. apply IH.
    - unfold bounded. locals_simpl. lia.
    - unfold represents, open_field. locals_simpl.
      repeat split; auto. exists (write st1). repeat split; cbn; lia.
    - lia. }
  apply Byte.eqb_false in Et.
  destruct (Byte.eqb (nth (read st) line x00) backslash) eqn:Eb.
  { apply Byte.byte_dec_bl in Eb. rewrite single_byte_backslash by exact Eb.
    destruct (Nat.leb_spec (length line) (S (read st))) as [Hlast|Hmore].
    { rewrite drop_ge by lia. eexists. reflexivity. }
    rewrite (drop_nth line (S (read st))) by lia.
    destruct (Byte.eqb (nth (S (read st)) line x00) letter_N) eqn:En.
    { apply Byte.byte_dec_bl in En. rewrite En, escape_N. locals_simpl.
      destruct Hrep as (Hdone & Hbelow & Hopen & Hout).
      destruct cur as [[|b bs]|]; cbn [open_field] in Hopen.
      - destruct Hopen as (fb & Hfb & Hlen & _). rewrite Hfb.
        cbn [length] in Hlen.
        destruct (Nat.eqb_spec fb (write st)) as [_|Hne]; [|lia].
        specialize (IH (set_field_begin None (set_read (S (S (read st))) st))
                       done None out).
        locals_simpl. apply IH.
        + unfold bounded. locals_simpl. lia.
        + unfold represents, open_field. locals_simpl. auto.
        + lia.
      - destruct Hopen as (fb & Hfb & Hlen & _). rewrite Hfb.
        cbn [length] in Hlen.
        destruct (Nat.eqb_spec fb (write st)) as [Heq|_]; [lia|].
        eexists. reflexivity.
      - rewrite Hopen. eexists. reflexivity. }
    apply Byte.eqb_false in En. rewrite escape_other by exact En.
    destruct (emit_represents (control (nth (S (read st)) line x00))
                (set_read (S (S (read st))) st) done cur out)
      as (st1 & He & Hrep1 & Hrd & Hwr & Hlen);
      [locals_simpl; lia|exact Hrep|].
    rewrite He. locals_simpl.
    specialize (IH st1 done _ _ ltac:(unfold bounded; lia) Hrep1 ltac:(lia)).
    rewrite Hrd in IH. exact IH. }
  apply Byte.eqb_false in Eb. rewrite single_byte_other by assumption.
  destruct (emit_represents (nth (read st) line x00)
              (set_read (S (read st)) st) done cur out)
    as (st1 & He & Hrep1 & Hrd & Hwr & Hlen);
    [locals_simpl; lia|exact Hrep|].
  rewrite He. locals_simpl.
  specialize (IH st1 done _ _ ltac:(unfold bounded; lia) Hrep1 ltac:(lia)).
  rewrite Hrd in IH. exact IH.
Qed.

(** [parse_line] on a line of one-byte glyphs. *)
Lemma parse_fields_decode enc line m_row :
  enc <> GB18030 -> Forall ascii line ->
  match decode [] (Some []) [] line with
  | Ret (vs, o) =>
      exists st', parse_fields enc line m_row = Next st'
        /\ map (view_bytes (row st')) (fields st') = vs
        /\ take (write st') (row st') = o
        /\ length (row st') = length line + 1
  | Throw e => exists st', parse_fields enc line m_row = Raised e st'
  end.
Proof.
  intros Henc Hascii.
  set (st := Locals (resize (length line + 1) x00 m_row) [] 0 0 (Some 0)).
  assert (Hb : bounded (length line) st).
  { unfold bounded. cbn. rewrite length_resize. lia. }
  assert (Hrep : represents st [] (Some []) []).
  { unfold represents, open_field. cbn. repeat split; auto.
    exists 0. repeat split; auto. }
  pose proof (parse_loop_decode enc line Henc Hascii (length line) st
                [] (Some []) [] Hb Hrep ltac:(lia)) as H.
  change (drop (read st) line) with line in H.
  unfold parse_fields. fold st.
  destruct (decode [] (Some []) [] line) as [[vs o]|e].
  - exact H.
  - destruct H as (st' & ->). eexists. reflexivity.
Qed.

End ParseFacts.

(** * Properties of the format: runs and the list decoder *)

Module CopyTextFacts.

Import CopyText.

Lemma eqb_refl (c : byte) : Byte.eqb c c = true.
Proof. apply Byte.byte_dec_lb. reflexivity. Qed.

Lemma eqb_neq (c d : byte) : c <> d -> Byte.eqb c d = false.
Proof.
  intros H. destruct (Byte.eqb c d) eqn:E; [|reflexivity].
  apply Byte.byte_dec_bl in E. contradiction.
Qed.

(** Induction on the length of a line: an escape takes two bytes. *)
Lemma length_ind (P : list byte -> Prop) :
  (forall l, (forall l', length l' < length l -> P l') -> P l) ->
  forall l, P l.
Proof.
  intros H l. remember (length l) as n eqn:E. revert l E.
  induction n as [n IH] using lt_wf_ind. intros l ->.
  apply H. intros l' Hl'. eapply IH; [exact Hl'|reflexivity].
Qed.

Ltac shorter := cbn [length]; lia.

Lemma split_runs_cons l : exists r rs, split_runs l = r :: rs.
Proof.
  induction l as [l IH] using length_ind.
  destruct l as [|c t]; [cbn; eauto|].
  cbn [split_runs]. destruct (Byte.eqb c tab); [eauto|].
  destruct (Byte.eqb c backslash).
  - destruct t as [|c' t']; [eauto|].
    destruct (IH t') as (r & rs & ->); [shorter|]. cbn. eauto.
  - destruct (IH t) as (r & rs & ->); [shorter|]. cbn. eauto.
Qed.

Lemma merge_nil cur : merge cur [] = cur.
Proof. destruct cur as [bs|]; cbn; [rewrite app_nil_r|]; reflexivity. Qed.

Lemma null_run_plain c r : c <> backslash -> null_run (c :: r) = false.
Proof.
  intros Hc. destruct r as [|c' r]; cbn; [reflexivity|].
  rewrite (eqb_neq _ _ Hc). reflexivity.
Qed.

Lemma null_run_escape c r : c <> letter_N -> null_run (backslash :: c :: r) = false.
Proof.
  intros Hc. cbn [null_run]. rewrite (eqb_neq _ _ Hc). apply andb_false_r.
Qed.

(** A successful [decode] computes, run by run, what the format says. *)
Lemma decode_runs : forall l done cur out vs o,
  decode done cur out l = Ret (vs, o) ->
  exists r rs,
    split_runs l = r :: rs
    /\ (null_run r = true -> cur = Some [])
    /\ vs = done ++ merge cur r :: map field_of_run rs
    /\ o = out ++ unescape r ++ terminator (merge cur r)
              ++ concat (map stored rs).
Proof.
  induction l as [l IH] using length_ind. intros done cur out vs o H.
  destruct l as [|c t].
  { cbn in H. injection H as <- <-. exists [], []. cbn.
    rewrite merge_nil, app_nil_r. repeat split; auto. discriminate. }
  cbn [decode split_runs] in *.
  destruct (Byte.eqb c tab) eqn:Et.
  { apply IH in H; [|shorter].
    destruct H as (r & rs & Hs & _ & -> & ->). rewrite Hs.
    exists [], (r :: rs). rewrite merge_nil. cbn [map concat unescape app].
    repeat split; [discriminate| |].
    - rewrite <- app_assoc. reflexivity.
    - unfold stored, field_of_run, merge. cbn [app].
      destruct (null_run r); rewrite <- !app_assoc; reflexivity. }
  apply Byte.eqb_false in Et.
  destruct (Byte.eqb c backslash) eqn:Eb.
  { apply Byte.byte_dec_bl in Eb. subst c.
    destruct t as [|c' t']; [discriminate|].
    destruct (Byte.eqb c' letter_N) eqn:En.
    - apply Byte.byte_dec_bl in En. subst c'.
      destruct cur as [[|b bs]|]; try discriminate.
      apply IH in H; [|shorter].
      destruct H as (r & rs & Hs & _ & -> & ->). rewrite Hs.
      exists (backslash :: letter_N :: r), rs. cbn [add_head app].
      repeat split; auto.
    - apply Byte.eqb_false in En.
      apply IH in H; [|shorter].
      destruct H as (r & rs & Hs & Hnull & -> & ->). rewrite Hs.
      exists (backslash :: c' :: r), rs. cbn [add_head app].
      rewrite (null_run_escape c' r En).
      assert (Hu : unescape (backslash :: c' :: r) = control c' :: unescape r).
      { cbn [unescape]. rewrite eqb_refl, (eqb_neq _ _ En). reflexivity. }
      rewrite Hu.
      assert (Hm : merge (option_map (fun bs => bs ++ [control c']) cur) r
                   = merge cur (backslash :: c' :: r)).
      { unfold merge. rewrite (null_run_escape c' r En), Hu.
        destruct cur as [bs|]; cbn [option_map]; [|reflexivity].
        destruct (null_run r) eqn:Hr.
        - specialize (Hnull eq_refl). injection Hnull as Hnull.
          destruct bs; discriminate.
        - rewrite <- app_assoc. reflexivity. }
      rewrite Hm. repeat split; [discriminate|].
      rewrite <- !app_assoc. reflexivity. }
  apply Byte.eqb_false in Eb.
  apply IH in H; [|shorter].
  destruct H as (r & rs & Hs & Hnull & -> & ->). rewrite Hs.
  exists (c :: r), rs. cbn [add_head app].
  rewrite (null_run_plain c r Eb).
  assert (Hu : unescape (c :: r) = c :: unescape r).
  { cbn [unescape]. rewrite (eqb_neq _ _ Eb). reflexivity. }
  rewrite Hu.
  assert (Hm : merge (option_map (fun bs => bs ++ [c]) cur) r
               = merge cur (c :: r)).
  { unfold merge. rewrite (null_run_plain c r Eb), Hu.
    destruct cur as [bs|]; cbn [option_map]; [|reflexivity].
    destruct (null_run r) eqn:Hr.
    - specialize (Hnull eq_refl). injection Hnull as Hnull.
      destruct bs; discriminate.
    - rewrite <- app_assoc. reflexivity. }
  rewrite Hm. repeat split; [discriminate|].
  rewrite <- !app_assoc. reflexivity.
Qed.

Lemma clean_escape c r :
  c <> letter_N -> clean (backslash :: c :: r) = clean r.
Proof.
  intros Hc. unfold clean. cbn [dangling has_null_marker].
  rewrite eqb_refl, (eqb_neq _ _ Hc). reflexivity.
Qed.

Lemma clean_plain c r : c <> backslash -> clean (c :: r) = clean r.
Proof.
  intros Hc. unfold clean. cbn [dangling has_null_marker].
  rewrite (eqb_neq _ _ Hc). reflexivity.
Qed.

Lemma clean_null_marker r : clean (backslash :: letter_N :: r) = false.
Proof.
  unfold clean. cbn [dangling has_null_marker].
  rewrite !eqb_refl. cbn. apply andb_false_r.
Qed.

Lemma acceptable_first r :
  acceptable_run r = true ->
  clean r = true
  \/ (null_run r = true /\ clean (drop 2 r) = true).
Proof.
  unfold acceptable_run. fold (clean (if null_run r then drop 2 r else r)).
  destruct (null_run r); auto.
Qed.

(** [decode] succeeds on a line whose first run continues the open field
    properly and whose other runs are acceptable. *)
Lemma decode_well_formed : forall l done cur out r rs,
  split_runs l = r :: rs ->
  clean r = true
  \/ (cur = Some [] /\ null_run r = true /\ clean (drop 2 r) = true) ->
  forallb acceptable_run rs = true ->
  exists res, decode done cur out l = Ret res.
Proof.
  induction l as [l IH] using length_ind. intros done cur out r rs Hs Hr Hrs.
  destruct l as [|c t]; [cbn; eauto|].
  cbn [decode split_runs] in *.
  destruct (Byte.eqb c tab) eqn:Et.
  { injection Hs as <- <-.
    destruct (split_runs_cons t) as (r' & rs' & Hs'). rewrite Hs' in Hrs.
    cbn [forallb] in Hrs. apply andb_true_iff in Hrs. destruct Hrs as [Hr' Hrs'].
    apply (IH t ltac:(shorter) _ _ _ r' rs' Hs'); [|exact Hrs'].
    destruct (acceptable_first r' Hr') as [?|[? ?]]; auto. }
  apply Byte.eqb_false in Et.
  destruct (Byte.eqb c backslash) eqn:Eb.
  { apply Byte.byte_dec_bl in Eb. subst c.
    destruct t as [|c' t'].
    { injection Hs as <- <-. destruct Hr as [Hr|(_ & Hr & _)]; discriminate. }
    destruct (split_runs_cons t') as (r' & rs' & Hs'). rewrite Hs' in Hs.
    cbn [add_head app] in Hs. injection Hs as <- <-.
    destruct (Byte.eqb c' letter_N) eqn:En.
    - apply Byte.byte_dec_bl in En. subst c'.
      rewrite clean_null_marker in Hr.
      destruct Hr as [Hr|(-> & _ & Hr)]; [discriminate|].
      cbn [drop] in Hr.
      apply (IH t' ltac:(shorter) _ _ _ r' rs' Hs'); auto.
    - apply Byte.eqb_false in En.
      rewrite (clean_escape c' r' En), (null_run_escape c' r' En) in Hr.
      destruct Hr as [Hr|(_ & Hr & _)]; [|discriminate].
      apply (IH t' ltac:(shorter) _ _ _ r' rs' Hs'); auto. }
  apply Byte.eqb_false in Eb.
  destruct (split_runs_cons t) as (r' & rs' & Hs'). rewrite Hs' in Hs.
  cbn [add_head app] in Hs. injection Hs as <- <-.
  rewrite (clean_plain c r' Eb), (null_run_plain c r' Eb) in Hr.
  destruct Hr as [Hr|(_ & Hr & _)]; [|discriminate].
  apply (IH t ltac:(shorter) _ _ _ r' rs' Hs'); auto.
Qed.

(** [decode] fails with a protocol error on a line that ends inside an
    escape. *)
Lemma decode_dangling : forall l done cur out,
  dangling l = true ->
  exists what, decode done cur out l = Throw (failure what).
Proof.
  induction l as [l IH] using length_ind. intros done cur out H.
  destruct l as [|c t]; [discriminate|].
  cbn [decode dangling] in *.
  destruct (Byte.eqb c tab) eqn:Et.
  { apply Byte.byte_dec_bl in Et. subst c.
    change (Byte.eqb tab backslash) with false in H. cbn iota in H.
    apply IH; [shorter|exact H]. }
  destruct (Byte.eqb c backslash).
  - destruct t as [|c' t']; [eauto|].
    destruct (Byte.eqb c' letter_N).
    + destruct cur as [[|b bs]|]; eauto. apply IH; [shorter|exact H].
    + apply IH; [shorter|exact H].
  - apply IH; [shorter|exact H].
Qed.

(** Lines without backslash. *)
Lemma plain_run r :
  Forall (fun c => c <> backslash) r ->
  null_run r = false /\ unescape r = r /\ clean r = true.
Proof.
  intros H. induction H as [|c r Hc _ (Hn & Hu & Hcl)]; [auto|].
  rewrite (null_run_plain c r Hc), (clean_plain c r Hc).
  cbn [unescape]. rewrite (eqb_neq _ _ Hc), Hu. auto.
Qed.

Lemma plain_line l :
  Forall (fun c => c <> backslash) l ->
  split_runs l = split_on_tab l
  /\ Forall (Forall (fun c => c <> backslash)) (split_on_tab l).
Proof.
  intros H. induction H as [|c t Hc Ht (Hs & Hall)].
  { cbn. split; [reflexivity|]. repeat constructor. }
  cbn [split_runs split_on_tab]. rewrite (eqb_neq _ _ Hc).
  destruct (Byte.eqb c tab).
  - rewrite Hs. split; [reflexivity|]. constructor; [constructor|exact Hall].
  - rewrite Hs. split; [reflexivity|].
    destruct (split_on_tab t) as [|r rs]; cbn [add_head app].
    + repeat constructor. exact Hc.
    + inversion Hall; subst. constructor; [constructor|]; assumption.
Qed.

Lemma plain_fields l :
  Forall (fun c => c <> backslash) l ->
  well_formed l = true
  /\ map field_of_run (split_runs l) = map Some (split_on_tab l).
Proof.
  intros H. destruct (plain_line l H) as [Hs Hall]. unfold well_formed.
  rewrite Hs. clear Hs H.
  induction Hall as [|r rs Hr _ [IH1 IH2]]; [auto|].
  destruct (plain_run r Hr) as (Hn & Hu & Hc).
  cbn [forallb map]. rewrite IH1, IH2.
  unfold acceptable_run, field_of_run. rewrite Hn. fold (clean r).
  rewrite Hc, Hu. auto.
Qed.

Lemma clean_not_null r : clean r = true -> null_run r = false.
Proof.
  intros Hc. destruct r as [|c [|c' r]]; try reflexivity.
  cbn [null_run]. destruct (Byte.eqb c backslash) eqn:Ec; [|reflexivity].
  destruct (Byte.eqb c' letter_N) eqn:En; [|reflexivity].
  apply Byte.byte_dec_bl in Ec, En. subst.
  rewrite clean_null_marker in Hc. discriminate.
Qed.

Lemma first_acceptable r :
  clean r = true \/ (null_run r = true /\ clean (drop 2 r) = true) ->
  acceptable_run r = true.
Proof.
  unfold acceptable_run. fold (clean (if null_run r then drop 2 r else r)).
  intros [Hc|[Hn Hc]].
  - rewrite (clean_not_null r Hc). exact Hc.
  - rewrite Hn. exact Hc.
Qed.

(** A successful [decode] was given acceptable runs. *)
Lemma decode_ret_well_formed : forall l done cur out res,
  decode done cur out l = Ret res ->
  exists r rs,
    split_runs l = r :: rs
    /\ (clean r = true
        \/ (cur = Some [] /\ null_run r = true /\ clean (drop 2 r) = true))
    /\ forallb acceptable_run rs = true.
Proof.
  induction l as [l IH] using length_ind. intros done cur out res H.
  destruct l as [|c t].
  { exists [], []. cbn. auto. }
  cbn [decode split_runs] in *.
  destruct (Byte.eqb c tab) eqn:Et.
  { apply IH in H; [|shorter].
    destruct H as (r & rs & Hs & Hr & Hrs). rewrite Hs.
    exists [], (r :: rs). repeat split; [left; reflexivity|].
    cbn [forallb]. rewrite Hrs, first_acceptable; [reflexivity|].
    destruct Hr as [?|(_ & ? & ?)]; auto. }
  apply Byte.eqb_false in Et.
  destruct (Byte.eqb c backslash) eqn:Eb.
  { apply Byte.byte_dec_bl in Eb. subst c.
    destruct t as [|c' t']; [discriminate|].
    destruct (Byte.eqb c' letter_N) eqn:En.
    - apply Byte.byte_dec_bl in En. subst c'.
      destruct cur as [[|b bs]|]; try discriminate.
      apply IH in H; [|shorter].
      destruct H as (r & rs & Hs & Hr & Hrs). rewrite Hs.
      exists (backslash :: letter_N :: r), rs. cbn [add_head app].
      repeat split; [|exact Hrs]. right. repeat split.
      destruct Hr as [Hr|(Hcur & _)]; [exact Hr|discriminate].
    - apply Byte.eqb_false in En.
      apply IH in H; [|shorter].
      destruct H as (r & rs & Hs & Hr & Hrs). rewrite Hs.
      exists (backslash :: c' :: r), rs. cbn [add_head app].
      repeat split; [|exact Hrs]. left. rewrite (clean_escape c' r En).
      destruct Hr as [Hr|(Hcur & _)]; [exact Hr|].
      destruct cur as [bs|]; [|discriminate].
      cbn in Hcur. injection Hcur as Hcur. destruct bs; discriminate. }
  apply Byte.eqb_false in Eb.
  apply IH in H; [|shorter].
  destruct H as (r & rs & Hs & Hr & Hrs). rewrite Hs.
  exists (c :: r), rs. cbn [add_head app].
  repeat split; [|exact Hrs]. left. rewrite (clean_plain c r Eb).
  destruct Hr as [Hr|(Hcur & _)]; [exact Hr|].
  destruct cur as [bs|]; [|discriminate].
  cbn in Hcur. injection Hcur as Hcur. destruct bs; discriminate.
Qed.

(** What [decode] throws is a protocol error. *)
Lemma decode_throws_failure : forall l done cur out e,
  decode done cur out l = Throw e -> exists what, e = failure what.
Proof.
  induction l as [l IH] using length_ind. intros done cur out e H.
  destruct l as [|c t]; [discriminate|].
  cbn [decode] in H.
  destruct (Byte.eqb c tab); [apply IH in H; [exact H|shorter]|].
  destruct (Byte.eqb c backslash).
  - destruct t as [|c' t']; [injection H as <-; eauto|].
    destruct (Byte.eqb c' letter_N).
    + destruct cur as [[|b bs]|];
        try (injection H as <-; eauto); apply IH in H; [exact H|shorter].
    + apply IH in H; [exact H|shorter].
  - apply IH in H; [exact H|shorter].
Qed.

Lemma line_result r rs :
  ([] ++ merge (Some []) r :: map field_of_run rs,
   [] ++ unescape r ++ terminator (merge (Some []) r)
      ++ concat (map stored rs))
  = (map field_of_run (r :: rs), concat (map stored (r :: rs))).
Proof.
  cbn [map concat app]. change (merge (Some []) r) with (field_of_run r).
  unfold stored at 2. rewrite <- app_assoc. reflexivity.
Qed.

(** [decode] on a whole line. *)
Lemma decode_line l :
  well_formed l = true ->
  decode [] (Some []) [] l
  = Ret (map field_of_run (split_runs l), concat (map stored (split_runs l))).
Proof.
  intros Hwf. unfold well_formed in Hwf.
  destruct (split_runs_cons l) as (r & rs & Hs). rewrite Hs in Hwf.
  cbn [forallb] in Hwf. apply andb_true_iff in Hwf. destruct Hwf as [Hr Hrs].
  destruct (decode_well_formed l [] (Some []) [] r rs Hs) as ([vs o] & Hd);
    [destruct (acceptable_first r Hr) as [?|[? ?]]; auto|exact Hrs|].
  rewrite Hd. destruct (decode_runs _ _ _ _ _ _ Hd) as (r' & rs' & Hs' & _ & -> & ->).
  rewrite Hs'. rewrite line_result. reflexivity.
Qed.

(** On a line that is not well formed [decode] throws a protocol
    error. *)
Lemma decode_line_ill_formed l :
  well_formed l = false ->
  exists what, decode [] (Some []) [] l = Throw (failure what).
Proof.
  intros Hwf. destruct (decode [] (Some []) [] l) as [res|e] eqn:Hd.
  - apply decode_ret_well_formed in Hd.
    destruct Hd as (r & rs & Hs & Hr & Hrs).
    unfold well_formed in Hwf. rewrite Hs in Hwf. cbn [forallb] in Hwf.
    rewrite Hrs, first_acceptable in Hwf; [discriminate|].
    destruct Hr as [?|(_ & ? & ?)]; auto.
  - destruct (decode_throws_failure _ _ _ _ _ Hd) as [what ->]. eauto.
Qed.

Lemma dangling_ill_formed l : dangling l = true -> well_formed l = false.
Proof.
  intros Hd. destruct (well_formed l) eqn:Hwf; [|reflexivity].
  destruct (decode_dangling l [] (Some []) [] Hd) as [what Ht].
  rewrite (decode_line l Hwf) in Ht. discriminate.
Qed.

End CopyTextFacts.

(** * Properties of the stream *)

Module StreamFacts.

Import Encodings StreamFrom CopyText Calls Invariants.
Import ParseFacts CopyTextFacts.

(** [read_row] on a usable stream whose connection delivers a line. *)
Lemma read_row_delivers s line :
  delivers s line ->
  read_row s
  = match parse_fields (m_glyph_scanner s) line (m_row s) with
    | Next st => (after s st, Returns (Some (fields st)))
    | Raised e st => (after s st, Throws e)
    | OutOfBounds st => (after s st, Undefined)
    | Stuck st => (after s st, Hangs)
    end.
Proof.
  intros [Hfin Hsrc]. destruct s as [enc fin m_row0 m_fields0 src n u p].
  cbn in Hfin, Hsrc. subst fin. destruct src as [|ev rest]; [discriminate|].
  injection Hsrc as ->.
  unfold read_row, parse_line, get_raw_line, operator_bool, read_copy_line,
    clear_fields, after, set_parsed.
  cbn [m_finished m_glyph_scanner m_row m_fields source pulls unregistered
       pending_errors negb default from_option id tail].
  destruct (parse_fields enc line m_row0); reflexivity.
Qed.

Lemma take_length_take (l : list byte) w :
  take (length (take w l)) l = take w l.
Proof.
  rewrite length_take. destruct (Nat.le_gt_cases w (length l)).
  - rewrite Nat.min_l by lia. reflexivity.
  - rewrite Nat.min_r by lia. rewrite !take_ge by lia. reflexivity.
Qed.

(** [read_row] on a line of bytes below 0x80, in a group that takes each
    for a glyph: it computes [decode]. *)
Lemma read_row_ascii s line :
  m_glyph_scanner s <> GB18030 -> Forall ascii line -> delivers s line ->
  match decode [] (Some []) [] line with
  | Ret (vs, o) =>
      exists s' row,
        read_row s = (s', Returns (Some row))
        /\ row_values s' row = vs
        /\ take (length o) (m_row s') = o
  | Throw e => exists s', read_row s = (s', Throws e)
  end.
Proof.
  intros Henc Hascii Hd. rewrite (read_row_delivers s line Hd).
  pose proof (parse_fields_decode (m_glyph_scanner s) line (m_row s)
                Henc Hascii) as H.
  destruct (decode [] (Some []) [] line) as [[vs o]|e].
  - destruct H as (st & -> & Hvs & Ho & _).
    exists (after s st), (fields st). repeat split; [exact Hvs|].
    cbn [after m_row]. rewrite <- Ho. apply take_length_take.
  - destruct H as (st & ->). eauto.
Qed.

Ltac ascii_line := repeat constructor; reflexivity.

(** [read_row] on a line of bytes below 0x80, by the runs of the line. *)
Lemma read_row_well_formed s line :
  m_glyph_scanner s <> GB18030 -> Forall ascii line -> delivers s line ->
  well_formed line = true ->
  exists s' row,
    read_row s = (s', Returns (Some row))
    /\ row_values s' row = map field_of_run (split_runs line)
    /\ take (length (concat (map stored (split_runs line)))) (m_row s')
       = concat (map stored (split_runs line)).
Proof.
  intros Henc Hascii Hd Hwf.
  pose proof (read_row_ascii s line Henc Hascii Hd) as H.
  rewrite (decode_line line Hwf) in H. exact H.
Qed.

Lemma read_row_ill_formed s line :
  m_glyph_scanner s <> GB18030 -> Forall ascii line -> delivers s line ->
  well_formed line = false ->
  protocol_error (read_row s) /\ row_of (read_row s) = None.
Proof.
  intros Henc Hascii Hd Hwf.
  pose proof (read_row_ascii s line Henc Hascii Hd) as H.
  destruct (decode_line_ill_formed line Hwf) as [what Hdec].
  rewrite Hdec in H. destruct H as (s' & ->).
  split; [exists what|]; reflexivity.
Qed.

(** A line of bytes below 0x80 that ends inside an escape: [read_row]
    throws a protocol error and hands out no row. *)
Lemma read_row_dangling s line :
  m_glyph_scanner s <> GB18030 -> Forall ascii line -> delivers s line ->
  dangling line = true ->
  protocol_error (read_row s) /\ row_of (read_row s) = None.
Proof.
  intros Henc Hascii Hd Hdang.
  apply (read_row_ill_formed s line Henc Hascii Hd).
  apply dangling_ill_formed. exact Hdang.
Qed.

(** C5, as amended.  A line of bytes below 0x80, read in any group but
    GB18030 (which this statement leaves out).  If every run between
    unescaped tabs is acceptable (no null marker except at its start, no
    lone backslash at its end), [read_row] hands out a row with one field
    per run, in order: null where the run starts with the null marker, else
    the unescaped bytes of the run.  If some run is not acceptable,
    [read_row] throws a protocol error and hands out no row.  A line
    without backslash is always read, its fields are the runs between its
    tabs as they are, none null. *)
Theorem read_row_fields_are_runs s line :
  m_glyph_scanner s <> GB18030 -> Forall ascii line -> delivers s line ->
  (well_formed line = true ->
     row_of (read_row s) = Some (map field_of_run (split_runs line)))
  /\ (well_formed line = false ->
      protocol_error (read_row s) /\ row_of (read_row s) = None)
  /\ (Forall (fun c => c <> backslash) line ->
      row_of (read_row s) = Some (map Some (split_on_tab line))).
Proof.
  intros Henc Hascii Hd.
  assert (Hwell : well_formed line = true ->
            row_of (read_row s) = Some (map field_of_run (split_runs line))).
  { intros Hwf.
    destruct (read_row_well_formed s line Henc Hascii Hd Hwf)
      as (s' & row & -> & Hvs & _).
    cbn [row_of]. rewrite Hvs. reflexivity. }
  split; [exact Hwell|split].
  - apply read_row_ill_formed; assumption.
  - intros Hplain. destruct (plain_fields line Hplain) as [Hwf <-].
    apply Hwell. exact Hwf.
Qed.

(** The line a TAB b TAB c, read in UTF8: three fields a, b, c, none
    null. *)
Lemma read_row_fields_are_runs_witness :
  row_of (read_row (open UTF8 [copy_line [x61; x09; x62; x09; x63]]))
  = Some [Some [x61]; Some [x62]; Some [x63]].
Proof.
  apply (read_row_fields_are_runs (open UTF8 [copy_line [x61; x09; x62; x09; x63]])
           [x61; x09; x62; x09; x63]).
  - discriminate.
  - ascii_line.
  - split; reflexivity.
  - repeat constructor; discriminate.
Defined.

(** C5 as stated fails: the line that is one backslash consists of bytes
    below 0x80 and is one run, yet [read_row] hands out no row but throws;
    and the line backslash N c is one run whose unescaped bytes are c, yet
    its field is null. *)
Lemma read_row_not_every_ascii_line_splits :
  Forall ascii [x5c]
  /\ split_runs [x5c] = [[x5c]]
  /\ read_row (open MONOBYTE [copy_line [x5c]])
     = (Stream MONOBYTE false [x00; x00] [] [] 1 0 [],
        Throws (failure "Row ends in backslash"))
  /\ Forall ascii [x5c; x4e; x63]
  /\ map unescape (split_runs [x5c; x4e; x63]) = [[x63]]
  /\ row_of (read_row (open MONOBYTE [copy_line [x5c; x4e; x63]]))
     = Some [None].
Proof. repeat split; try ascii_line; reflexivity. Qed.

(** C8.  For a line of [L] bytes, in every encoding group and whatever the
    row buffer held: the buffer is resized to [L + 1] bytes; [parse_line]
    ends by falling through or by an exception, never by a write outside
    the buffer and never by stalling; and when it ends the buffer still has
    [L + 1] bytes and [write], which started at 0 and moved on by one with
    every byte written, is at most [L + 1].  So [parse_line] itself never
    ends undefined or hanging. *)
Theorem parse_line_writes_within_row :
  (forall enc line m_row,
     length (resize (length line + 1) x00 m_row) = length line + 1
     /\ match parse_fields enc line m_row with
        | Next st | Raised _ st =>
            length (row st) = length line + 1 /\ write st <= length line + 1
        | OutOfBounds _ | Stuck _ => False
        end)
  /\ (forall s, snd (parse_line s) <> Undefined /\ snd (parse_line s) <> Hangs).
Proof.
  assert (H : forall enc line m_row,
    match parse_fields enc line m_row with
    | Next st | Raised _ st =>
        length (row st) = length line + 1 /\ write st <= length line + 1
    | OutOfBounds _ | Stuck _ => False
    end) by exact parse_fields_within_buffer.
  split.
  - intros enc line m_row. split; [apply length_resize|apply H].
  - intros s. unfold parse_line. destruct (m_finished s); [split; discriminate|].
    destruct (get_raw_line (clear_fields s)) as [s1 [line|e]];
      [|split; discriminate].
    specialize (H (m_glyph_scanner s1) (default [] line) (m_row s1)).
    destruct (parse_fields _ _ _); cbn [snd];
      solve [split; discriminate | contradiction].
Qed.

(** ** The finished flag *)

Lemma read_row_finished s :
  m_finished s = true -> read_row s = (s, Returns None).
Proof.
  intros H. unfold read_row, parse_line. rewrite H. cbn. rewrite H. reflexivity.
Qed.

Lemma close_finished s : m_finished s = true -> close s = s.
Proof. intros H. unfold close. rewrite H. reflexivity. Qed.

Lemma complete_finished s :
  m_finished s = true -> complete s = (s, Returns tt).
Proof. intros H. unfold complete. rewrite H. reflexivity. Qed.

Lemma perform_finished c s :
  m_finished s = true -> perform c s = (s, idle_answer c).
Proof.
  intros H. destruct c; cbn [perform idle_answer].
  - rewrite (read_row_finished s H). reflexivity.
  - rewrite (close_finished s H). reflexivity.
  - rewrite (complete_finished s H). reflexivity.
Qed.

(** How a stream gets finished: by [close], by the end of the data, by an
    exception of the line source. *)
Lemma close_finishes s : m_finished (close s) = true.
Proof. unfold close. destruct (m_finished s) eqn:H; [exact H|reflexivity]. Qed.

Lemma parse_fields_nil enc m_row :
  exists st, parse_fields enc [] m_row = Next st.
Proof.
  unfold parse_fields, finish, end_field, emit. cbn. rewrite length_resize.
  cbn. eauto.
Qed.

Lemma end_of_data_finishes s :
  m_finished s = false ->
  head (source s) = None \/ head (source s) = Some copy_done ->
  exists s', read_row s = (s', Returns None) /\ m_finished s' = true
             /\ pulls s' = S (pulls s).
Proof.
  intros Hfin Hsrc. destruct s as [enc fin m_row0 m_fields0 src n u p].
  cbn in Hfin, Hsrc. subst fin.
  destruct src as [|[l| |e] rest]; cbn in Hsrc;
    try (destruct Hsrc; discriminate);
    unfold read_row, parse_line, get_raw_line, operator_bool, read_copy_line,
      clear_fields, close, set_parsed;
    cbn [m_finished m_glyph_scanner m_row m_fields source pulls unregistered
         pending_errors negb default from_option id];
    destruct (parse_fields_nil enc m_row0) as [st ->];
    cbn; eauto.
Qed.

Lemma source_exception_finishes s e :
  m_finished s = false ->
  head (source s) = Some (copy_throws e) ->
  exists s', read_row s = (s', Throws e) /\ m_finished s' = true.
Proof.
  intros Hfin Hsrc. destruct s as [enc fin m_row0 m_fields0 src n u p].
  cbn in Hfin, Hsrc. subst fin.
  destruct src as [|ev rest]; [discriminate|]. injection Hsrc as ->.
  cbn. eauto.
Qed.

Lemma perform_all_app cs1 cs2 s :
  perform_all (cs1 ++ cs2) s
  = (fst (perform_all cs2 (fst (perform_all cs1 s))),
     snd (perform_all cs1 s) ++ snd (perform_all cs2 (fst (perform_all cs1 s)))).
Proof.
  revert s. induction cs1 as [|c cs1 IH]; intros s; cbn [app perform_all].
  - cbn [fst snd app]. destruct (perform_all cs2 s). reflexivity.
  - destruct (perform c s) as [s1 a]. rewrite IH.
    destruct (perform_all cs1 s1) as [s2 answers]. reflexivity.
Qed.

Lemma perform_all_finished cs s :
  m_finished s = true -> perform_all cs s = (s, map idle_answer cs).
Proof.
  intros H. induction cs as [|c cs IH]; [reflexivity|].
  cbn [perform_all map]. rewrite (perform_finished c s H), IH. reflexivity.
Qed.

(** C9.  Take any calls [before] that leave the stream finished, and any
    calls [later].  The later calls leave the stream exactly as the earlier
    ones left it: it stays finished and nothing more is pulled from the
    line source; and each later call answers as on a finished stream,
    [read_row] with end of data. *)
Theorem finished_is_terminal before later s :
  m_finished (fst (perform_all before s)) = true ->
  perform_all (before ++ later) s
  = (fst (perform_all before s),
     snd (perform_all before s) ++ map idle_answer later).
Proof.
  intros H. rewrite perform_all_app.
  rewrite (perform_all_finished later _ H). reflexivity.
Qed.

(** A stream that delivers one line and then the end of the data: after
    two calls of [read_row] it is finished, two lines were pulled, and four
    more calls change nothing. *)
Lemma finished_is_terminal_witness :
  let s := open UTF8 [copy_line [x61]; copy_done] in
  let s' := fst (perform_all [call_read_row; call_read_row] s) in
  m_finished s' = true /\ pulls s' = 2
  /\ perform_all ([call_read_row; call_read_row]
                  ++ [call_read_row; call_close; call_complete; call_read_row])
                 s
     = (s', [answered_row [zview_at 0 1]; answered_end_of_data;
             answered_end_of_data; answered_nothing; answered_nothing;
             answered_end_of_data]).
Proof.
  cbv zeta. do 2 (split; [reflexivity|]).
  apply (finished_is_terminal [call_read_row; call_read_row]
           [call_read_row; call_close; call_complete; call_read_row]
           (open UTF8 [copy_line [x61]; copy_done])).
  reflexivity.
Defined.

(** ** The null marker *)

(** Once the open field is null, it stays null and no field is added
    until a tab closes it, with a null view and without a terminator; this
    in every group and for every kind of glyph. *)
Lemma null_field_stays_null enc line st :
  bounded (length line) st -> read st < length line ->
  field_begin st = None ->
  match iteration enc line st with
  | Next st' =>
      (fields st' = fields st /\ field_begin st' = None)
      \/ (nth (read st) line x00 = tab
          /\ fields st' = fields st ++ [zview_null]
          /\ write st' = write st /\ row st' = row st
          /\ field_begin st' = Some (write st))
  | Raised _ _ => True
  | OutOfBounds _ | Stuck _ => False
  end.
Proof.
  intros Hb Hlt Hnull.
  pose proof (iteration_bounded enc line st Hb Hlt) as Hsafe.
  destruct Hb as (Hrow & Hw & Hr). unfold iteration in *.
  destruct (outcome (next_seq enc line (length line) (read st)))
    as [[glyph_end|]|e] eqn:Hscan; [| |exact I].
  - apply ScannerFacts.next_seq_end in Hscan.
    destruct (Nat.eqb_spec glyph_end (read st + 1)) as [->|Hne].
    + destruct (Byte.byte_eq_dec (nth (read st) line x00) tab) as [Ht|Ht].
      { rewrite (single_byte_tab _ _ Ht). unfold end_field.
        cbn [set_read field_begin]. rewrite Hnull.
        right. cbn. auto. }
      destruct (Byte.byte_eq_dec (nth (read st) line x00) backslash)
        as [Hbs|Hbs].
      { rewrite (single_byte_backslash _ _ Hbs).
        destruct (Nat.leb_spec (length line) (S (read st))); [exact I|].
        destruct (Byte.byte_eq_dec (nth (S (read st)) line x00) letter_N)
          as [->|HN].
        - rewrite escape_N. cbn [set_read field_begin]. rewrite Hnull. exact I.
        - rewrite (escape_other _ _ HN). unfold emit.
          cbn [set_read row fields read write field_begin].
          destruct (Nat.ltb_spec (write st) (length (row st))); [|lia].
          left. cbn. auto. }
      rewrite (single_byte_other _ _ Ht Hbs). unfold emit.
      cbn [set_read row fields read write field_begin].
      destruct (Nat.ltb_spec (write st) (length (row st))); [|lia].
      left. cbn. auto.
    + destruct (copy_glyph_spec line (length line) (glyph_end - read st) st)
        as (st' & -> & _ & _ & _ & Hf & Hfb); try lia.
      left. rewrite Hf, Hfb. auto.
  - apply ScannerFacts.next_seq_npos in Hscan. lia.
Qed.

(** ** Escapes, wherever the loop meets them *)

Lemma arrives_bounded enc line m_row st :
  arrives enc line m_row st -> bounded (length line) st.
Proof.
  induction 1 as [|st st' _ IH Hlt Hit].
  - unfold bounded. cbn. rewrite length_resize. lia.
  - pose proof (iteration_bounded enc line st IH Hlt) as H.
    rewrite Hit in H. destruct H as [H _]. exact H.
Qed.

(** Fuel beyond the bytes left is never used. *)
Lemma parse_loop_fuel enc line : forall f1 f2 st,
  bounded (length line) st ->
  length line - read st <= f1 -> length line - read st <= f2 ->
  parse_loop enc line f1 st = parse_loop enc line f2 st.
Proof.
  induction f1 as [|f1 IH]; intros f2 st Hb H1 H2; destruct f2 as [|f2];
    cbn [parse_loop];
    destruct (Nat.leb_spec (length line) (read st));
    try reflexivity; try lia.
  pose proof (iteration_bounded enc line st Hb ltac:(lia)) as Hi.
  destruct (iteration enc line st); try reflexivity.
  destruct Hi as [Hb' Hr]. apply IH; [exact Hb'|lia|lia].
Qed.

Lemma arrives_parse_loop enc line m_row st :
  arrives enc line m_row st ->
  parse_loop enc line (length line)
    (Locals (resize (length line + 1) x00 m_row) [] 0 0 (Some 0))
  = parse_loop enc line (length line - read st) st.
Proof.
  induction 1 as [|st st' Harr IH Hlt Hit].
  - cbn [read]. rewrite Nat.sub_0_r. reflexivity.
  - rewrite IH. pose proof (arrives_bounded _ _ _ _ Harr) as Hb.
    pose proof (iteration_bounded enc line st Hb Hlt) as Hi.
    rewrite Hit in Hi. destruct Hi as [Hb' Hr].
    destruct (length line - read st) as [|k] eqn:Hk; [lia|].
    cbn [parse_loop].
    destruct (Nat.leb_spec (length line) (read st)); [lia|].
    rewrite Hit. apply parse_loop_fuel; [exact Hb'|lia|lia].
Qed.

(** An exception in an iteration the loop arrives at leaves [parse_line]
    and [read_row]. *)
Lemma arrives_raised enc line m_row st e st' :
  arrives enc line m_row st -> read st < length line ->
  iteration enc line st = Raised e st' ->
  parse_fields enc line m_row = Raised e st'.
Proof.
  intros Harr Hlt Hit. unfold parse_fields.
  rewrite (arrives_parse_loop enc line m_row st Harr).
  destruct (length line - read st) as [|k] eqn:Hk; [lia|].
  cbn [parse_loop]. destruct (Nat.leb_spec (length line) (read st)); [lia|].
  rewrite Hit. reflexivity.
Qed.

Lemma read_row_raised s line st e st' :
  delivers s line ->
  arrives (m_glyph_scanner s) line (m_row s) st -> read st < length line ->
  iteration (m_glyph_scanner s) line st = Raised e st' ->
  read_row s = (after s st', Throws e).
Proof.
  intros Hd Harr Hlt Hit. rewrite (read_row_delivers s line Hd).
  rewrite (arrives_raised _ _ _ _ _ _ Harr Hlt Hit). reflexivity.
Qed.

Lemma ascii_backslash : ascii backslash.
Proof. reflexivity. Qed.

(** C6, as amended.  In any group but GB18030 (which this statement leaves
    out), when the loop of [parse_line] arrives at a backslash:
    if the line ends right behind it, [read_row] throws the protocol error
    "Row ends in backslash" and hands out no row; if another byte than N
    follows, the byte that [control] gives for it (backspace, form feed,
    line feed, carriage return, tab, vertical tab for b, f, n, r, t, v, the
    byte itself otherwise) is written at [write] and both bytes are
    consumed, the open field and the closed ones staying as they are.
    The line a backslash t b gives the one field a TAB b. *)
Theorem backslash_starts_escape s line st :
  m_glyph_scanner s <> GB18030 -> delivers s line ->
  arrives (m_glyph_scanner s) line (m_row s) st ->
  read st < length line -> nth (read st) line x00 = backslash ->
  (S (read st) = length line ->
     snd (read_row s) = Throws (failure "Row ends in backslash")
     /\ row_of (read_row s) = None)
  /\ (S (read st) < length line ->
      nth (S (read st)) line x00 <> letter_N ->
      iteration (m_glyph_scanner s) line st
      = Next (Locals (<[write st := control (nth (S (read st)) line x00)]>
                        (row st))
                     (fields st) (S (S (read st))) (S (write st))
                     (field_begin st)))
  /\ row_of (read_row (open (m_glyph_scanner s)
                          [copy_line [x61; x5c; x74; x62]]))
     = Some [Some [x61; x09; x62]].
Proof.
  intros Henc Hd Harr Hlt Hbs.
  assert (Hit : iteration (m_glyph_scanner s) line st
                = if length line <=? S (read st) then
                    Raised (failure "Row ends in backslash")
                           (set_read (S (read st)) st)
                  else escape (nth (S (read st)) line x00)
                              (set_read (S (S (read st))) st)).
  { rewrite iteration_ascii; [|assumption|assumption|].
    - apply single_byte_backslash. exact Hbs.
    - rewrite Hbs. exact ascii_backslash. }
  split; [|split].
  - intros Hlast.
    destruct (Nat.leb_spec (length line) (S (read st))); [|lia].
    rewrite (read_row_raised s line st _ _ Hd Harr Hlt Hit). split; reflexivity.
  - intros Hmore Hc.
    destruct (Nat.leb_spec (length line) (S (read st))); [lia|].
    rewrite Hit, (escape_other _ _ Hc). unfold emit.
    destruct (arrives_bounded _ _ _ _ Harr) as (Hrow & Hw & Hr).
    cbn [set_read row fields read write field_begin].
    destruct (Nat.ltb_spec (write st) (length (row st))); [reflexivity|lia].
  - pose proof (read_row_ascii
      (open (m_glyph_scanner s) [copy_line [x61; x5c; x74; x62]])
      [x61; x5c; x74; x62] Henc ltac:(ascii_line)
      ltac:(split; reflexivity)) as H.
    change (decode [] (Some []) [] [x61; x5c; x74; x62])
      with (Ret ([Some [x61; x09; x62]], [x61; x09; x62; x00])) in H.
    destruct H as (s' & row & -> & Hvs & _). cbn [row_of]. rewrite Hvs.
    reflexivity.
Qed.

(** In UTF8: the line a backslash throws; in the line a backslash t b the
    escape puts a tab behind the a. *)
Lemma backslash_starts_escape_witness :
  snd (read_row (open UTF8 [copy_line [x61; x5c]]))
  = Throws (failure "Row ends in backslash")
  /\ iteration UTF8 [x61; x5c; x74; x62]
       (Locals [x61; x00; x00; x00; x00] [] 1 1 (Some 0))
     = Next (Locals [x61; x09; x00; x00; x00] [] 3 2 (Some 0)).
Proof.
  split.
  - destruct (backslash_starts_escape (open UTF8 [copy_line [x61; x5c]])
                [x61; x5c] (Locals [x61; x00; x00] [] 1 1 (Some 0)))
      as (Hlast & _ & _).
    + discriminate.
    + split; reflexivity.
    + apply (arrives_next _ _ _ (Locals [x00; x00; x00] [] 0 0 (Some 0)));
        [apply arrives_first|cbn; lia|reflexivity].
    + cbn; lia.
    + reflexivity.
    + apply Hlast. reflexivity.
  - destruct (backslash_starts_escape
                (open UTF8 [copy_line [x61; x5c; x74; x62]])
                [x61; x5c; x74; x62]
                (Locals [x61; x00; x00; x00; x00] [] 1 1 (Some 0)))
      as (_ & Hmore & _).
    + discriminate.
    + split; reflexivity.
    + apply (arrives_next _ _ _
               (Locals [x00; x00; x00; x00; x00] [] 0 0 (Some 0)));
        [apply arrives_first|cbn; lia|reflexivity].
    + cbn; lia.
    + reflexivity.
    + apply Hmore; [cbn; lia|discriminate].
Defined.

(** C6 as stated fails: the line of two backslashes ends in a backslash,
    and so does, read in BIG5, the line A1 5C; on both [read_row] hands out
    a row. *)
Lemma line_ending_in_backslash_can_parse :
  row_of (read_row (open MONOBYTE [copy_line [x5c; x5c]])) = Some [Some [x5c]]
  /\ row_of (read_row (open BIG5 [copy_line [xa1; x5c]]))
     = Some [Some [xa1; x5c]].
Proof. split; reflexivity. Qed.

(** In any group but GB18030, when the loop arrives at a backslash
    followed by N: if no byte was written since the field began, the field
    is marked null and both bytes are consumed; else [read_row] throws the
    protocol error "Null sequence found in nonempty field" and hands out no
    row. *)
Lemma null_marker_marks_field s line st :
  m_glyph_scanner s <> GB18030 -> delivers s line ->
  arrives (m_glyph_scanner s) line (m_row s) st ->
  S (read st) < length line ->
  nth (read st) line x00 = backslash ->
  nth (S (read st)) line x00 = letter_N ->
  (field_begin st = Some (write st) ->
     iteration (m_glyph_scanner s) line st
     = Next (Locals (row st) (fields st) (S (S (read st))) (write st) None))
  /\ (field_begin st <> Some (write st) ->
      snd (read_row s)
      = Throws (failure "Null sequence found in nonempty field")
      /\ row_of (read_row s) = None).
Proof.
  intros Henc Hd Harr Hlt Hbs HN.
  assert (Hit : iteration (m_glyph_scanner s) line st
                = escape letter_N (set_read (S (S (read st))) st)).
  { rewrite iteration_ascii; [|assumption|lia|].
    - rewrite (single_byte_backslash _ _ Hbs).
      destruct (Nat.leb_spec (length line) (S (read st))); [lia|].
      rewrite HN. reflexivity.
    - rewrite Hbs. exact ascii_backslash. }
  rewrite escape_N in Hit.
  cbn [set_read row fields read write field_begin] in Hit.
  split.
  - intros Hfb. rewrite Hit, Hfb, Nat.eqb_refl. reflexivity.
  - intros Hfb.
    assert (Hr : iteration (m_glyph_scanner s) line st
                 = Raised (failure "Null sequence found in nonempty field")
                          (set_read (S (S (read st))) st)).
    { rewrite Hit. destruct (field_begin st) as [fb|]; [|reflexivity].
      destruct (Nat.eqb_spec fb (write st)); [congruence|reflexivity]. }
    rewrite (read_row_raised s line st _ _ Hd Harr ltac:(lia) Hr).
    split; reflexivity.
Qed.

(** ** GB18030 *)

(** C7 (the code fails it for GB18030): read in GB18030, the line
    backslash N TAB a comes out as one field, not null, that holds the four
    bytes as they are, and the line a b backslash N c raises a decoding
    error at its last byte, not a protocol error.  Read in UTF8, the first
    gives a null field and the field a, the second the protocol error. *)
Theorem gb18030_null_marker_not_seen :
  row_of (read_row (open GB18030 [copy_line [x5c; x4e; x09; x61]]))
  = Some [Some [x5c; x4e; x09; x61]]
  /\ snd (read_row (open GB18030 [copy_line [x61; x62; x5c; x4e; x63]]))
     = Throws (argument_error "GB18030" 4 [0x63%N])
  /\ row_of (read_row (open UTF8 [copy_line [x5c; x4e; x09; x61]]))
     = Some [None; Some [x61]]
  /\ snd (read_row (open UTF8 [copy_line [x61; x62; x5c; x4e; x63]]))
     = Throws (failure "Null sequence found in nonempty field").
Proof. repeat split. Qed.

(** What the amended statements leave out: read in GB18030, the line
    a TAB b TAB c raises a decoding error, the line a backslash t b is
    handed out with its escape in it, and the line backslash N c TAB d
    gives no row. *)
Lemma gb18030_lines_misread :
  snd (read_row (open GB18030 [copy_line [x61; x09; x62; x09; x63]]))
  = Throws (argument_error "GB18030" 0 [0x61%N; 0x09%N; 0x62%N; 0x09%N])
  /\ row_of (read_row (open GB18030 [copy_line [x61; x5c; x74; x62]]))
     = Some [Some [x61; x5c; x74; x62]]
  /\ row_of (read_row (open GB18030 [copy_line [x5c; x4e; x63; x09; x64]]))
     = None.
Proof. repeat split. Qed.

End StreamFacts.

(** * Further properties of the glyph scanners *)

Module ScannerMore.

Import Encodings ScannerFacts EncodingNames.

#[local] Opaque throw_for_encoding_error.

Ltac bool_facts :=
  unfold between_inc in *;
  repeat match goal with
  | H : negb _ = true |- _ => apply negb_true_iff in H
  | H : negb _ = false |- _ => apply negb_false_iff in H
  | H : _ && _ = true |- _ => apply andb_true_iff in H; destruct H
  | H : _ || _ = false |- _ => apply orb_false_iff in H; destruct H
  | H : _ || _ = true |- _ => apply orb_true_iff in H; destruct H
  | H : _ && _ = false |- _ => apply andb_false_iff in H; destruct H
  | H : (_ <=? _)%N = true |- _ => apply N.leb_le in H
  | H : (_ <=? _)%N = false |- _ => apply N.leb_gt in H
  | H : (_ <? _)%N = true |- _ => apply N.ltb_lt in H
  | H : (_ <? _)%N = false |- _ => apply N.ltb_ge in H
  | H : (_ =? _)%N = true |- _ => apply N.eqb_eq in H
  | H : (_ =? _)%N = false |- _ => apply N.eqb_neq in H
  end.

(** X1.  A glyph that a scanner finds at [start] ends behind [start], within
    the buffer and at most four bytes on: a scan always advances, by one to
    four bytes. *)
Theorem next_seq_glyph_extent enc buffer buffer_len start glyph_end :
  outcome (next_seq enc buffer buffer_len start) = Ret (Some glyph_end) ->
  start < glyph_end /\ glyph_end <= buffer_len /\ glyph_end <= start + 4.
Proof.
  intros H. destruct enc; scan_cases; try discriminate;
    injection H as <-; lia.
Qed.

Lemma next_seq_glyph_extent_witness : 0 < 3 /\ 3 <= 3 /\ 3 <= 0 + 4.
Proof.
  apply (next_seq_glyph_extent UTF8 [xe4; xb8; xad] 3 0 3). reflexivity.
Defined.

(** X2.  A scanner reads only offsets from [start] to [start + 4], and none
    beyond [buffer_len]; every scanner but that of MULE_INTERNAL reads only
    offsets below [buffer_len]. *)
Theorem next_seq_reads_window enc buffer buffer_len start :
  Forall (fun i => start <= i <= start + 4 /\ i <= buffer_len)
         (reads (next_seq enc buffer buffer_len start))
  /\ (enc <> MULE_INTERNAL ->
      Forall (fun i => i < buffer_len)
             (reads (next_seq enc buffer buffer_len start))).
Proof.
  split.
  - destruct enc; scan_cases; reads_bound.
  - apply next_seq_reads_below.
Qed.

(** X3.  A scanner answers [npos] exactly when [start] is at or behind the
    end of the buffer, and then it has read no byte. *)
Theorem next_seq_npos_only_at_end enc buffer buffer_len start :
  (outcome (next_seq enc buffer buffer_len start) = Ret None
   <-> buffer_len <= start)
  /\ (buffer_len <= start -> reads (next_seq enc buffer buffer_len start) = []).
Proof.
  split; [split|].
  - apply next_seq_npos.
  - intros H. rewrite (next_seq_at_end _ _ _ _ H). reflexivity.
  - intros H. rewrite (next_seq_at_end _ _ _ _ H). reflexivity.
Qed.

(** X4.  In every group but GB18030 a byte below 0x80 is a glyph of its own,
    and the scanner reads no byte but that one. *)
Theorem next_seq_ascii_single_read enc buffer buffer_len start :
  enc <> GB18030 ->
  start < buffer_len ->
  (Byte.to_N (nth start buffer x00) < 0x80)%N ->
  outcome (next_seq enc buffer buffer_len start) = Ret (Some (start + 1))
  /\ Forall (fun i => i = start) (reads (next_seq enc buffer buffer_len start)).
Proof.
  intros Henc Hlt Hb. split; [apply next_seq_ascii; assumption|].
  apply N.ltb_lt in Hb.
  destruct enc; try congruence; unfold_scanners;
    destruct (Nat.leb_spec buffer_len start); try lia;
    scan_simpl; rewrite ?Hb; scan_simpl; repeat constructor.
Qed.

Lemma next_seq_ascii_single_read_witness :
  outcome (next_seq SJIS [x5c; x83] 2 0) = Ret (Some (0 + 1))
  /\ Forall (fun i => i = 0) (reads (next_seq SJIS [x5c; x83] 2 0)).
Proof.
  apply next_seq_ascii_single_read; [discriminate|lia|reflexivity].
Defined.

(** What a scanner throws: an [argument_error] for the offset scanned, with
    the one to four bytes of the buffer from there on. *)
Lemma next_seq_throws enc buffer buffer_len start e :
  outcome (next_seq enc buffer buffer_len start) = Throw e ->
  exists name count,
    e = argument_error name start
          (map (fun i => Byte.to_N (nth i buffer x00)) (seq start count))
    /\ 1 <= count <= 4 /\ start + count <= buffer_len.
Proof.
  intros H.
  destruct enc; scan_cases; try discriminate;
    match type of H with
    | Throw (argument_error ?n _ (map _ (seq _ ?c))) = Throw _ =>
        exists n, c; split;
        [injection H; intros Heq; exact (eq_sym Heq)|]
    end;
    repeat split; lia.
Qed.

Lemma next_seq_error_name enc buffer buffer_len start name at_byte bs :
  outcome (next_seq enc buffer buffer_len start)
  = Throw (argument_error name at_byte bs) ->
  name = if enc is EUC_TW then "EUC_KR" else group_name enc.
Proof.
  intros H.
  destruct enc;
    match type of H with
    | outcome (next_seq EUC_TW _ _ _) = _ =>
        exact (proj1 (next_seq_EUC_TW_error_name _ _ _ _ _ _ H))
    | outcome (next_seq ?g _ _ _) = _ =>
        exact (proj1 (next_seq_error_names_group g _ _ _ _ _ _
                        ltac:(discriminate) H))
    end.
Qed.

(** X5.  Whatever a scanner throws is an [argument_error] that carries the
    offset scanned and one to four bytes of the buffer from that offset on,
    all of them inside the buffer; it names the group of the scanner, but
    for EUC_TW, whose errors name EUC_KR. *)
Theorem next_seq_error_report enc buffer buffer_len start e :
  outcome (next_seq enc buffer buffer_len start) = Throw e ->
  exists count,
    e = argument_error (if enc is EUC_TW then "EUC_KR" else group_name enc)
          start
          (map (fun i => Byte.to_N (nth i buffer x00)) (seq start count))
    /\ 1 <= count <= 4 /\ start + count <= buffer_len.
Proof.
  intros H. destruct (next_seq_throws _ _ _ _ _ H) as (name & count & -> & Hc).
  exists count. split; [|exact Hc]. f_equal.
  exact (next_seq_error_name _ _ _ _ _ _ _ H).
Qed.

Lemma next_seq_error_report_witness :
  exists count,
    argument_error "UTF8" 0 [0xe4%N; 0xb8%N]
    = argument_error "UTF8" 0
        (map (fun i => Byte.to_N (nth i [xe4; xb8] x00)) (seq 0 count))
    /\ 1 <= count <= 4 /\ 0 + count <= 2.
Proof.
  apply (next_seq_error_report UTF8 [xe4; xb8] 2 0
           (argument_error "UTF8" 0 [0xe4%N; 0xb8%N])).
  reflexivity.
Defined.

(** X6.  In UTF8 and in the EUC groups every byte of a glyph of more than
    one byte is 0x80 or above: a tab, a backslash or any other ASCII byte is
    never part of such a glyph. *)
Theorem glyph_bytes_not_ascii enc buffer buffer_len start glyph_end i :
  In enc [UTF8; EUC_CN; EUC_JP; EUC_JIS_2004; EUC_KR; EUC_TW] ->
  outcome (next_seq enc buffer buffer_len start) = Ret (Some glyph_end) ->
  glyph_end <> start + 1 ->
  start <= i < glyph_end ->
  (0x80 <= Byte.to_N (nth i buffer x00))%N.
Proof.
  intros Henc H Hmulti Hi.
  assert (Hcase : forall k, i = start + k ->
            (k = 0 -> (0x80 <= Byte.to_N (nth start buffer x00))%N) ->
            (k = 1 -> (0x80 <= Byte.to_N (nth (start + 1) buffer x00))%N) ->
            (k = 2 -> (0x80 <= Byte.to_N (nth (start + 2) buffer x00))%N) ->
            (k = 3 -> (0x80 <= Byte.to_N (nth (start + 3) buffer x00))%N) ->
            k < 4 ->
            (0x80 <= Byte.to_N (nth i buffer x00))%N).
  { intros k -> H0 H1 H2 H3 Hk.
    destruct k as [|[|[|[|k]]]]; try lia;
      [rewrite Nat.add_0_r|..]; auto. }
  cbn [In] in Henc.
  destruct Henc as [<-|[<-|[<-|[<-|[<-|[<-|[]]]]]]];
    scan_cases; try discriminate; injection H as <-; try lia;
    bool_facts;
    apply (Hcase (i - start)); try lia; intros; lia.
Qed.

Lemma glyph_bytes_not_ascii_witness :
  (0x80 <= Byte.to_N (nth 2 [xe4; xb8; xad] x00))%N.
Proof.
  apply (glyph_bytes_not_ascii UTF8 [xe4; xb8; xad] 3 0 3 2);
    [left; reflexivity|reflexivity|discriminate|lia].
Defined.

(** X7.  In BIG5, GBK, SJIS, SHIFT_JIS_2004 and UHC a glyph of two bytes has
    a lead byte of 0x80 or above and a trailing byte of 0x40 or above: the
    trailing byte can be a backslash, but never a tab or a newline. *)
Theorem trailing_byte_never_control enc buffer buffer_len start :
  In enc [BIG5; GBK; SJIS; SHIFT_JIS_2004; UHC] ->
  outcome (next_seq enc buffer buffer_len start) = Ret (Some (start + 2)) ->
  (0x80 <= Byte.to_N (nth start buffer x00))%N
  /\ (0x40 <= Byte.to_N (nth (start + 1) buffer x00))%N.
Proof.
  intros Henc H. cbn [In] in Henc.
  destruct Henc as [<-|[<-|[<-|[<-|[<-|[]]]]]];
    scan_cases; try discriminate;
    try (assert (start + 1 = start + 2) by congruence; lia);
    bool_facts; lia.
Qed.

Lemma trailing_byte_never_control_witness :
  (0x80 <= Byte.to_N (nth 0 [x83; x5c] x00))%N
  /\ (0x40 <= Byte.to_N (nth (0 + 1) [x83; x5c] x00))%N.
Proof.
  apply (trailing_byte_never_control SJIS [x83; x5c] 2 0);
    [right; right; left; reflexivity|reflexivity].
Defined.

(** X8.  The name in the exception of a scanner is one [enc_group] knows: it
    resolves to the group of the scanner, but for EUC_TW, whose errors
    resolve to EUC_KR. *)
Theorem error_name_resolves enc buffer buffer_len start name at_byte bs :
  outcome (next_seq enc buffer buffer_len start)
  = Throw (argument_error name at_byte bs) ->
  enc_group name = inl (if enc is EUC_TW then EUC_KR else enc).
Proof.
  intros H.
  pose proof (next_seq_error_name _ _ _ _ _ _ _ H) as Hname.
  subst name. destruct enc; try reflexivity.
  exfalso. revert H. clear. scan_cases; discriminate.
Qed.

Lemma error_name_resolves_witness :
  enc_group "UTF8" = inl UTF8.
Proof.
  apply (error_name_resolves UTF8 [xe4; xb8] 2 0 "UTF8" 0 [0xe4%N; 0xb8%N]).
  reflexivity.
Defined.

End ScannerMore.

(** * Properties of enc_group *)

Module EncodingNameFacts.

Import Encodings EncodingNames.

Lemma encoding_rows_distinct : NoDup (encoding_rows.*1).
Proof.
  apply (bool_decide_unpack (NoDup (encoding_rows.*1))). vm_compute. exact I.
Qed.

(** X9.  [enc_group] answers with a group exactly for the names of the
    table, each with the group of its row: no row is hidden by another.
    Every other name is refused with a message that quotes it, and every
    group is the group of some name. *)
Theorem enc_group_follows_table :
  (forall name group,
     enc_group name = inl group <-> In (name, group) encoding_rows)
  /\ (forall name message,
        enc_group name = inr message ->
        message = String.append "unrecognized encoding '"
                    (String.append name "'")
        /\ forall group, ~ In (name, group) encoding_rows)
  /\ (forall group, exists name, enc_group name = inl group).
Proof.
  assert (Hrow : forall name group,
            encoding_map !! name = Some group <-> In (name, group) encoding_rows).
  { intros name group. rewrite <- list_elem_of_In. symmetry.
    apply elem_of_list_to_map. exact encoding_rows_distinct. }
  split; [|split].
  - intros name group. rewrite <- Hrow. unfold enc_group.
    destruct (encoding_map !! name) as [g|]; split; congruence.
  - intros name message. unfold enc_group.
    destruct (encoding_map !! name) as [g|] eqn:Hg; [discriminate|].
    intros [= <-]. split; [reflexivity|].
    intros group Hin. apply Hrow in Hin. congruence.
  - intros group.
    exists (match group with
            | MONOBYTE => "SQL_ASCII"
            | g => group_name g
            end).
    destruct group; reflexivity.
Qed.

End EncodingNameFacts.

(** * Further properties of the row decoder *)

Module ParseMore.

Import Encodings StreamFrom CopyText Invariants Layout.
Import ParseFacts.

(** A property of the locals that every iteration keeps is kept by the
    loop; [E] holds of what the iterations throw. *)
Lemma parse_loop_keeps enc line (I : locals -> Prop) (E : exn -> Prop) :
  (forall st, I st -> bounded (length line) st -> read st < length line ->
     match iteration enc line st with
     | Next st' => I st'
     | Raised e _ => E e
     | OutOfBounds _ | Stuck _ => True
     end) ->
  forall fuel st,
  I st -> bounded (length line) st -> length line - read st <= fuel ->
  match parse_loop enc line fuel st with
  | Next st' => I st' /\ bounded (length line) st' /\ read st' = length line
  | Raised e _ => E e
  | OutOfBounds _ | Stuck _ => False
  end.
Proof.
  intros Hstep. induction fuel as [|fuel IH]; intros st HI Hb Hfuel;
    cbn [parse_loop];
    destruct (Nat.leb_spec (length line) (read st)) as [Hend|Hlt];
    try (destruct Hb as (? & ? & ?); repeat split; auto; lia); try lia.
  pose proof (iteration_bounded enc line st Hb Hlt) as Hsafe.
  pose proof (Hstep st HI Hb Hlt) as Hi.
  destruct (iteration enc line st) as [st'| | |]; try exact Hi;
    try contradiction.
  destruct Hsafe as [Hb' Hrd]. apply IH; [exact Hi|exact Hb'|lia].
Qed.

(** The same for [parse_line] from the resizing on: [Q] holds of the locals
    at the end when closing the last field establishes it. *)
Lemma parse_fields_keeps enc line m_row (I Q : locals -> Prop)
    (E : exn -> Prop) :
  I (Locals (resize (length line + 1) x00 m_row) [] 0 0 (Some 0)) ->
  (forall st, I st -> bounded (length line) st -> read st < length line ->
     match iteration enc line st with
     | Next st' => I st'
     | Raised e _ => E e
     | OutOfBounds _ | Stuck _ => True
     end) ->
  (forall st st', I st -> bounded (length line) st ->
     read st = length line -> end_field st = Next st' -> Q st') ->
  match parse_fields enc line m_row with
  | Next st' => Q st'
  | Raised e _ => E e
  | OutOfBounds _ | Stuck _ => False
  end.
Proof.
  intros H0 Hstep Hend. unfold parse_fields.
  set (st := Locals _ _ _ _ _) in *.
  assert (Hb : bounded (length line) st).
  { unfold bounded. cbn. rewrite length_resize. lia. }
  pose proof (parse_loop_keeps enc line I E Hstep (length line) st H0 Hb
                ltac:(lia)) as Hl.
  pose proof (parse_fields_within_buffer enc line m_row) as Hw.
  unfold parse_fields in Hw. fold st in Hw.
  destruct (parse_loop enc line (length line) st) as [st'| | |];
    cbn [finish] in *; try exact Hl.
  destruct Hl as (HI & Hb' & Hr).
  destruct (end_field st') as [st''| | |] eqn:He; try contradiction.
  - eapply Hend; eauto.
  - (* end_field does not throw *)
    unfold end_field in He. destruct (field_begin st'); [|discriminate].
    unfold emit in He. destruct (_ <? _); discriminate.
Qed.




(** What [copy_glyph] writes: the bytes of the glyph as they are. *)
Lemma copy_glyph_content line : forall n st,
  length (row st) = length line + 1 -> write st <= read st ->
  read st + n <= length line ->
  exists st', copy_glyph line n st = Next st'
    /\ read st' = read st + n /\ write st' = write st + n
    /\ length (row st') = length line + 1
    /\ fields st' = fields st /\ field_begin st' = field_begin st
    /\ take (write st') (row st')
       = take (write st) (row st) ++ take n (drop (read st) line).
Proof.
  induction n as [|n IH]; intros st Hrow Hw Hr; cbn [copy_glyph].
  - exists st. rewrite !Nat.add_0_r. cbn [take]. rewrite app_nil_r.
    repeat split; auto.
  - unfold emit. destruct (Nat.ltb_spec (write st) (length (row st))); [|lia].
    edestruct (IH (set_read (S (read st))
      (Locals (<[write st:=nth (read st) line x00]> (row st)) (fields st)
              (read st) (S (write st)) (field_begin st))))
      as (st' & Hc & Hrd & Hwr & Hlen & Hf & Hfb & Htake);
      try (cbn [set_read row fields read write field_begin];
           rewrite ?length_insert; lia).
    cbn [set_read row fields read write field_begin] in *.
    exists st'. rewrite Hc. repeat split; try lia; try assumption.
    rewrite Htake, take_insert_end by lia.
    rewrite (drop_nth line (read st)) by lia. cbn [take].
    rewrite <- app_assoc. reflexivity.
Qed.

(** The locals while a line without tab and backslash is parsed: no field
    is closed, the open field began at 0, and the row buffer holds the
    bytes read so far as they are. *)
Lemma plain_step enc line st glyph_end :
  Forall (fun c => c <> tab /\ c <> backslash) line ->
  bounded (length line) st -> read st < length line ->
  fields st = [] -> field_begin st = Some 0 -> write st = read st ->
  take (read st) (row st) = take (read st) line ->
  outcome (next_seq enc line (length line) (read st)) = Ret (Some glyph_end) ->
  exists st',
    iteration enc line st = Next st'
    /\ bounded (length line) st' /\ read st' = glyph_end
    /\ fields st' = [] /\ field_begin st' = Some 0 /\ write st' = read st'
    /\ take (read st') (row st') = take (read st') line.
Proof.
  intros Hplain Hb Hlt Hf Hfb Hw Ht Hscan.
  pose proof (iteration_bounded enc line st Hb Hlt) as Hsafe.
  destruct Hb as (Hrow & _ & Hr). unfold iteration in *. rewrite Hscan in *.
  apply ScannerFacts.next_seq_end in Hscan.
  assert (Hc : nth (read st) line x00 <> tab
               /\ nth (read st) line x00 <> backslash).
  { destruct (lookup_lt_is_Some_2 line (read st) Hlt) as [x Hx].
    rewrite (nth_lookup_Some _ _ x00 _ Hx).
    exact (Forall_lookup_1 _ _ _ _ Hplain Hx). }
  destruct (Nat.eqb_spec glyph_end (read st + 1)) as [->|Hne].
  - rewrite (single_byte_other _ _ (proj1 Hc) (proj2 Hc)) in *.
    unfold emit in *. cbn [set_read row fields read write field_begin] in *.
    destruct (Nat.ltb_spec (write st) (length (row st))); [|lia].
    eexists. split; [reflexivity|]. destruct Hsafe as [Hb' _].
    cbn [row fields read write field_begin].
    repeat split; auto; try lia; try apply Hb'.
    rewrite Hw, take_insert_end by lia. rewrite Ht.
    symmetry. apply take_S_r.
    destruct (lookup_lt_is_Some_2 line (read st) Hlt) as [x Hx].
    rewrite (nth_lookup_Some _ _ x00 _ Hx). exact Hx.
  - destruct (copy_glyph_content line (glyph_end - read st) st)
      as (st' & Hcopy & Hrd & Hwr & _ & Hf' & Hfb' & Htake); try lia.
    rewrite Hcopy in *. exists st'. split; [reflexivity|].
    destruct Hsafe as [Hb' _].
    repeat split; try congruence; try lia; try apply Hb'.
    replace (read st') with (write st') by lia.
    rewrite Htake, Hw, Ht, take_take_drop. f_equal. lia.
Qed.

Lemma plain_loop enc line :
  Forall (fun c => c <> tab /\ c <> backslash) line ->
  forall fuel st,
  bounded (length line) st -> length line - read st <= fuel ->
  fields st = [] -> field_begin st = Some 0 -> write st = read st ->
  take (read st) (row st) = take (read st) line ->
  match first_rejected enc line fuel (read st) with
  | None =>
      exists st',
        parse_loop enc line fuel st = Next st'
        /\ bounded (length line) st' /\ read st' = length line
        /\ fields st' = [] /\ field_begin st' = Some 0
        /\ write st' = read st'
        /\ take (read st') (row st') = take (read st') line
  | Some e => exists st', parse_loop enc line fuel st = Raised e st'
  end.
Proof.
  intros Hplain. induction fuel as [|fuel IH];
    intros st Hb Hfuel Hf Hfb Hw Ht; cbn [first_rejected parse_loop];
    destruct (Nat.leb_spec (length line) (read st)) as [Hend|Hlt];
    try (exists st; destruct Hb as (? & ? & ?); repeat split; auto; lia);
    try lia.
  destruct (outcome (next_seq enc line (length line) (read st)))
    as [[glyph_end|]|e] eqn:Hscan.
  - destruct (plain_step enc line st glyph_end Hplain Hb Hlt Hf Hfb Hw Ht
                Hscan)
      as (st1 & -> & Hb1 & <- & Hf1 & Hfb1 & Hw1 & Ht1).
    apply ScannerFacts.next_seq_end in Hscan.
    apply IH; auto. lia.
  - apply ScannerFacts.next_seq_npos in Hscan. lia.
  - unfold iteration. rewrite Hscan. eauto.
Qed.

Lemma first_rejected_at enc line : forall fuel start e,
  first_rejected enc line fuel start = Some e ->
  exists at_byte,
    at_byte < length line
    /\ outcome (next_seq enc line (length line) at_byte) = Throw e.
Proof.
  induction fuel as [|fuel IH]; intros start e; cbn [first_rejected];
    destruct (Nat.leb_spec (length line) start) as [Hend|Hlt];
    try discriminate.
  destruct (outcome (next_seq enc line (length line) start))
    as [[glyph_end|]|e'] eqn:Hscan; try discriminate.
  - apply IH.
  - intros [= <-]. eauto.
Qed.

(** X10.  A line that holds neither a tab nor a backslash byte, in any
    encoding group, scanned glyph by glyph from its start: if the scanner
    rejects no glyph, [read_row] hands out one field that is the line as it
    is; if it rejects one, [read_row] throws what the scanner threw for
    the first glyph rejected, an [argument_error] at an offset of the
    line. *)
Theorem plain_line_is_one_field s line :
  Forall (fun c => c <> tab /\ c <> backslash) line ->
  delivers s line ->
  match first_rejected (m_glyph_scanner s) line (length line) 0 with
  | None => row_of (read_row s) = Some [Some line]
  | Some e =>
      snd (read_row s) = Throws e
      /\ exists name bytes at_byte,
           e = argument_error name at_byte bytes /\ at_byte < length line
           /\ outcome (next_seq (m_glyph_scanner s) line (length line)
                               at_byte) = Throw e
  end.
Proof.
  intros Hplain Hd. rewrite (StreamFacts.read_row_delivers s line Hd).
  set (enc := m_glyph_scanner s). unfold parse_fields.
  set (st := Locals _ _ _ _ _).
  assert (Hb : bounded (length line) st).
  { unfold bounded. cbn. rewrite length_resize. lia. }
  pose proof (plain_loop enc line Hplain (length line) st Hb ltac:(lia)
                eq_refl eq_refl eq_refl eq_refl) as Hl.
  change (read st) with 0 in Hl.
  destruct (first_rejected enc line (length line) 0) as [e|] eqn:Hrej.
  - destruct Hl as (st' & ->). cbn [finish snd]. split; [reflexivity|].
    destruct (first_rejected_at enc line _ _ _ Hrej) as (at_byte & Hat & Hs).
    destruct (ScannerMore.next_seq_throws _ _ _ _ _ Hs)
      as (name & count & He & Hcount).
    exists name, (map (fun i => Byte.to_N (nth i line x00)) (seq at_byte count)),
      at_byte.
    split; [exact He|]. split; [exact Hat|exact Hs].
  - destruct Hl as (st' & -> & (Hrow & _ & _) & Hr & Hf & Hfb & Hw & Ht).
    cbn [finish]. unfold end_field, emit. rewrite Hfb.
    cbn [push_back row fields read write field_begin].
    destruct (Nat.ltb_spec (write st') (length (row st'))); [|lia].
    unfold row_of, row_values, after. cbn [m_row row fields]. rewrite Hf.
    cbn [app map view_bytes].
    rewrite drop_0, Nat.sub_0_r, take_insert_ge by lia.
    rewrite Hw, Ht, Hr, take_ge by lia. reflexivity.
Qed.

(** The line a, then the three bytes of a UTF8 glyph, comes back as one
    field; the line a, then two of the three, is rejected at offset 1. *)
Lemma plain_line_is_one_field_witness :
  row_of (read_row (open UTF8 [copy_line [x61; xe4; xb8; xad]]))
  = Some [Some [x61; xe4; xb8; xad]]
  /\ snd (read_row (open UTF8 [copy_line [x61; xe4; xb8]]))
     = Throws (argument_error "UTF8" 1 [0xe4%N; 0xb8%N]).
Proof.
  split.
  - apply (plain_line_is_one_field
             (open UTF8 [copy_line [x61; xe4; xb8; xad]])
             [x61; xe4; xb8; xad]).
    + repeat constructor; discriminate.
    + split; reflexivity.
  - apply (plain_line_is_one_field
             (open UTF8 [copy_line [x61; xe4; xb8]]) [x61; xe4; xb8]).
    + repeat constructor; discriminate.
    + split; reflexivity.
Defined.

(** ** The seven ways of an iteration *)

Lemma iteration_cases enc line st (P : run -> Prop) :
  bounded (length line) st -> read st < length line ->
  (forall e, parse_exception e -> P (Raised e st)) ->
  (nth (read st) line x00 = tab ->
   P (match end_field (set_read (S (read st)) st) with
      | Next st' => Next (set_field_begin (Some (write st')) st')
      | r => r
      end)) ->
  (S (read st) = length line ->
   P (Raised (failure "Row ends in backslash") (set_read (S (read st)) st))) ->
  (S (read st) < length line ->
   P (escape letter_N (set_read (S (S (read st))) st))) ->
  (forall c, S (read st) < length line -> c <> letter_N ->
   P (emit (control c) (set_read (S (S (read st))) st))) ->
  (forall c, nth (read st) line x00 = c -> c <> tab -> c <> backslash ->
   P (emit c (set_read (S (read st)) st))) ->
  (forall n, 0 < n -> read st + n <= length line ->
   P (copy_glyph line n st)) ->
  P (iteration enc line st).
Proof.
  intros Hb Hlt Hthrow Htab Hlast HN Hesc Hplain Hmulti. unfold iteration.
  destruct (outcome (next_seq enc line (length line) (read st)))
    as [[glyph_end|]|e] eqn:Hscan.
  - apply ScannerFacts.next_seq_end in Hscan.
    destruct (Nat.eqb_spec glyph_end (read st + 1)) as [->|Hne].
    + destruct (Byte.byte_eq_dec (nth (read st) line x00) tab) as [Ht|Ht].
      { rewrite (single_byte_tab _ _ Ht). auto. }
      destruct (Byte.byte_eq_dec (nth (read st) line x00) backslash)
        as [Hbs|Hbs].
      { rewrite (single_byte_backslash _ _ Hbs).
        destruct (Nat.leb_spec (length line) (S (read st))).
        { apply Hlast. lia. }
        destruct (Byte.byte_eq_dec (nth (S (read st)) line x00) letter_N)
          as [->|Hc]; [auto|].
        rewrite (escape_other _ _ Hc). auto. }
      rewrite (single_byte_other _ _ Ht Hbs). auto.
    + apply Hmulti; lia.
  - apply ScannerFacts.next_seq_npos in Hscan. lia.
  - apply Hthrow. right. right.
    destruct (ScannerMore.next_seq_throws _ _ _ _ _ Hscan)
      as (name & count & -> & _). eauto.
Qed.

(** ** The layout of the views *)

Lemma laid_out_le m_row fs : forall lo hi,
  laid_out m_row lo hi fs -> lo <= hi.
Proof.
  induction fs as [|[|b n] fs IH]; intros lo hi H; cbn in H; auto.
  destruct H as (Hlo & _ & H). apply IH in H. lia.
Qed.

Lemma laid_out_mono m_row fs : forall lo hi hi',
  laid_out m_row lo hi fs -> hi <= hi' -> laid_out m_row lo hi' fs.
Proof.
  induction fs as [|[|b n] fs IH]; intros lo hi hi' H Hhi; cbn in *;
    [lia|eauto|].
  destruct H as (Hlo & Hn & H). eauto.
Qed.

Lemma laid_out_ext r1 r2 fs : forall lo hi,
  (forall i, i < hi -> nth i r2 x01 = nth i r1 x01) ->
  laid_out r1 lo hi fs -> laid_out r2 lo hi fs.
Proof.
  induction fs as [|[|b n] fs IH]; intros lo hi Hext H; cbn in *; auto.
  destruct H as (Hlo & Hn & H). pose proof (laid_out_le _ _ _ _ H).
  repeat split; auto. rewrite Hext by lia. exact Hn.
Qed.

Lemma laid_out_snoc_null m_row fs : forall lo hi,
  laid_out m_row lo hi fs -> laid_out m_row lo hi (fs ++ [zview_null]).
Proof.
  induction fs as [|[|b n] fs IH]; intros lo hi H; cbn in *; auto.
  destruct H as (Hlo & Hn & H). auto.
Qed.

Lemma laid_out_snoc m_row fs b n : forall lo hi,
  laid_out m_row lo hi fs -> hi <= b -> nth (b + n) m_row x01 = x00 ->
  laid_out m_row lo (b + n + 1) (fs ++ [zview_at b n]).
Proof.
  induction fs as [|[|b' n'] fs IH]; intros lo hi H Hb Hn; cbn in *.
  - repeat split; auto; lia.
  - eauto.
  - destruct H as (Hlo & Hn' & H). repeat split; eauto.
Qed.

Lemma nth_insert_other (l : list byte) w c i d :
  i <> w -> nth i (<[w:=c]> l) d = nth i l d.
Proof. intros H. rewrite !nth_lookup, list_lookup_insert_ne by auto. done. Qed.

Lemma nth_insert_same (l : list byte) w c d :
  w < length l -> nth w (<[w:=c]> l) d = c.
Proof. intros H. rewrite nth_lookup, list_lookup_insert_eq by auto. done. Qed.

Lemma take_prefix_nth (r r' x : list byte) w w' i d :
  take w' r' = take w r ++ x -> i < w -> w <= w' -> w <= length r ->
  nth i r' d = nth i r d.
Proof.
  intros Ht Hi Hw Hl. rewrite !nth_lookup.
  rewrite <- (lookup_take_lt r' w' i) by lia. rewrite Ht.
  rewrite lookup_app_l by (rewrite length_take; lia).
  rewrite lookup_take_lt by lia. reflexivity.
Qed.

Lemma emit_orderly c st st' :
  orderly st -> emit c st = Next st' -> orderly st'.
Proof.
  intros (hi & Hl & Hhi & Hfb). unfold emit.
  destruct (Nat.ltb_spec (write st) (length (row st))); [|discriminate].
  intros [= <-]. exists hi. cbn [row fields read write field_begin].
  repeat split.
  - eapply laid_out_ext; [|exact Hl].
    intros i Hi. apply nth_insert_other. lia.
  - lia.
  - apply Hfb in H0. lia.
  - apply Hfb in H0. lia.
Qed.

Lemma end_field_orderly st st' :
  orderly st -> end_field st = Next st' ->
  exists hi,
    laid_out (row st') 0 hi (fields st') /\ hi <= write st'
    /\ write st' <= S (write st) /\ length (row st') = length (row st).
Proof.
  intros (hi & Hl & Hhi & Hfb). unfold end_field.
  destruct (field_begin st) as [fb|] eqn:Hb.
  - destruct (Hfb fb eq_refl) as [Hlo Hup]. unfold emit.
    cbn [push_back row fields read write field_begin].
    destruct (Nat.ltb_spec (write st) (length (row st))); [|discriminate].
    intros [= <-]. cbn [row fields read write field_begin].
    exists (fb + (write st - fb) + 1). rewrite length_insert.
    repeat split; try lia.
    apply (laid_out_snoc _ _ _ _ _ hi); [|exact Hlo|].
    + eapply laid_out_ext; [|exact Hl].
      intros i Hi. apply nth_insert_other. lia.
    + replace (fb + (write st - fb)) with (write st) by lia.
      apply nth_insert_same. assumption.
  - intros [= <-]. exists hi. cbn [push_back row fields read write].
    repeat split; auto. apply laid_out_snoc_null. exact Hl.
Qed.

Lemma escape_N_orderly st st' :
  orderly st -> escape letter_N st = Next st' -> orderly st'.
Proof.
  intros (hi & Hl & Hhi & Hfb). rewrite escape_N.
  destruct (field_begin st) as [fb|]; [|discriminate].
  destruct (fb =? write st); [|discriminate].
  intros [= <-]. exists hi. cbn. repeat split; auto; discriminate.
Qed.

Lemma iteration_orderly enc line st :
  orderly st -> bounded (length line) st -> read st < length line ->
  match iteration enc line st with
  | Next st' => orderly st'
  | Raised _ _ | OutOfBounds _ | Stuck _ => True
  end.
Proof.
  intros Ho Hb Hlt.
  enough (H : forall st', iteration enc line st = Next st' -> orderly st').
  { destruct (iteration enc line st); auto. }
  apply (iteration_cases enc line st
           (fun r => forall st', r = Next st' -> orderly st') Hb Hlt);
    try discriminate.
  - intros _ st'.
    destruct (end_field (set_read (S (read st)) st)) as [st1| | |] eqn:He;
      try discriminate.
    intros [= <-].
    assert (Ho' : orderly (set_read (S (read st)) st)) by exact Ho.
    destruct (end_field_orderly _ _ Ho' He) as (hi & Hl & Hhi & _).
    exists hi. cbn. split; [exact Hl|]. split; [exact Hhi|].
    intros fb [= <-]. lia.
  - intros _ st'. apply escape_N_orderly. exact Ho.
  - intros c _ _ st'. apply emit_orderly. exact Ho.
  - intros c _ _ _ st'. apply emit_orderly. exact Ho.
  - intros n Hn Hend st' Hc. destruct Hb as (Hrow & Hw & Hr).
    destruct (copy_glyph_content line n st Hrow Hw Hend)
      as (st1 & Hc1 & Hrd & Hwr & Hlen & Hf & Hfb & Htake).
    rewrite Hc1 in Hc. injection Hc as <-.
    destruct Ho as (hi & Hl & Hhi & Hb).
    exists hi. rewrite Hf, Hfb. repeat split.
    + eapply laid_out_ext; [|exact Hl].
      intros i Hi. eapply take_prefix_nth; [exact Htake|lia|lia|lia].
    + lia.
    + apply Hb in H. lia.
    + apply Hb in H. lia.
Qed.

(** Of a call of [read_row] that hands out a row. *)
Lemma read_row_returns_row s s' row :
  read_row s = (s', Returns (Some row)) ->
  exists line st,
    delivers s line
    /\ parse_fields (m_glyph_scanner s) line (m_row s) = Next st
    /\ s' = after s st /\ row = fields st.
Proof.
  intros H. destruct (m_finished s) eqn:Hfin.
  { rewrite (StreamFacts.read_row_finished s Hfin) in H. discriminate. }
  destruct (source s) as [|[line| |e] rest] eqn:Hsrc.
  - destruct (StreamFacts.end_of_data_finishes s Hfin) as (s1 & Hr & _);
      [left; rewrite Hsrc; reflexivity|].
    rewrite Hr in H. discriminate.
  - assert (Hd : delivers s line) by (split; [exact Hfin|rewrite Hsrc; reflexivity]).
    rewrite (StreamFacts.read_row_delivers s line Hd) in H.
    exists line.
    destruct (parse_fields (m_glyph_scanner s) line (m_row s)) as [st| | |];
      try discriminate.
    injection H as <- <-. exists st. auto.
  - destruct (StreamFacts.end_of_data_finishes s Hfin) as (s1 & Hr & _);
      [right; rewrite Hsrc; reflexivity|].
    rewrite Hr in H. discriminate.
  - destruct (StreamFacts.source_exception_finishes s e Hfin) as (s1 & Hr & _);
      [rewrite Hsrc; reflexivity|].
    rewrite Hr in H. discriminate.
Qed.

Lemma parse_fields_laid_out enc line m_row st :
  parse_fields enc line m_row = Next st ->
  exists hi, laid_out (row st) 0 hi (fields st)
             /\ hi <= write st <= length (row st).
Proof.
  intros Hp.
  pose proof (parse_fields_keeps enc line m_row orderly
    (fun st => exists hi, laid_out (row st) 0 hi (fields st)
                          /\ hi <= write st <= length (row st))
    (fun _ => True)) as Hk.
  rewrite Hp in Hk. apply Hk; clear Hk Hp.
  - exists 0. cbn. split; [lia|]. split; [lia|]. intros fb [= <-]. lia.
  - intros st0 Ho Hb Hlt.
    pose proof (iteration_orderly enc line st0 Ho Hb Hlt) as Hi.
    destruct (iteration _ line st0); auto.
  - intros st0 st1 Ho (Hrow & Hw & Hr) _ He.
    destruct (end_field_orderly _ _ Ho He) as (hi & Hl & Hhi & Hws & Hlen).
    exists hi. split; [exact Hl|]. lia.
Qed.

(** X11.  The views of a row that [read_row] hands out lie in the row buffer
    one behind the other, in the order of the fields, without overlap, and
    the byte behind each is a NUL inside the buffer. *)
Theorem row_views_laid_out s s' row :
  read_row s = (s', Returns (Some row)) ->
  laid_out (m_row s') 0 (length (m_row s')) row.
Proof.
  intros H.
  destruct (read_row_returns_row _ _ _ H) as (line & st & _ & Hp & -> & ->).
  cbn [after m_row].
  destruct (parse_fields_laid_out _ _ _ _ Hp) as (hi & Hl & Hhi).
  eapply laid_out_mono; [exact Hl|]. lia.
Qed.

Lemma row_views_laid_out_witness :
  laid_out [x61; x00; x62; x63; x00; x00; x00; x00] 0 8
           [zview_at 0 1; zview_null; zview_at 2 2].
Proof.
  apply (row_views_laid_out
           (open UTF8 [copy_line [x61; x09; x5c; x4e; x09; x62; x63]])
           (Stream UTF8 false [x61; x00; x62; x63; x00; x00; x00; x00]
                   [zview_at 0 1; zview_null; zview_at 2 2] [] 1 0 [])).
  reflexivity.
Defined.

Lemma emit_frame c st st' :
  emit c st = Next st' ->
  fields st' = fields st /\ read st' = read st
  /\ field_begin st' = field_begin st.
Proof.
  unfold emit. destruct (_ <? _); [|discriminate].
  intros [= <-]. auto.
Qed.

Lemma end_field_frame st st' :
  end_field st = Next st' ->
  (exists v, fields st' = fields st ++ [v]) /\ read st' = read st.
Proof.
  unfold end_field. destruct (field_begin st) as [fb|].
  - intros H. apply emit_frame in H. destruct H as (-> & -> & _).
    cbn. eauto.
  - intros [= <-]. cbn. eauto.
Qed.

Lemma escape_N_frame st st' :
  escape letter_N st = Next st' ->
  fields st' = fields st /\ read st' = read st.
Proof.
  rewrite escape_N. destruct (field_begin st) as [fb|]; [|discriminate].
  destruct (fb =? write st); [|discriminate].
  intros [= <-]. auto.
Qed.

Lemma count_occ_take_le (l : list byte) c a b :
  a <= b -> count_occ Byte.byte_eq_dec (take a l) c
            <= count_occ Byte.byte_eq_dec (take b l) c.
Proof.
  intros Hab. replace b with (a + (b - a)) by lia.
  rewrite <- (take_take_drop l a (b - a)), count_occ_app. lia.
Qed.

Lemma count_occ_take_S (l : list byte) c a :
  a < length l -> nth a l x00 = c ->
  count_occ Byte.byte_eq_dec (take (S a) l) c
  = S (count_occ Byte.byte_eq_dec (take a l) c).
Proof.
  intros Ha Hc.
  destruct (lookup_lt_is_Some_2 l a Ha) as [x Hx].
  rewrite (take_S_r l a x Hx), count_occ_app.
  rewrite (nth_lookup_Some l a x00 x Hx) in Hc. subst x.
  cbn. destruct (Byte.byte_eq_dec c c); [lia|contradiction].
Qed.

(** X12.  A row has at least one field, and at most one more than the line
    has tabulator bytes. *)
Theorem row_field_count s s' row :
  read_row s = (s', Returns (Some row)) ->
  exists line,
    head (source s) = Some (copy_line line)
    /\ 1 <= length row <= 1 + count_occ Byte.byte_eq_dec line tab.
Proof.
  intros H.
  destruct (read_row_returns_row _ _ _ H) as (line & st & Hd & Hp & -> & ->).
  exists line. split; [exact (proj2 Hd)|].
  pose (tabs_before := fun n => count_occ Byte.byte_eq_dec (take n line) tab).
  pose proof (parse_fields_keeps (m_glyph_scanner s) line (m_row s)
    (fun st => length (fields st) <= tabs_before (read st))
    (fun st => 1 <= length (fields st)
               <= 1 + count_occ Byte.byte_eq_dec line tab)
    (fun _ => True)) as Hk.
  rewrite Hp in Hk. apply Hk; clear Hk Hp.
  - cbn. lia.
  - intros st0 HI Hb Hlt.
    enough (Hn : forall st', iteration (m_glyph_scanner s) line st0 = Next st'
                 -> length (fields st') <= tabs_before (read st')).
    { destruct (iteration _ line st0); auto. }
    assert (Hmono : forall st', fields st' = fields st0 ->
              read st0 <= read st' ->
              length (fields st') <= tabs_before (read st')).
    { intros st' -> Hr. etransitivity; [exact HI|].
      apply count_occ_take_le. exact Hr. }
    apply (iteration_cases (m_glyph_scanner s) line st0
             (fun r => forall st', r = Next st'
                -> length (fields st') <= tabs_before (read st')) Hb Hlt);
      try discriminate.
    + intros Htab st'.
      destruct (end_field (set_read (S (read st0)) st0)) as [st1| | |] eqn:He;
        try discriminate.
      intros [= <-]. apply end_field_frame in He.
      destruct He as ([v Hf] & Hr). cbn in *. rewrite Hf, Hr, length_app.
      unfold tabs_before in *.
      rewrite (count_occ_take_S line tab (read st0) Hlt Htab). cbn. lia.
    + intros _ st' He. apply escape_N_frame in He. destruct He as [Hf Hr].
      apply Hmono; [exact Hf|]. rewrite Hr. cbn. lia.
    + intros c _ _ st' He. apply emit_frame in He.
      destruct He as (Hf & Hr & _).
      apply Hmono; [exact Hf|]. rewrite Hr. cbn. lia.
    + intros c _ _ _ st' He. apply emit_frame in He.
      destruct He as (Hf & Hr & _).
      apply Hmono; [exact Hf|]. rewrite Hr. cbn. lia.
    + intros n Hn Hend st' Hc. destruct Hb as (Hrow & Hw & Hr).
      destruct (copy_glyph_content line n st0 Hrow Hw Hend)
        as (st1 & Hc1 & Hrd & _ & _ & Hf & _).
      rewrite Hc1 in Hc. injection Hc as <-.
      apply Hmono; [exact Hf|lia].
  - intros st0 st1 HI _ Hr He. apply end_field_frame in He.
    destruct He as ([v Hf] & _). rewrite Hf, length_app. cbn.
    unfold tabs_before in HI. rewrite Hr, firstn_all in HI. lia.
Qed.

Lemma row_field_count_witness :
  exists line,
    head [copy_line [x61; x09; x5c; x09; x62]] = Some (copy_line line)
    /\ 1 <= 2 <= 1 + count_occ Byte.byte_eq_dec line tab.
Proof.
  apply (row_field_count
           (open UTF8 [copy_line [x61; x09; x5c; x09; x62]])
           (Stream UTF8 false [x61; x00; x09; x62; x00; x00]
                   [zview_at 0 1; zview_at 2 2] [] 1 0 [])
           [zview_at 0 1; zview_at 2 2]).
  reflexivity.
Defined.

(** X13.  The bytes of a glyph of more than one byte are copied as they are:
    the iteration closes no field, opens no escape and leaves the open field
    open, whatever bytes the glyph is made of. *)
Theorem multibyte_glyph_copied enc line st glyph_end :
  bounded (length line) st -> read st < length line ->
  outcome (next_seq enc line (length line) (read st)) = Ret (Some glyph_end) ->
  glyph_end <> read st + 1 ->
  exists st',
    iteration enc line st = Next st'
    /\ read st' = glyph_end /\ write st' = write st + (glyph_end - read st)
    /\ fields st' = fields st /\ field_begin st' = field_begin st
    /\ take (write st') (row st')
       = take (write st) (row st)
         ++ take (glyph_end - read st) (drop (read st) line).
Proof.
  intros (Hrow & Hw & Hr) Hlt Hscan Hne. unfold iteration. rewrite Hscan.
  apply ScannerFacts.next_seq_end in Hscan.
  destruct (Nat.eqb_spec glyph_end (read st + 1)); [contradiction|].
  destruct (copy_glyph_content line (glyph_end - read st) st Hrow Hw
              ltac:(lia))
    as (st' & -> & Hrd & Hwr & _ & Hf & Hfb & Htake).
  exists st'. repeat split; auto. lia.
Qed.

Lemma multibyte_glyph_copied_witness :
  exists st',
    iteration SJIS [x83; x5c] (Locals [x00; x00; x00] [] 0 0 (Some 0))
    = Next st'
    /\ read st' = 2 /\ write st' = 0 + (2 - 0)
    /\ fields st' = [] /\ field_begin st' = Some 0
    /\ take (write st') (row st') = [] ++ take (2 - 0) (drop 0 [x83; x5c]).
Proof.
  apply (multibyte_glyph_copied SJIS [x83; x5c]
           (Locals [x00; x00; x00] [] 0 0 (Some 0)) 2);
    [unfold bounded; cbn; lia|cbn; lia|reflexivity|discriminate].
Defined.

(** *** The stale content of the row buffer *)

Lemma emit_alike c a b : alike a b -> alike_run (emit c a) (emit c b).
Proof.
  intros (Hf & Hr & Hw & Hfb & Hlen & Ht). unfold emit.
  rewrite Hw, Hlen.
  destruct (Nat.ltb_spec (write b) (length (row b)));
    cbn [alike_run]; [|exact I].
  unfold alike. cbn [row fields read write field_begin].
  rewrite !length_insert, !take_insert_end by lia.
  rewrite Hw in Ht. rewrite Ht. repeat split; auto.
Qed.

Lemma set_read_alike r a b : alike a b -> alike (set_read r a) (set_read r b).
Proof. intros (Hf & Hr & Hw & Hfb & Hlen & Ht). repeat split; auto. Qed.

Lemma push_back_alike v a b :
  alike a b -> alike (push_back v a) (push_back v b).
Proof.
  intros (Hf & Hr & Hw & Hfb & Hlen & Ht). unfold alike.
  cbn [push_back row fields read write field_begin].
  rewrite Hf. repeat split; auto.
Qed.

Lemma set_field_begin_alike fb a b :
  alike a b -> alike (set_field_begin fb a) (set_field_begin fb b).
Proof. intros (Hf & Hr & Hw & Hfb & Hlen & Ht). repeat split; auto. Qed.

Lemma end_field_alike a b :
  alike a b -> alike_run (end_field a) (end_field b).
Proof.
  intros Ha. pose proof Ha as (Hf & Hr & Hw & Hfb & Hlen & Ht).
  unfold end_field. rewrite Hfb, Hw.
  destruct (field_begin b) as [fb|].
  - apply emit_alike, push_back_alike, Ha.
  - cbn [alike_run]. apply push_back_alike, Ha.
Qed.

Lemma escape_alike c a b :
  alike a b -> alike_run (escape c a) (escape c b).
Proof.
  intros Ha. destruct (Byte.byte_eq_dec c letter_N) as [->|Hc].
  - rewrite !escape_N. pose proof Ha as (Hf & Hr & Hw & Hfb & Hlen & Ht).
    rewrite Hfb, Hw. destruct (field_begin b) as [fb|]; cbn; auto.
    destruct (fb =? write b); cbn [alike_run]; auto.
    apply set_field_begin_alike, Ha.
  - rewrite !(escape_other _ _ Hc). apply emit_alike. exact Ha.
Qed.

Lemma single_byte_alike line a b :
  alike a b -> alike_run (single_byte line a) (single_byte line b).
Proof.
  intros Ha. pose proof Ha as (Hf & Hr & Hw & Hfb & Hlen & Ht).
  destruct (Byte.byte_eq_dec (nth (read b) line x00) tab) as [Htab|Htab].
  { rewrite (single_byte_tab line b Htab).
    rewrite <- Hr in Htab. rewrite (single_byte_tab line a Htab).
    pose proof (end_field_alike _ _ (set_read_alike (S (read a)) a b Ha)) as He.
    rewrite Hr in *.
    destruct (end_field (set_read (S (read b)) a)) as [a'| | |],
             (end_field (set_read (S (read b)) b)) as [b'| | |];
      cbn in *; try contradiction; auto.
    replace (write a') with (write b') by (symmetry; apply He).
    apply set_field_begin_alike, He. }
  destruct (Byte.byte_eq_dec (nth (read b) line x00) backslash) as [Hbs|Hbs].
  { rewrite (single_byte_backslash line b Hbs).
    rewrite <- Hr in Hbs. rewrite (single_byte_backslash line a Hbs).
    rewrite Hr.
    destruct (length line <=? S (read b)).
    - cbn. split; [reflexivity|]. apply set_read_alike. exact Ha.
    - apply escape_alike. apply set_read_alike. exact Ha. }
  rewrite (single_byte_other line b Htab Hbs).
  rewrite <- Hr in Htab, Hbs. rewrite (single_byte_other line a Htab Hbs).
  rewrite Hr. apply emit_alike. apply set_read_alike. exact Ha.
Qed.

Lemma copy_glyph_alike line : forall n a b,
  alike a b -> alike_run (copy_glyph line n a) (copy_glyph line n b).
Proof.
  induction n as [|n IH]; intros a b Ha; cbn [copy_glyph]; [exact Ha|].
  pose proof (emit_alike (nth (read a) line x00) a b Ha) as He.
  replace (read b) with (read a) by apply Ha.
  destruct (emit (nth (read a) line x00) a) as [a'| | |],
           (emit (nth (read a) line x00) b) as [b'| | |];
    cbn in He; try contradiction; auto.
  apply IH. replace (read b') with (read a') by apply He.
  apply set_read_alike. exact He.
Qed.

Lemma iteration_alike enc line a b :
  alike a b -> alike_run (iteration enc line a) (iteration enc line b).
Proof.
  intros Ha. unfold iteration. replace (read b) with (read a) by apply Ha.
  destruct (outcome (next_seq enc line (length line) (read a)))
    as [[glyph_end|]|e].
  - destruct (glyph_end =? read a + 1).
    + apply single_byte_alike. exact Ha.
    + apply copy_glyph_alike. exact Ha.
  - exact Ha.
  - split; [reflexivity|exact Ha].
Qed.

Lemma parse_loop_alike enc line : forall fuel a b,
  alike a b ->
  alike_run (parse_loop enc line fuel a) (parse_loop enc line fuel b).
Proof.
  induction fuel as [|fuel IH]; intros a b Ha; cbn [parse_loop];
    replace (read b) with (read a) by apply Ha;
    destruct (length line <=? read a); try exact Ha; [exact I|].
  pose proof (iteration_alike enc line a b Ha) as Hi.
  destruct (iteration enc line a) as [a'| | |],
           (iteration enc line b) as [b'| | |];
    cbn in Hi; try contradiction; auto.
Qed.

Lemma parse_fields_alike enc line m_row m_row' :
  alike_run (parse_fields enc line m_row) (parse_fields enc line m_row').
Proof.
  unfold parse_fields.
  match goal with
  | |- alike_run (finish (parse_loop _ _ _ ?a)) (finish (parse_loop _ _ _ ?b)) =>
      assert (Ha : alike a b)
        by (repeat split; cbn; rewrite !length_resize; reflexivity);
      pose proof (parse_loop_alike enc line (length line) a b Ha) as Hl;
      destruct (parse_loop enc line (length line) a) as [a'| | |],
               (parse_loop enc line (length line) b) as [b'| | |]
  end; cbn in Hl; try contradiction; cbn [finish]; auto.
  apply end_field_alike. exact Hl.
Qed.

Lemma laid_out_values r r' w : forall fs lo hi,
  laid_out r lo hi fs -> hi <= w -> take w r = take w r' ->
  map (view_bytes r) fs = map (view_bytes r') fs.
Proof.
  induction fs as [|[|b n] fs IH]; intros lo hi Hl Hhi Ht; cbn [map];
    [reflexivity| |]; cbn [laid_out] in Hl.
  - f_equal. eapply IH; eauto.
  - destruct Hl as (_ & _ & Hl). pose proof (laid_out_le _ _ _ _ Hl).
    f_equal; [|eapply IH; eauto]. cbn [view_bytes]. f_equal.
    rewrite !take_drop_commute. f_equal.
    assert (Hb : take (b + n) (take w r) = take (b + n) (take w r'))
      by (rewrite Ht; reflexivity).
    rewrite !take_take, Nat.min_l in Hb by lia. exact Hb.
Qed.

(** X14.  What [read_row] answers, and the values of the row it hands out,
    do not depend on what the row buffer held before the call. *)
Theorem read_row_ignores_stale_row stale s :
  snd (read_row (with_row stale s)) = snd (read_row s)
  /\ row_of (read_row (with_row stale s)) = row_of (read_row s).
Proof.
  destruct s as [enc fin m_row0 m_fields0 src n u p]. unfold with_row.
  cbn [m_finished m_glyph_scanner m_row m_fields source pulls unregistered
       pending_errors].
  destruct fin.
  { rewrite !StreamFacts.read_row_finished by reflexivity. auto. }
  destruct src as [|[line| |e] rest].
  - destruct (StreamFacts.end_of_data_finishes
                (Stream enc false stale m_fields0 [] n u p) eq_refl
                (or_introl eq_refl)) as (s1 & -> & _).
    destruct (StreamFacts.end_of_data_finishes
                (Stream enc false m_row0 m_fields0 [] n u p) eq_refl
                (or_introl eq_refl)) as (s2 & -> & _).
    auto.
  - rewrite !(StreamFacts.read_row_delivers _ line) by (split; reflexivity).
    cbn [m_glyph_scanner m_row].
    pose proof (parse_fields_alike enc line stale m_row0) as Ha.
    destruct (parse_fields enc line stale) as [a| | |] eqn:Hpa,
             (parse_fields enc line m_row0) as [b| | |] eqn:Hpb;
      cbn in Ha; try contradiction; cbn [snd row_of]; auto.
    + destruct Ha as (Hf & Hr & Hw & Hfb & Hlen & Ht).
      rewrite Hf. split; [reflexivity|]. f_equal.
      unfold row_values, after. cbn [m_row].
      destruct (parse_fields_laid_out _ _ _ _ Hpa) as (hi & Hl & Hhi).
      rewrite Hf in Hl.
      eapply (laid_out_values _ _ (write a)); [exact Hl|lia|].
      rewrite Ht, Hw. reflexivity.
    + destruct Ha as [-> _]. auto.
  - destruct (StreamFacts.end_of_data_finishes
                (Stream enc false stale m_fields0 (copy_done :: rest) n u p)
                eq_refl (or_intror eq_refl)) as (s1 & -> & _).
    destruct (StreamFacts.end_of_data_finishes
                (Stream enc false m_row0 m_fields0 (copy_done :: rest) n u p)
                eq_refl (or_intror eq_refl)) as (s2 & -> & _).
    auto.
  - destruct (StreamFacts.source_exception_finishes
                (Stream enc false stale m_fields0 (copy_throws e :: rest) n u p)
                e eq_refl eq_refl) as (s1 & -> & _).
    destruct (StreamFacts.source_exception_finishes
                (Stream enc false m_row0 m_fields0 (copy_throws e :: rest) n u p)
                e eq_refl eq_refl) as (s2 & -> & _).
    auto.
Qed.

End ParseMore.

(** * Behind a null marker *)

Module NullMarkerFacts.

Import Encodings StreamFrom CopyText Invariants Layout.
Import ParseFacts ParseMore.

Lemma take_prefix_take (r r' x : list byte) w0 w w' :
  take w' r' = take w r ++ x -> w0 <= w -> w <= w' -> w <= length r ->
  take w0 r' = take w0 r.
Proof.
  intros Ht H0 Hw Hl.
  assert (H : take w0 (take w' r') = take w0 (take w r ++ x))
    by (rewrite Ht; reflexivity).
  rewrite take_take, Nat.min_l in H by lia. rewrite H.
  rewrite take_app_le by (rewrite length_take; lia).
  rewrite take_take, Nat.min_l by lia. reflexivity.
Qed.

Lemma take_eq_nth (r r' : list byte) w i d :
  take w r' = take w r -> i < w -> nth i r' d = nth i r d.
Proof.
  intros Ht Hi. rewrite !nth_lookup.
  rewrite <- (lookup_take_lt r' w i), <- (lookup_take_lt r w i) by lia.
  rewrite Ht. reflexivity.
Qed.

Lemma emit_keeps_prefix c st st' w :
  w <= write st -> emit c st = Next st' ->
  w <= write st' /\ take w (row st') = take w (row st).
Proof.
  intros Hw. unfold emit. destruct (_ <? _); [|discriminate].
  intros [= <-]. cbn [row write]. split; [lia|].
  apply take_insert_ge. lia.
Qed.

Lemma end_field_keeps_prefix st st' w :
  w <= write st -> end_field st = Next st' ->
  w <= write st' /\ take w (row st') = take w (row st).
Proof.
  intros Hw. unfold end_field. destruct (field_begin st) as [fb|].
  - intros H. apply (emit_keeps_prefix _ _ _ w) in H; [exact H|exact Hw].
  - intros [= <-]. cbn. auto.
Qed.

(** An iteration takes nothing back of what was written. *)
Lemma iteration_keeps_prefix enc line st w :
  bounded (length line) st -> read st < length line -> w <= write st ->
  forall st', iteration enc line st = Next st' ->
  w <= write st' /\ take w (row st') = take w (row st).
Proof.
  intros Hb Hlt Hw.
  apply (iteration_cases enc line st
           (fun r => forall st', r = Next st'
              -> w <= write st' /\ take w (row st') = take w (row st))
           Hb Hlt); try discriminate.
  - intros _ st'.
    destruct (end_field (set_read (S (read st)) st)) as [st1| | |] eqn:He;
      try discriminate.
    intros [= <-]. cbn [set_field_begin row write].
    apply (end_field_keeps_prefix _ _ w) in He; [exact He|exact Hw].
  - intros _ st'. rewrite escape_N.
    cbn [set_read field_begin write].
    destruct (field_begin st) as [fb|]; [|discriminate].
    destruct (fb =? write st); [|discriminate].
    intros [= <-]. cbn. auto.
  - intros c _ _ st' He.
    apply (emit_keeps_prefix _ _ _ w) in He; [exact He|exact Hw].
  - intros c _ _ _ st' He.
    apply (emit_keeps_prefix _ _ _ w) in He; [exact He|exact Hw].
  - intros n Hn Hend st' Hc. destruct Hb as (Hrow & Hwr & Hr).
    destruct (copy_glyph_content line n st Hrow Hwr Hend)
      as (st1 & Hc1 & _ & Hw1 & _ & _ & _ & Htake).
    rewrite Hc1 in Hc. injection Hc as <-. split; [lia|].
    eapply take_prefix_take; [exact Htake|exact Hw|lia|lia].
Qed.

Lemma arrives_orderly enc line m_row st :
  arrives enc line m_row st -> orderly st.
Proof.
  induction 1 as [|st st' Harr IH Hlt Hit].
  - exists 0. cbn. split; [lia|]. split; [lia|]. intros fb [= <-]. lia.
  - pose proof (iteration_orderly enc line st IH
                  (StreamFacts.arrives_bounded _ _ _ _ Harr) Hlt) as H.
    rewrite Hit in H. exact H.
Qed.

Lemma laid_out_outside m_row w fs : forall lo hi,
  laid_out m_row lo hi fs -> hi <= w -> Forall (outside w) fs.
Proof.
  induction fs as [|[|b n] fs IH]; intros lo hi Hl Hhi; cbn [laid_out] in Hl.
  - constructor.
  - constructor; [exact I|eauto].
  - destruct Hl as (_ & _ & Hl). pose proof (laid_out_le _ _ _ _ Hl).
    constructor; [left; lia|eauto].
Qed.

(** The null marker at the start of a field. *)
Lemma marker_step enc line st :
  enc <> GB18030 -> S (read st) < length line ->
  nth (read st) line x00 = backslash ->
  nth (S (read st)) line x00 = letter_N ->
  field_begin st = Some (write st) ->
  iteration enc line st
  = Next (Locals (row st) (fields st) (S (S (read st))) (write st) None).
Proof.
  intros Henc Hlt Hbs HN Hfb.
  rewrite iteration_ascii; [|assumption|lia|rewrite Hbs; reflexivity].
  rewrite (single_byte_backslash _ _ Hbs).
  destruct (Nat.leb_spec (length line) (S (read st))); [lia|].
  rewrite HN, escape_N. cbn [set_read field_begin write]. rewrite Hfb.
  rewrite Nat.eqb_refl. reflexivity.
Qed.

Lemma behind_facts enc line m_row marker st :
  enc <> GB18030 ->
  behind_null_marker enc line m_row marker st ->
  arrives enc line m_row st /\ field_begin st = None /\ marker <= write st
  /\ exists hi, hi <= marker /\ laid_out (row st) 0 hi (fields st).
Proof.
  intros Henc.
  induction 1 as [st st' Harr Hfb -> Hlt Hbs HN Hit
                 |st st' Hbehind IH Hlt Htab Hit].
  - assert (Harr' : arrives enc line m_row st')
      by (eapply arrives_next; [exact Harr|lia|exact Hit]).
    rewrite (marker_step enc line st Henc Hlt Hbs HN Hfb) in Hit.
    injection Hit as <-. cbn [row fields write field_begin].
    split; [exact Harr'|]. split; [reflexivity|]. split; [lia|].
    destruct (arrives_orderly _ _ _ _ Harr) as (hi & Hl & Hhi & Hb).
    exists hi. split; [|exact Hl]. apply Hb in Hfb. lia.
  - destruct IH as (Harr & Hfb & Hm & hi & Hhi & Hl).
    pose proof (StreamFacts.arrives_bounded _ _ _ _ Harr) as Hb.
    split; [eapply arrives_next; eauto|].
    pose proof (StreamFacts.null_field_stays_null enc line st Hb Hlt Hfb)
      as Hn.
    destruct (iteration_keeps_prefix enc line st (write st) Hb Hlt
                ltac:(lia) st' Hit) as [Hw Ht].
    rewrite Hit in Hn. destruct Hn as [[Hf Hfb']|(Ht' & _)].
    + split; [exact Hfb'|]. split; [lia|].
      exists hi. split; [exact Hhi|]. rewrite Hf.
      eapply laid_out_ext; [|exact Hl].
      intros i Hi. eapply take_eq_nth; [exact Ht|lia].
    + exfalso. apply Htab. split; [exact Ht'|].
      apply ScannerFacts.next_seq_ascii; [exact Henc|exact Hlt|].
      rewrite Ht'. reflexivity.
Qed.

(** Closing a field behind a null open field. *)
Lemma end_field_closes st st1 st' :
  (fields st1 = fields st /\ field_begin st1 = None)
  \/ (exists later,
        fields st1 = fields st ++ zview_null :: later
        /\ Forall (begins_from (write st)) later
        /\ forall fb, field_begin st1 = Some fb -> write st <= fb) ->
  end_field st1 = Next st' ->
  exists later,
    fields st' = fields st ++ zview_null :: later
    /\ Forall (begins_from (write st)) later.
Proof.
  intros Hph He. unfold end_field in He.
  destruct (field_begin st1) as [fb|] eqn:Hfb.
  - apply emit_frame in He. destruct He as (Hf & _ & _).
    cbn [push_back fields] in Hf.
    destruct Hph as [[_ Hn]|(later & Hl & Hall & Hb)]; [discriminate|].
    exists (later ++ [zview_at fb (write st1 - fb)]).
    rewrite Hf, Hl, <- app_assoc. split; [reflexivity|].
    apply Forall_app. split; [exact Hall|].
    constructor; [|constructor]. cbn. auto.
  - injection He as <-. cbn [push_back fields].
    destruct Hph as [[Hf _]|(later & Hl & Hall & _)].
    + exists []. rewrite Hf. split; [reflexivity|constructor].
    + exists (later ++ [zview_null]). rewrite Hl, <- app_assoc.
      split; [reflexivity|]. apply Forall_app. split; [exact Hall|].
      constructor; [exact I|constructor].
Qed.

Lemma null_since_step enc line st st1 :
  bounded (length line) st1 -> read st1 < length line ->
  null_since st st1 ->
  forall st2, iteration enc line st1 = Next st2 -> null_since st st2.
Proof.
  intros Hb Hlt (Hw & Ht & Hph) st2 Hit.
  destruct (iteration_keeps_prefix enc line st1 (write st) Hb Hlt Hw st2 Hit)
    as [Hw2 Ht2].
  split; [exact Hw2|]. split; [congruence|].
  clear Ht Ht2. revert st2 Hit Hw2.
  apply (iteration_cases enc line st1
    (fun r => forall st2, r = Next st2 -> write st <= write st2 ->
       (fields st2 = fields st /\ field_begin st2 = None)
       \/ (exists later,
             fields st2 = fields st ++ zview_null :: later
             /\ Forall (begins_from (write st)) later
             /\ forall fb, field_begin st2 = Some fb -> write st <= fb))
    Hb Hlt); try discriminate.
  - intros _ st2.
    destruct (end_field (set_read (S (read st1)) st1)) as [st'| | |] eqn:He;
      try discriminate.
    intros [= <-] Hw2. cbn [set_field_begin fields field_begin write] in *.
    destruct (end_field_closes st (set_read (S (read st1)) st1) st' Hph He)
      as (later & Hl & Hall).
    right. exists later. split; [exact Hl|]. split; [exact Hall|].
    intros fb [= <-]. exact Hw2.
  - intros _ st2. rewrite escape_N. cbn [set_read field_begin write].
    destruct (field_begin st1) as [fb|] eqn:Hfb; [|discriminate].
    destruct (fb =? write st1); [|discriminate].
    intros [= <-] _. cbn [set_field_begin set_read fields field_begin].
    destruct Hph as [[_ Hn]|(later & Hl & Hall & _)]; [discriminate|].
    right. exists later. split; [exact Hl|]. split; [exact Hall|].
    discriminate.
  - intros c _ _ st2 He _. apply emit_frame in He.
    destruct He as (Hf & _ & Hfb). cbn [set_read fields field_begin] in *.
    rewrite Hf, Hfb. exact Hph.
  - intros c _ _ _ st2 He _. apply emit_frame in He.
    destruct He as (Hf & _ & Hfb). cbn [set_read fields field_begin] in *.
    rewrite Hf, Hfb. exact Hph.
  - intros n Hn Hend st2 Hc _. destruct Hb as (Hrow & Hwr & Hr).
    destruct (copy_glyph_content line n st1 Hrow Hwr Hend)
      as (st' & Hc1 & _ & _ & _ & Hf & Hfb & _).
    rewrite Hc1 in Hc. injection Hc as <-. rewrite Hf, Hfb. exact Hph.
Qed.

(** The row that [parse_line] ends with, seen from a state of the loop in
    which the open field is null. *)
Lemma null_field_in_row enc line m_row st fin :
  arrives enc line m_row st -> field_begin st = None ->
  parse_fields enc line m_row = Next fin ->
  exists later,
    fields fin = fields st ++ zview_null :: later
    /\ Forall (begins_from (write st)) later
    /\ take (write st) (row fin) = take (write st) (row st).
Proof.
  intros Harr Hfb Hp. unfold parse_fields in Hp.
  rewrite (StreamFacts.arrives_parse_loop enc line m_row st Harr) in Hp.
  pose proof (StreamFacts.arrives_bounded _ _ _ _ Harr) as Hb.
  pose proof (parse_loop_keeps enc line (null_since st) (fun _ => True))
    as Hk.
  specialize (Hk ltac:(intros st1 Hn Hb1 Hlt1;
    destruct (iteration enc line st1) eqn:Hit; auto;
    eapply null_since_step; eauto)
    (length line - read st) st).
  specialize (Hk ltac:(split; [lia|split; [reflexivity|left; auto]]) Hb
                ltac:(lia)).
  destruct (parse_loop enc line (length line - read st) st)
    as [st1| | |]; try discriminate.
  cbn [finish] in Hp. destruct Hk as ((Hw & Ht & Hph) & Hb1 & _).
  destruct (end_field_closes st st1 fin Hph Hp) as (later & Hl & Hall).
  exists later. split; [exact Hl|]. split; [exact Hall|].
  destruct (end_field_keeps_prefix st1 fin (write st) Hw Hp) as [_ Hk].
  congruence.
Qed.

Lemma stands_for_glyph (glyph : list byte) :
  hd x00 glyph <> backslash -> stands_for glyph = glyph.
Proof.
  destruct glyph as [|c [|c' [|? ?]]]; cbn [stands_for hd]; try reflexivity.
  intros Hc. rewrite (CopyTextFacts.eqb_neq c backslash Hc). reflexivity.
Qed.

(** One more glyph behind a null marker. *)
Lemma trailing_glyph enc line st :
  enc <> GB18030 -> bounded (length line) st -> read st < length line ->
  field_begin st = None -> ~ at_tab enc line st ->
  match iteration enc line st with
  | Next st' =>
      fields st' = fields st /\ field_begin st' = None
      /\ read st < read st'
      /\ take (write st') (row st')
         = take (write st) (row st)
           ++ stands_for (take (read st' - read st) (drop (read st) line))
  | Raised e _ =>
      (outcome (next_seq enc line (length line) (read st)) = Throw e
       /\ exists name bytes, e = argument_error name (read st) bytes)
      \/ (nth (read st) line x00 = backslash
          /\ S (read st) = length line
          /\ e = failure "Row ends in backslash")
      \/ (nth (read st) line x00 = backslash
          /\ nth (S (read st)) line x00 = letter_N
          /\ e = failure "Null sequence found in nonempty field")
  | OutOfBounds _ | Stuck _ => False
  end.
Proof.
  intros Henc Hb Hlt Hnull Htab.
  destruct Hb as (Hrow & Hw & Hr). unfold iteration.
  destruct (outcome (next_seq enc line (length line) (read st)))
    as [[glyph_end|]|e] eqn:Hscan.
  - pose proof (ScannerFacts.next_seq_end _ _ _ _ _ Hscan) as Hend.
    destruct (Nat.eqb_spec glyph_end (read st + 1)) as [->|Hne].
    + destruct (Byte.byte_eq_dec (nth (read st) line x00) tab) as [Ht|Ht].
      { exfalso. apply Htab. split; assumption. }
      destruct (Byte.byte_eq_dec (nth (read st) line x00) backslash)
        as [Hbs|Hbs].
      { rewrite (single_byte_backslash _ _ Hbs).
        destruct (Nat.leb_spec (length line) (S (read st))).
        { right. left. repeat split; auto. lia. }
        destruct (Byte.byte_eq_dec (nth (S (read st)) line x00) letter_N)
          as [HN|HN].
        - rewrite HN, escape_N. cbn [set_read field_begin]. rewrite Hnull.
          right. right. auto.
        - rewrite (escape_other _ _ HN). unfold emit.
          cbn [set_read row fields read write field_begin].
          destruct (Nat.ltb_spec (write st) (length (row st))); [|lia].
          cbn [row fields read write field_begin].
          repeat split; auto; try lia.
          rewrite take_insert_end by lia. f_equal.
          replace (S (S (read st)) - read st) with 2 by lia.
          rewrite (drop_nth line (read st)) by lia.
          rewrite (drop_nth line (S (read st))) by lia.
          cbn [take stands_for]. rewrite Hbs, CopyTextFacts.eqb_refl.
          reflexivity. }
      rewrite (single_byte_other _ _ Ht Hbs). unfold emit.
      cbn [set_read row fields read write field_begin].
      destruct (Nat.ltb_spec (write st) (length (row st))); [|lia].
      cbn [row fields read write field_begin].
      repeat split; auto; try lia.
      rewrite take_insert_end by lia. f_equal.
      replace (S (read st) - read st) with 1 by lia.
      rewrite (drop_nth line (read st)) by lia. reflexivity.
    + destruct (copy_glyph_content line (glyph_end - read st) st Hrow Hw
                  ltac:(lia))
        as (st' & -> & Hrd & Hwr & _ & Hf & Hfb & Htake).
      repeat split; try congruence; try lia.
      rewrite Htake. f_equal.
      replace (read st' - read st) with (glyph_end - read st) by lia.
      symmetry. apply stands_for_glyph.
      rewrite (drop_nth line (read st)) by lia.
      destruct (glyph_end - read st) as [|k] eqn:Hk; [lia|].
      cbn [take hd]. intros Hbs.
      apply Hne. 
      assert (Ha : outcome (next_seq enc line (length line) (read st))
                   = Ret (Some (read st + 1))).
      { apply ScannerFacts.next_seq_ascii; [exact Henc|exact Hlt|].
        rewrite Hbs. reflexivity. }
      congruence.
  - apply ScannerFacts.next_seq_npos in Hscan. lia.
  - left. split; [reflexivity|].
    destruct (ScannerMore.next_seq_throws _ _ _ _ _ Hscan)
      as (name & count & -> & _). eauto.
Qed.

(** C10, as amended.  In any group but GB18030 (which this statement
    leaves out), at every state the loop of [parse_line] is in behind a
    null marker that began a field, before a tab has closed the field:
    the open field is null.  If one more glyph follows that is not a tab,
    either the iteration writes what the glyph stands for (the byte of an
    escape, else the bytes of the glyph) to the row buffer and the field
    stays null and open, or [read_row] throws, and then the scanner
    rejected the glyph, or the glyph is a backslash that ends the line, or
    it is another null marker.  And whenever [read_row] hands out the row,
    the view of the field is the null view, and the bytes written since the
    marker are still in the row buffer, outside every view of the row. *)
Theorem null_marker_hides_trailing_bytes s line marker st :
  m_glyph_scanner s <> GB18030 -> delivers s line ->
  behind_null_marker (m_glyph_scanner s) line (m_row s) marker st ->
  (field_begin st = None /\ marker <= write st)
  /\ (read st < length line -> ~ at_tab (m_glyph_scanner s) line st ->
      match iteration (m_glyph_scanner s) line st with
      | Next st' =>
          fields st' = fields st /\ field_begin st' = None
          /\ read st < read st'
          /\ take (write st') (row st')
             = take (write st) (row st)
               ++ stands_for (take (read st' - read st) (drop (read st) line))
      | Raised e _ =>
          snd (read_row s) = Throws e
          /\ ((outcome (next_seq (m_glyph_scanner s) line (length line)
                                  (read st)) = Throw e
               /\ exists name bytes, e = argument_error name (read st) bytes)
              \/ (nth (read st) line x00 = backslash
                  /\ S (read st) = length line
                  /\ e = failure "Row ends in backslash")
              \/ (nth (read st) line x00 = backslash
                  /\ nth (S (read st)) line x00 = letter_N
                  /\ e = failure "Null sequence found in nonempty field"))
      | OutOfBounds _ | Stuck _ => False
      end)
  /\ (forall s' views,
        read_row s = (s', Returns (Some views)) ->
        nth (length (fields st)) views (zview_at 0 0) = zview_null
        /\ forall w, marker <= w < write st ->
             nth w (m_row s') x00 = nth w (row st) x00
             /\ Forall (outside w) views).
Proof.
  intros Henc Hd Hbehind.
  destruct (behind_facts _ _ _ _ _ Henc Hbehind)
    as (Harr & Hfb & Hm & hi & Hhi & Hl).
  pose proof (StreamFacts.arrives_bounded _ _ _ _ Harr) as Hb.
  split; [split; assumption|]. split.
  - intros Hlt Htab.
    pose proof (trailing_glyph _ line st Henc Hb Hlt Hfb Htab) as Hg.
    destruct (iteration (m_glyph_scanner s) line st) as [st'|e st'| |] eqn:Hit;
      try exact Hg.
    split; [|exact Hg].
    rewrite (StreamFacts.read_row_raised s line st e st' Hd Harr Hlt Hit).
    reflexivity.
  - intros s' views Hrow.
    destruct (read_row_returns_row _ _ _ Hrow)
      as (line' & fin & Hd' & Hp & -> & ->).
    assert (line' = line) as ->.
    { destruct Hd as [_ Hs], Hd' as [_ Hs']. congruence. }
    destruct (null_field_in_row _ _ _ _ _ Harr Hfb Hp)
      as (later & Hf & Hall & Ht).
    rewrite Hf. split; [apply nth_middle|].
    intros w Hw. cbn [after m_row]. split.
    + eapply take_eq_nth; [exact Ht|lia].
    + apply Forall_app. split.
      * eapply laid_out_outside; [exact Hl|lia].
      * constructor; [exact I|].
        eapply Forall_impl; [exact Hall|].
        intros [|b n]; cbn; [auto|lia].
Qed.

(** The line backslash N, the three bytes of a UTF8 glyph, TAB, d, read in
    UTF8, at the state behind the glyph: the row has a null view first,
    and the three bytes lie at offsets 0 to 2 of the row buffer, outside
    the views of the row. *)
Lemma null_marker_hides_trailing_bytes_witness :
  nth 0 [zview_null; zview_at 3 1] (zview_at 0 0) = zview_null
  /\ forall w, 0 <= w < 3 ->
       nth w [xe4; xb8; xad; x64; x00; x00; x00; x00] x00
       = nth w [xe4; xb8; xad; x00; x00; x00; x00; x00] x00
       /\ Forall (outside w) [zview_null; zview_at 3 1].
Proof.
  pose (line := [x5c; x4e; xe4; xb8; xad; x09; x64]).
  pose (s := open UTF8 [copy_line line]).
  pose (st0 := Locals (resize 8 x00 []) [] 0 0 (Some 0)).
  pose (st1 := Locals (resize 8 x00 []) [] 2 0 None).
  pose (st2 := Locals [xe4; xb8; xad; x00; x00; x00; x00; x00] [] 5 3 None).
  assert (H1 : behind_null_marker UTF8 line [] 0 st1).
  { apply (behind_marker UTF8 line [] 0 st0 st1);
      try reflexivity; [exact (arrives_first UTF8 line [])|cbn; lia]. }
  assert (H2 : behind_null_marker UTF8 line [] 0 st2).
  { apply (behind_glyph UTF8 line [] 0 st1 st2);
      [exact H1|cbn; lia|intros [Htab _]; discriminate Htab|reflexivity]. }
  apply (proj2 (proj2 (null_marker_hides_trailing_bytes s line 0 st2
                         ltac:(discriminate) (conj eq_refl eq_refl) H2))
           (Stream UTF8 false [xe4; xb8; xad; x64; x00; x00; x00; x00]
                   [zview_null; zview_at 3 1] [] 1 0 [])
           [zview_null; zview_at 3 1]).
  reflexivity.
Defined.

(** C10 as stated fails: bytes behind a null marker can make [read_row]
    throw.  A backslash among them that ends the line, a second null
    marker, bytes the scanner rejects; a later field of the line that
    ends in a backslash; and a null marker that is not at the start of its
    field. *)
Lemma null_marker_then_bytes_can_raise :
  snd (read_row (open UTF8 [copy_line [x5c; x4e; x63; x5c]]))
  = Throws (failure "Row ends in backslash")
  /\ snd (read_row (open UTF8 [copy_line [x5c; x4e; x5c; x4e]]))
     = Throws (failure "Null sequence found in nonempty field")
  /\ snd (read_row (open UTF8 [copy_line [x5c; x4e; xff]]))
     = Throws (argument_error "UTF8" 2 [0xff%N])
  /\ snd (read_row (open UTF8 [copy_line [x5c; x4e; x63; x09; x5c]]))
     = Throws (failure "Row ends in backslash")
  /\ snd (read_row (open UTF8 [copy_line [x61; x5c; x4e; x63]]))
     = Throws (failure "Null sequence found in nonempty field").
Proof. repeat split; reflexivity. Qed.

End NullMarkerFacts.

(** * Further properties of the stream *)

Module StreamMore.

Import Encodings StreamFrom CopyText Calls Invariants Layout.
Import ParseFacts.

(** What a call of [read_row] on a usable stream does to the stream. *)
Lemma read_row_effect s :
  m_finished s = false ->
  let s' := fst (read_row s) in
  pulls s' = S (pulls s) /\ source s' = tail (source s)
  /\ pending_errors s' = pending_errors s
  /\ m_glyph_scanner s' = m_glyph_scanner s
  /\ match head (source s) with
     | Some (copy_line _) =>
         m_finished s' = false /\ unregistered s' = unregistered s
     | _ => m_finished s' = true /\ unregistered s' = S (unregistered s)
     end.
Proof.
  intros Hfin. destruct s as [enc fin m_row0 m_fields0 src n u p].
  cbn in Hfin. subst fin. destruct src as [|[line| |e] rest].
  - unfold read_row, parse_line, get_raw_line, operator_bool, read_copy_line,
      clear_fields, close, set_parsed.
    cbn [m_finished m_glyph_scanner m_row m_fields source pulls unregistered
         pending_errors negb default from_option id].
    destruct (StreamFacts.parse_fields_nil enc m_row0) as [st ->]. cbn. auto 10.
  - rewrite (StreamFacts.read_row_delivers _ line) by (split; reflexivity).
    cbn [m_glyph_scanner m_row].
    destruct (parse_fields enc line m_row0); cbn; auto 10.
  - unfold read_row, parse_line, get_raw_line, operator_bool, read_copy_line,
      clear_fields, close, set_parsed.
    cbn [m_finished m_glyph_scanner m_row m_fields source pulls unregistered
         pending_errors negb default from_option id].
    destruct (StreamFacts.parse_fields_nil enc m_row0) as [st ->]. cbn. auto 10.
  - cbn. auto 10.
Qed.

(** X15.  A call of [read_row] on a usable stream takes exactly one event
    from the connection, and the stream stays usable just when that event
    was a line. *)
Theorem read_row_takes_one_event s :
  m_finished s = false ->
  pulls (fst (read_row s)) = S (pulls s)
  /\ source (fst (read_row s)) = tail (source s)
  /\ (m_finished (fst (read_row s)) = false
      <-> exists line, head (source s) = Some (copy_line line)).
Proof.
  intros Hfin.
  destruct (read_row_effect s Hfin) as (Hp & Hs & _ & _ & Hm).
  split; [exact Hp|]. split; [exact Hs|].
  destruct (head (source s)) as [[line| |e]|]; destruct Hm as [Hm _];
    rewrite Hm; split; try discriminate; eauto;
    intros [line Hl]; discriminate.
Qed.

Lemma read_row_takes_one_event_witness :
  let s := open UTF8 [copy_line [x61; x5c]; copy_line [x62]] in
  pulls (fst (read_row s)) = 1
  /\ source (fst (read_row s)) = [copy_line [x62]]
  /\ (m_finished (fst (read_row s)) = false
      <-> exists line, head (source s) = Some (copy_line line)).
Proof.
  exact (read_row_takes_one_event
           (open UTF8 [copy_line [x61; x5c]; copy_line [x62]]) eq_refl).
Defined.



(** *** complete *)

Lemma flush_lines_spec : forall fuel s,
  m_finished s = false -> length (source s) < fuel ->
  exists s1,
    flush_lines fuel s
    = (s1, match head (skip_lines (source s)) with
           | Some (copy_throws e) => Throws e
           | _ => Returns tt
           end)
    /\ m_finished s1 = true
    /\ source s1 = tail (skip_lines (source s))
    /\ pending_errors s1 = pending_errors s
    /\ unregistered s1 = S (unregistered s)
    /\ m_row s1 = m_row s /\ m_fields s1 = m_fields s.
Proof.
  induction fuel as [|fuel IH]; intros s Hfin Hfuel; [lia|].
  destruct s as [enc fin m_row0 m_fields0 src n u p].
  cbn in Hfin, Hfuel. subst fin.
  destruct src as [|[line| |e] rest]; cbn [flush_lines];
    unfold get_raw_line, operator_bool, read_copy_line, close;
    cbn [m_finished m_glyph_scanner m_row m_fields source pulls unregistered
         pending_errors negb skip_lines head tail].
  - eexists. split; [reflexivity|]. cbn. auto 10.
  - destruct (IH (Stream enc false m_row0 m_fields0 rest (S n) u p) eq_refl)
      as (s1 & Hr & H1); [cbn in *; lia|].
    exists s1. split; [exact Hr|exact H1].
  - eexists. split; [reflexivity|]. cbn. auto 10.
  - eexists. split; [reflexivity|]. cbn. auto 10.
Qed.

Lemma complete_spec s :
  m_finished s = false ->
  let s' := fst (complete s) in
  m_finished s' = true
  /\ source s' = tail (skip_lines (source s))
  /\ unregistered s' = S (unregistered s)
  /\ match head (skip_lines (source s)) with
     | Some (copy_throws broken_connection) =>
         snd (complete s) = Throws broken_connection
         /\ pending_errors s' = pending_errors s
     | Some (copy_throws e) =>
         snd (complete s) = Returns tt
         /\ pending_errors s' = pending_errors s ++ [e]
     | _ =>
         snd (complete s) = Returns tt
         /\ pending_errors s' = pending_errors s
     end.
Proof.
  intros Hfin. unfold complete. rewrite Hfin.
  destruct (flush_lines_spec (S (length (source s))) s Hfin ltac:(lia))
    as (s1 & -> & Hf & Hs & Hp & Hu & _).
  assert (Hc : close s1 = s1) by (apply StreamFacts.close_finished, Hf).
  destruct (head (skip_lines (source s))) as [[line| |e]|];
    try (rewrite Hc; cbn [fst snd]; auto 10).
  destruct e;
    try (rewrite (StreamFacts.close_finished (reg_pending_error _ s1))
           by exact Hf);
    rewrite ?Hc; cbn [fst snd reg_pending_error m_finished source
                      unregistered pending_errors];
    rewrite ?Hp; auto 10.
Qed.

(** X17.  [complete] on a usable stream never hangs: it skips the lines
    still pending, takes the event behind them and leaves the stream
    finished, with its transaction focus unregistered once more. It throws
    only a [broken_connection] of the connection; any other exception of the
    connection is registered as a pending error and swallowed. *)
Theorem complete_drains s :
  m_finished s = false ->
  m_finished (fst (complete s)) = true
  /\ source (fst (complete s)) = tail (skip_lines (source s))
  /\ unregistered (fst (complete s)) = S (unregistered s)
  /\ match head (skip_lines (source s)) with
     | Some (copy_throws broken_connection) =>
         snd (complete s) = Throws broken_connection
         /\ pending_errors (fst (complete s)) = pending_errors s
     | Some (copy_throws e) =>
         snd (complete s) = Returns tt
         /\ pending_errors (fst (complete s)) = pending_errors s ++ [e]
     | _ =>
         snd (complete s) = Returns tt
         /\ pending_errors (fst (complete s)) = pending_errors s
     end.
Proof.
  intros Hfin. exact (complete_spec s Hfin).
Qed.

Lemma complete_drains_witness :
  let s := open UTF8 [copy_line [x61]; copy_line [x5c];
                      copy_throws (std_exception "lost"); copy_line [x62]] in
  m_finished (fst (complete s)) = true
  /\ source (fst (complete s)) = [copy_line [x62]]
  /\ unregistered (fst (complete s)) = 1
  /\ snd (complete s) = Returns tt
  /\ pending_errors (fst (complete s)) = [std_exception "lost"].
Proof.
  exact (complete_drains
           (open UTF8 [copy_line [x61]; copy_line [x5c];
                       copy_throws (std_exception "lost"); copy_line [x62]])
           eq_refl).
Defined.

(** *** The transaction focus *)

Lemma perform_unregisters c s :
  unregistered s = (if m_finished s then 1 else 0) ->
  unregistered (fst (perform c s))
  = (if m_finished (fst (perform c s)) then 1 else 0).
Proof.
  intros Hinv. destruct (m_finished s) eqn:Hfin.
  { rewrite (StreamFacts.perform_finished c s Hfin). cbn [fst].
    rewrite Hfin. exact Hinv. }
  destruct c; cbn [perform].
  - destruct (read_row_effect s Hfin) as (_ & _ & _ & _ & Hm).
    destruct (read_row s) as [s1 [[row|]|e| |]]; cbn [fst] in *;
      destruct (head (source s)) as [[line| |e']|]; destruct Hm as [-> ->];
      lia.
  - unfold close. rewrite Hfin. cbn. lia.
  - destruct (complete_spec s Hfin) as (Hf & _ & Hu & _).
    destruct (complete s) as [s1 [[]|e| |]]; cbn [fst] in *;
      rewrite Hf, Hu; lia.
Qed.

(** X18.  Whatever is called on a freshly opened stream, in whatever order:
    the stream has unregistered its transaction focus once if it is
    finished, and not at all if it is still usable. *)
Theorem unregisters_exactly_once cs enc events :
  let s := fst (perform_all cs (open enc events)) in
  unregistered s = if m_finished s then 1 else 0.
Proof.
  cbn zeta.
  assert (H : forall s, unregistered s = (if m_finished s then 1 else 0) ->
            unregistered (fst (perform_all cs s))
            = if m_finished (fst (perform_all cs s)) then 1 else 0).
  { induction cs as [|c cs IH]; intros s Hinv; [exact Hinv|].
    cbn [perform_all].
    pose proof (perform_unregisters c s Hinv) as Hc.
    destruct (perform c s) as [s1 a]. cbn [fst] in Hc.
    pose proof (IH s1 Hc) as Hr.
    destruct (perform_all cs s1) as [s2 answers]. exact Hr. }
  apply H. reflexivity.
Qed.

(** *** Lines of ASCII bytes *)

Lemma parse_loop_ascii_any_group enc enc' line :
  enc <> GB18030 -> enc' <> GB18030 -> Forall ascii line ->
  forall fuel st,
    parse_loop enc line fuel st = parse_loop enc' line fuel st.
Proof.
  intros Henc Henc' Hascii. induction fuel as [|fuel IH]; intros st;
    cbn [parse_loop]; [reflexivity|].
  destruct (Nat.leb_spec (length line) (read st)) as [Hend|Hlt];
    [reflexivity|].
  assert (Hb : ascii (nth (read st) line x00))
    by (apply ascii_nth; assumption).
  rewrite !iteration_ascii by assumption.
  destruct (single_byte line st); auto.
Qed.

(** X19.  A line of bytes below 0x80 is parsed the same in every encoding
    group but GB18030. *)
Theorem ascii_line_same_in_every_group enc enc' line m_row :
  enc <> GB18030 -> enc' <> GB18030 -> Forall ascii line ->
  parse_fields enc line m_row = parse_fields enc' line m_row.
Proof.
  intros Henc Henc' Hascii. unfold parse_fields.
  rewrite (parse_loop_ascii_any_group enc enc' line Henc Henc' Hascii).
  reflexivity.
Qed.

Lemma ascii_line_same_in_every_group_witness :
  parse_fields SJIS [x61; x5c; x5c; x09; x5c; x4e] []
  = parse_fields UTF8 [x61; x5c; x5c; x09; x5c; x4e] [].
Proof.
  apply ascii_line_same_in_every_group;
    [discriminate|discriminate|repeat constructor; reflexivity].
Defined.

End StreamMore.

(** * The commands the constructors send *)

Module CommandFacts.

Import Commands.

Lemma length_append (a b : string) :
  String.length (String.append a b) = String.length a + String.length b.
Proof.
  induction a as [|c a IH]; [reflexivity|].
  change (String.append (String c a) b) with (String c (String.append a b)).
  cbn [String.length Nat.add]. rewrite IH. reflexivity.
Qed.

Lemma substring_append (a b : string) :
  String.substring 0 (String.length a) (String.append a b) = a.
Proof.
  induction a as [|c a IH]; [destruct b; reflexivity|].
  change (String.append (String c a) b) with (String c (String.append a b)).
  cbn [String.length String.substring]. rewrite IH. reflexivity.
Qed.

Lemma append_assoc (a b c : string) :
  String.append (String.append a b) c = String.append a (String.append b c).
Proof.
  induction a as [|x a IH]; [reflexivity|].
  change (String.append (String x a) b) with (String x (String.append a b)).
  change (String.append (String x (String.append a b)) c)
    with (String x (String.append (String.append a b) c)).
  rewrite IH. reflexivity.
Qed.

(** X20.  The size [compose_query] reserves is never exceeded by the
    command: it is the length of the command with a column list, and two
    more than the length without one; the command begins with the keyword
    and the quoted table name. *)
Theorem compose_query_fits_reserve quote_name table columns :
  String.length (snd (compose_query quote_name table columns))
  + (if String.eqb columns "" then 2 else 0)
  = fst (compose_query quote_name table columns)
  /\ String.substring 0 (5 + String.length (quote_name table))
                      (snd (compose_query quote_name table columns))
     = String.append "COPY " (quote_name table).
Proof.
  unfold compose_query. cbn [fst snd].
  destruct (String.eqb_spec columns "") as [->|Hc].
  - split; [rewrite !length_append; cbn; lia|].
    change (5 + String.length (quote_name table))
      with (String.length (String.append "COPY " (quote_name table))).
    apply substring_append.
  - split; [rewrite !length_append; cbn; lia|].
    change (5 + String.length (quote_name table))
      with (String.length (String.append "COPY " (quote_name table))).
    set (command := String.append "COPY " (quote_name table)).
    rewrite !(append_assoc command). apply substring_append.
Qed.

(** X21.  The constructor that takes a query reserves exactly the length of
    its command. *)
Theorem from_query_command_fills_reserve query :
  String.length (snd (from_query_command query))
  = fst (from_query_command query).
Proof.
  unfold from_query_command. cbn [fst snd]. rewrite !length_append.
  reflexivity.
Qed.

End CommandFacts.
